(** * sent: the text engine of drw.c

    A shallow embedding of the UTF-8 codec, the font cache and the text
    fitter of [drw.c], with the properties of the design document stated
    and proved (or refuted) over it, followed by further properties of
    the same code and of [drw_rect], [drw_font_free] and [drw_free].

    Conventions of the embedding.
    - [char] buffers are lists of byte values; a read behind the end of
      the list yields the terminating NUL.
    - [unsigned int] and [int] are integers in [Z]; every operation of the
      source that can wrap is written with its reduction modulo [2^32].
    - [size_t] counters that only count bytes of a buffer are [nat]; the
      one place where the source relies on [size_t] wrap-around (the
      ellipsis loop) spells it out.
    - [Fnt *] values are positions in the font cache.  Every font of the
      cache is a separate allocation, so the pointer comparison
      [drw->fonts[i] == curfont] is the comparison of positions.
    - [die] ends the process; a wild read or write is a [Fault]. *)

From Stdlib Require Import ZArith List Lia Bool String.
From stdpp Require Import base list.

(** ** util.h *)

Module Util.

Local Open Scope Z_scope.

(** Modelled from the spec: the macro [BETWEEN] of util.h, which is not
    part of the sources at hand.  The design document asks for the scalar
    to be "within the expected range" and names the surrogate range
    0xD800-0xDFFF with both ends included. *)
Definition BETWEEN (x a b : Z) : bool := (a <=? x) && (x <=? b).

(** Modelled from the spec: the macro [MIN] of util.h (the shorter of the
    run and the buffer, "the same length ceiling"). *)
Definition MIN (a b : nat) : nat := if (a <? b)%nat then a else b.

End Util.

Import Util.

(** ** The UTF-8 codec *)

Module Utf8.

Local Open Scope Z_scope.

Definition UTF_INVALID : Z := 0xFFFD.
Definition UTF_SIZ : nat := 4.

Definition utfbyte (i : nat) : Z := nth i [0x80; 0; 0xC0; 0xE0; 0xF0] 0.
Definition utfmask (i : nat) : Z := nth i [0xC0; 0x80; 0xE0; 0xF0; 0xF8] 0.
Definition utfmin (i : nat) : Z := nth i [0; 0; 0x80; 0x800; 0x10000] 0.
Definition utfmax (i : nat) : Z := nth i [0x10FFFF; 0x7F; 0x7FF; 0xFFFF; 0x10FFFF] 0.

(** The cast [(unsigned char)c]. *)
Definition uchar (c : Z) : Z := c mod 256.

(** [utf8decodebyte]: [n] is the number of table rows still to try, [i]
    the row; the result is the payload bits and the final value of [*i]
    (0 continuation, 1..4 lead of that length, 5 no row matched). *)
Fixpoint utf8decodebyte_from (n : nat) (c : Z) (i : nat) : Z * nat :=
  match n with
  | O => (0, i)
  | S n' =>
      if Z.land (uchar c) (utfmask i) =? utfbyte i
      then (Z.land (uchar c) (Z.lnot (utfmask i)), i)
      else utf8decodebyte_from n' c (S i)
  end.

Definition utf8decodebyte (c : Z) : Z * nat :=
  utf8decodebyte_from (UTF_SIZ + 1) c 0.

(** The counting loop at the end of [utf8validate]. *)
Fixpoint utf8validate_count (n : nat) (u : Z) (i : nat) : nat :=
  match n with
  | O => i
  | S n' => if u >? utfmax i then utf8validate_count n' u (S i) else i
  end.

(** [utf8validate]: the new value of [*u] and the returned length. *)
Definition utf8validate (u : Z) (i : nat) : Z * nat :=
  let u' :=
    if negb (BETWEEN u (utfmin i) (utfmax i)) || BETWEEN u 0xD800 0xDFFF
    then UTF_INVALID else u in
  (u', utf8validate_count UTF_SIZ u' 1).

(** The continuation loop of [utf8decode]: [inl j] is the [return j]
    inside the loop, [inr (udecoded, j)] the state when the loop is left. *)
Fixpoint utf8decode_loop (n : nat) (c : list Z) (clen len : nat)
    (udecoded : Z) (i j : nat) : nat + Z * nat :=
  match n with
  | O => inr (udecoded, j)
  | S n' =>
      if (i <? clen)%nat && (j <? len)%nat then
        let '(bits, type) := utf8decodebyte (nth i c 0) in
        let udecoded' := Z.lor (Z.shiftl udecoded 6) bits in
        if negb (type =? 0)%nat then inl j
        else utf8decode_loop n' c clen len udecoded' (S i) (S j)
      else inr (udecoded, j)
  end.

(** [utf8decode c u clen]: the value left in [*u] and the returned count. *)
Definition utf8decode (c : list Z) (clen : nat) : Z * nat :=
  if (clen =? 0)%nat then (UTF_INVALID, O) else
  let '(udecoded, len) := utf8decodebyte (nth 0 c 0) in
  if negb (BETWEEN (Z.of_nat len) 1 (Z.of_nat UTF_SIZ)) then (UTF_INVALID, 1%nat)
  else
    match utf8decode_loop UTF_SIZ c clen len udecoded 1 1 with
    | inl j => (UTF_INVALID, j)
    | inr (udecoded', j) =>
        if (j <? len)%nat then (UTF_INVALID, O)
        else (fst (utf8validate udecoded' len), len)
    end.

(** The scalar that the bytes of a complete [len]-byte sequence spell:
    the payload of the lead byte followed by six bits of each of the
    [len - 1] bytes after it. *)
Definition utf8_scalar (c : list Z) (len : nat) : Z :=
  fold_left
    (fun u i => Z.lor (Z.shiftl u 6) (fst (utf8decodebyte (nth i c 0))))
    (seq 1 (len - 1)) (fst (utf8decodebyte (nth 0 c 0))).

(** The announced length of a sequence, read off its lead byte. *)
Definition utf8_announced (c : list Z) : nat := snd (utf8decodebyte (nth 0 c 0)).

(** A byte is a continuation byte when its row is row 0. *)
Definition is_continuation (b : Z) : Prop := snd (utf8decodebyte b) = O.

End Utf8.

Import Utf8.


(** ** The drawing surface and its font cache *)

Module Drw.

(** Machine integers: the value of an expression as [unsigned int], as
    [int] and as [size_t]. *)
Definition uint (z : Z) : Z := (z mod 2 ^ 32)%Z.
Definition sint (z : Z) : Z :=
  (if z mod 2 ^ 32 <? 2 ^ 31 then z mod 2 ^ 32 else z mod 2 ^ 32 - 2 ^ 32)%Z.
Definition size_t (z : Z) : Z := (z mod 2 ^ 64)%Z.

(** An opened font of the Xft library: its identity and the two metrics
    the code reads from it. *)
Record XftFont : Type := {
  xid : nat;
  xascent : Z;
  xdescent : Z
}.

(** A font pattern of fontconfig, known by its identity only. *)
Definition FcPattern : Type := nat.

(** Modelled from the spec: the struct [Fnt] of drw.h, which is not part
    of the sources at hand: "a handle to an opened font resource, its
    ascent/descent/line-height and an optional match template". *)
Record Fnt : Type := {
  ascent : Z;
  descent : Z;
  h : Z;
  xfont : XftFont;
  pattern : option FcPattern
}.

(** A colour scheme: the pixel values of foreground and background. *)
Record Scm : Type := { fg : Z; bg : Z }.

(** Modelled from the spec: the struct [Drw] of drw.h, as far as the
    code of the text engine uses it: the array [fonts] of
    DRW_FONT_CACHE_SIZE pointers (a NULL pointer is [None]), the number
    [fontcount] of slots in use and the scheme. *)
Record Drw : Type := {
  fontcount : nat;
  fonts : list (option Fnt);
  scheme : option Scm
}.

(** How a call ends: it returns, the process is ended by [die] (with the
    surface as it was then), or memory is read or written wildly.  A
    call that returns hands back, where it matters, the lines it printed
    on stderr; the outcome [Die] holds the message of [die] and the
    surface only, so the lines that were printed before the process
    ended are not recorded. *)
Inductive outcome (A : Type) : Type :=
| Ret (a : A)
| Die (msg : string) (d : Drw)
| Fault.

Arguments Ret {A} a.
Arguments Die {A} msg d.
Arguments Fault {A}.

Definition bind {A B : Type} (m : outcome A) (k : A -> outcome B) : outcome B :=
  match m with
  | Ret a => k a
  | Die msg d => Die msg d
  | Fault => Fault
  end.

(** The surface in which a call ends, whichever way it ends, satisfies
    [P]; a call that faults ends nowhere. *)
Definition ends_in {A : Type} (P : Drw -> Prop) (get : A -> Drw)
    (m : outcome A) : Prop :=
  match m with
  | Ret a => P (get a)
  | Die _ d => P d
  | Fault => False
  end.

Notation "x <- m ;; k" := (bind m (fun x => k))
  (at level 20, m at level 99, k at level 200, only parsing).
Notation "' pat <- m ;; k" := (bind m (fun x => match x with pat => k end))
  (at level 20, pat pattern, m at level 99, k at level 200, only parsing).

(** The collaborators of the graphics layer: Xft and fontconfig. *)
Class XftLib : Type := {
  (** [XftFontOpenName]: open a font by its textual specification. *)
  XftFontOpenName : string -> option XftFont;
  (** [FcNameParse]: derive the pattern from the specification. *)
  FcNameParse : string -> option FcPattern;
  (** [XftFontOpenPattern]: open the font a match names. *)
  XftFontOpenPattern : FcPattern -> option XftFont;
  (** [XftCharExists]: does the font have a glyph for the codepoint. *)
  XftCharExists : XftFont -> Z -> bool;
  (** [XftTextExtentsUtf8]: the field [xOff] of the extents of the first
      [len] bytes of the text, a [short]. *)
  XftTextExtentsUtf8 : XftFont -> list Z -> nat -> Z;
  (** [XftFontMatch] on the duplicate of a template to which the charset
      of one codepoint and "scalable" were added. *)
  XftFontMatch : FcPattern -> Z -> option FcPattern
}.

(** One closed run of the fitter, as the code computes it. *)
Record run : Type := {
  run_font : nat;          (* curfont *)
  run_str : list Z;        (* utf8str *)
  run_strlen : nat;        (* utf8strlen *)
  run_full : Z;            (* ew as first measured, over utf8strlen bytes *)
  run_len : nat;           (* len after the shortening loop *)
  run_ew : Z;              (* ew after the shortening loop *)
  run_buf : list Z;        (* buf[0..len) as written; empty when len = 0 *)
  run_draw : option (Z * Z) (* tx, ty of the draw call, when there is one *)
}.

(** What [drw_text] leaves behind. *)
Record text_result : Type := {
  res_x : Z;                           (* the returned x *)
  res_drw : option Drw;                (* the surface afterwards *)
  res_fill : option (Z * Z * Z * Z);   (* the background rectangle *)
  res_runs : list run;                 (* the runs, in order *)
  res_err : list string                (* lines written to stderr *)
}.

(** The variables of [drw_text] that live across iterations of its
    outer loop. *)
Record fit_state : Type := {
  st_drw : Drw;
  st_text : list Z;
  st_curfont : nat;
  st_charexists : bool;
  st_codepoint : Z;
  st_x : Z;
  st_w : Z;
  st_err : list string
}.

(** The result of the loop over the cache inside the scan. *)
Inductive pick : Type :=
| PickCur               (* the glyph goes to the run of curfont *)
| PickNext (i : nat)    (* nextfont = fonts[i] *)
| PickNone.             (* the loop ran to fontcount *)

(** One iteration of the outer loop either leaves it or goes round. *)
Inductive step_result : Type :=
| Done (x : Z) (d : Drw) (err : list string) (r : option run)
| Continue (st : fit_state) (r : option run).

Section Code.

Context `{XftLib}.

(** The capacity DRW_FONT_CACHE_SIZE of drw.h, which is not part of the
    sources at hand. *)
Variable DRW_FONT_CACHE_SIZE : nat.

(** [drw_create], when [calloc] gives memory: every field is zero. *)
Definition drw_create : Drw :=
  {| fontcount := 0;
     fonts := replicate DRW_FONT_CACHE_SIZE None;
     scheme := None |}.

(** [drw_setscheme]; a NULL scheme changes nothing. *)
Definition drw_setscheme (d : Drw) (scm : option Scm) : Drw :=
  match scm with
  | Some s =>
      {| fontcount := fontcount d; fonts := fonts d; scheme := Some s |}
  | None => d
  end.

(** [drw->fonts[i]] followed through: a read outside the array or
    through a NULL pointer is a fault. *)
Definition font_at (d : Drw) (i : nat) : outcome Fnt :=
  match fonts d !! i with
  | Some (Some f) => Ret f
  | _ => Fault
  end.

(** [drw->fonts[drw->fontcount++] = font]. *)
Definition cache_push (d : Drw) (f : Fnt) : outcome Drw :=
  if fontcount d <? length (fonts d)
  then Ret {| fontcount := S (fontcount d);
              fonts := <[fontcount d := Some f]> (fonts d);
              scheme := scheme d |}
  else Fault.

Definition font_of (xf : XftFont) (pat : option FcPattern) : Fnt :=
  {| ascent := xascent xf;
     descent := xdescent xf;
     h := uint (xascent xf + xdescent xf);
     xfont := xf;
     pattern := pat |}.

(** The line that [drw_font_xcreate] prints for a name that does not
    load. *)
Definition cannot_load (fontname : string) : string :=
  String.append "error, cannot load font: '" (String.append fontname "'").

(** [drw_font_xcreate], when [calloc] gives memory: the font, or NULL,
    and what it printed.  As for [drw_create], the allocation (line 108)
    is taken to succeed; the return of line 109, NULL without a line on
    stderr when there is no memory, is left out, so that here every NULL
    comes with the line that says why. *)
Definition drw_font_xcreate (d : Drw) (fontname : option string)
    (fontpattern : option FcPattern) : outcome (option Fnt * list string) :=
  match fontname, fontpattern with
  | None, None => Die "No font specified." d
  | Some name, _ =>
      match XftFontOpenName name with
      | Some xf =>
          match FcNameParse name with
          | Some pat => Ret (Some (font_of xf (Some pat)), [])
          | None => Ret (None, [cannot_load name])
          end
      | None => Ret (None, [cannot_load name])
      end
  | None, Some pat =>
      match XftFontOpenPattern pat with
      | Some xf => Ret (Some (font_of xf None), [])
      | None => Ret (None, ["error, cannot load font pattern."%string])
      end
  end.

(** [drw_font_create]. *)
Definition drw_font_create (d : Drw) (fontname : option string)
    : outcome (option Fnt * list string) :=
  drw_font_xcreate d fontname None.

(** [drw_load_fonts]: the surface afterwards and the lines printed, for
    a batch that returns.  For a batch that ends in [die] the outcome
    holds the surface at that point and the message of [die]; the lines
    that the names before had printed are not part of it. *)
Fixpoint drw_load_fonts (d : Drw) (names : list (option string))
    : outcome (Drw * list string) :=
  match names with
  | [] => Ret (d, [])
  | name :: rest =>
      if DRW_FONT_CACHE_SIZE <=? fontcount d then Die "Font cache exhausted." d
      else
        '(font, msgs) <- drw_font_xcreate d name None ;;
        d' <- match font with
              | Some f => cache_push d f
              | None => Ret d
              end ;;
        '(d'', msgs') <- drw_load_fonts d' rest ;;
        Ret (d'', msgs ++ msgs')
  end.

(** [drw_font_getexts] as [drw_text] calls it (font and text are there,
    the height is not asked for): the new value of [*w]. *)
Definition drw_font_getexts (font : Fnt) (text : list Z) (len : nat) : Z :=
  uint (XftTextExtentsUtf8 (xfont font) text len).

(** [*text] as a condition. *)
Definition nonnul (text : list Z) : bool :=
  match text with
  | [] => false
  | c :: _ => negb (c =? 0)%Z
  end.

(** The loop over the cache (lines 265-276); [n] counts the slots left. *)
Fixpoint font_loop (d : Drw) (curfont : nat) (codepoint : Z)
    (n i : nat) (charexists : bool) : outcome (bool * pick) :=
  match n with
  | O => Ret (charexists, PickNone)
  | S n' =>
      charexists' <- (if charexists then Ret true
                      else f <- font_at d i ;;
                           Ret (XftCharExists (xfont f) codepoint)) ;;
      if charexists'
      then Ret (true, if i =? curfont then PickCur else PickNext i)
      else font_loop d curfont codepoint n' (S i) charexists'
  end.

(** The scan of one run (lines 263-283): the text pointer, utf8strlen,
    nextfont, charexists and the codepoint when the loop is left. *)
Fixpoint scan (d : Drw) (curfont : nat) (n : nat) (text : list Z)
    (utf8strlen : nat) (charexists : bool) (codepoint : Z)
    : outcome (list Z * nat * option nat * bool * Z) :=
  match n with
  | O => Ret (text, utf8strlen, None, charexists, codepoint)
  | S n' =>
      if nonnul text then
        let '(codepoint', utf8charlen) := utf8decode text UTF_SIZ in
        '(charexists', p) <-
          font_loop d curfont codepoint' (fontcount d) 0 charexists ;;
        match p with
        | PickCur =>
            scan d curfont n' (skipn utf8charlen text)
              (utf8strlen + utf8charlen) false codepoint'
        | PickNext i => Ret (text, utf8strlen, Some i, charexists', codepoint')
        | PickNone => Ret (text, utf8strlen, None, charexists', codepoint')
        end
      else Ret (text, utf8strlen, None, charexists, codepoint)
  end.

(** The condition of the shortening loop. *)
Definition over_budget (ew w h0 : Z) : bool :=
  (ew >? uint (w - h0))%Z || (w <? h0)%Z.

(** The shortening loop (lines 288-289). *)
Fixpoint shorten (font : Fnt) (h0 w : Z) (utf8str : list Z)
    (len : nat) (ew : Z) : nat * Z :=
  match len with
  | O => (O, ew)
  | S len' =>
      if over_budget ew w h0
      then shorten font h0 w utf8str len' (drw_font_getexts font utf8str len)
      else (len, ew)
  end.

(** The loop that writes the periods (line 295), with [len - 3]
    computed in [size_t]. *)
Fixpoint ellipsis (i len : nat) (buf : list Z) : list Z :=
  match i with
  | O => buf
  | S i' =>
      if (Z.of_nat i >? size_t (Z.of_nat len - 3))%Z
      then ellipsis i' len (<[i' := 46%Z]> buf)
      else buf
  end.

(** What is left in [buf[0..len)]. *)
Definition fill_buf (utf8str : list Z) (utf8strlen len : nat) : list Z :=
  let buf := firstn len utf8str in
  if len <? utf8strlen then ellipsis len len buf else buf.

(** The closing of a run (lines 285-307): the new x and w and the run. *)
Definition fit (d : Drw) (curfont : nat) (render : bool) (x y w hh : Z)
    (utf8str : list Z) (utf8strlen : nat) : outcome (Z * Z * option run) :=
  if utf8strlen =? 0 then Ret (x, w, None)
  else
    font <- font_at d curfont ;;
    font0 <- font_at d 0 ;;
    let ew0 := drw_font_getexts font utf8str utf8strlen in
    let '(len, ew) :=
      shorten font (h font0) w utf8str (MIN utf8strlen 1023) ew0 in
    if len =? 0 then
      Ret (x, w,
           Some {| run_font := curfont; run_str := utf8str;
                   run_strlen := utf8strlen; run_full := ew0;
                   run_len := O; run_ew := ew; run_buf := [];
                   run_draw := None |})
    else
      let th := sint (ascent font + descent font) in
      let ty := sint (y + hh / 2 - Z.quot th 2 + ascent font) in
      let tx := sint (x + hh / 2) in
      Ret (sint (x + ew), uint (w - ew),
           Some {| run_font := curfont; run_str := utf8str;
                   run_strlen := utf8strlen; run_full := ew0;
                   run_len := len; run_ew := ew;
                   run_buf := fill_buf utf8str utf8strlen len;
                   run_draw := if render then Some (tx, ty) else None |}).

(** The search for a fallback font (lines 314-356) after the assignment
    to charexists: the surface, curfont and what was printed. *)
Definition fallback (d : Drw) (curfont : nat) (codepoint : Z)
    : outcome (Drw * nat * list string) :=
  if DRW_FONT_CACHE_SIZE <=? fontcount d then Ret (d, curfont, [])
  else
    font0 <- font_at d 0 ;;
    match pattern font0 with
    | None =>
        Die "The first font in the cache must be loaded from a font string." d
    | Some template =>
        match XftFontMatch template codepoint with
        | None => Ret (d, curfont, [])
        | Some m =>
            '(created, msgs) <- drw_font_xcreate d None (Some m) ;;
            match created with
            | Some f =>
                if XftCharExists (xfont f) codepoint
                then d' <- cache_push d f ;; Ret (d', fontcount d, msgs)
                else Ret (d, O, msgs)
            | None => Ret (d, O, msgs)
            end
        end
    end.

(** One iteration of the outer loop (lines 259-357). *)
Definition step (render : bool) (y hh : Z) (st : fit_state)
    : outcome step_result :=
  let d := st_drw st in
  let utf8str := st_text st in
  '(text, utf8strlen, nextfont, charexists, codepoint) <-
    scan d (st_curfont st) (S (length (st_text st))) (st_text st) 0
      (st_charexists st) (st_codepoint st) ;;
  '(x, w, r) <-
    fit d (st_curfont st) render (st_x st) y (st_w st) hh utf8str utf8strlen ;;
  if negb (nonnul text) then Ret (Done x d (st_err st) r)
  else
    match nextfont with
    | Some i =>
        Ret (Continue {| st_drw := d; st_text := text; st_curfont := i;
                         st_charexists := false; st_codepoint := codepoint;
                         st_x := x; st_w := w; st_err := st_err st |} r)
    | None =>
        '(d', curfont, msgs) <- fallback d (st_curfont st) codepoint ;;
        Ret (Continue {| st_drw := d'; st_text := text; st_curfont := curfont;
                         st_charexists := true; st_codepoint := codepoint;
                         st_x := x; st_w := w;
                         st_err := st_err st ++ msgs |} r)
    end.

Definition add_run (r : option run) (rs : list run) : list run :=
  match r with
  | Some r => r :: rs
  | None => rs
  end.

(** The outer loop, for at most [fuel] iterations; [None] when they do
    not suffice. *)
Fixpoint text_loop (render : bool) (y hh : Z) (fuel : nat) (st : fit_state)
    : option (outcome (Z * Drw * list string * list run)) :=
  match fuel with
  | O => None
  | S fuel' =>
      match step render y hh st with
      | Ret (Done x d err r) => Some (Ret (x, d, err, add_run r []))
      | Ret (Continue st' r) =>
          match text_loop render y hh fuel' st' with
          | Some (Ret (x, d, err, rs)) => Some (Ret (x, d, err, add_run r rs))
          | other => other
          end
      | Die msg d => Some (Die msg d)
      | Fault => Some Fault
      end
  end.

(** Iterations that always suffice: the variant of the loop starts below
    this number and every iteration lowers it. *)
Definition text_fuel (text : list Z) : nat := 6 * length text + 6.

(** [render = x || y || w || h] (line 239). *)
Definition rendering (x y w hh : Z) : bool :=
  negb (x =? 0)%Z || negb (y =? 0)%Z || negb (w =? 0)%Z || negb (hh =? 0)%Z.

(** The width budget after lines 239-241: [w], or [~w] when measuring. *)
Definition budget (x y w hh : Z) : Z :=
  if rendering x y w hh then w else uint (Z.lnot w).

(** [drw_text]: a NULL [drw] or [text] is [None]. *)
Definition drw_text (drw : option Drw) (x y w hh : Z) (text : option (list Z))
    (invert : bool) : option (outcome text_result) :=
  let render := rendering x y w hh in
  let w := budget x y w hh in
  let quit fill :=
    Some (Ret {| res_x := 0%Z; res_drw := drw; res_fill := fill;
                 res_runs := []; res_err := [] |}) in
  match drw with
  | None => quit None
  | Some d =>
      match scheme d with
      | None => quit None
      | Some _ =>
          let fill := if render then Some (x, y, w, hh) else None in
          match text with
          | None => quit fill
          | Some text =>
              if fontcount d =? 0 then quit fill
              else
                match
                  text_loop render y hh (text_fuel text)
                    {| st_drw := d; st_text := text; st_curfont := 0;
                       st_charexists := false; st_codepoint := 0%Z;
                       st_x := x; st_w := w; st_err := [] |}
                with
                | Some (Ret (x', d', err, rs)) =>
                    Some (Ret {| res_x := x'; res_drw := Some d';
                                 res_fill := fill; res_runs := rs;
                                 res_err := err |})
                | Some (Die msg d') => Some (Die msg d')
                | Some Fault => Some Fault
                | None => None
                end
          end
      end
  end.

(** The calls to Xlib, Xft and fontconfig that [drw_rect], [drw_free]
    and [drw_font_free] make, in the order they make them. *)
Inductive xcall : Type :=
| XSetForeground (pixel : Z)
| XFillRectangle (x y width height : Z)
| XDrawRectangle (x y width height : Z)
| FcPatternDestroy (p : FcPattern)
| XftFontClose (xf : XftFont)
| XFreePixmap
| XFreeGC.

(** [drw_rect]: the flags are taken as conditions; [dx] is computed in
    int and handed over as an unsigned int. *)
Definition drw_rect (drw : option Drw) (x y w hh : Z)
    (filled empty invert : bool) : outcome (list xcall) :=
  match drw with
  | None => Ret []
  | Some d =>
      if fontcount d =? 0 then Ret []
      else
        match scheme d with
        | None => Ret []
        | Some scm =>
            font0 <- font_at d 0 ;;
            let dx := Z.quot (sint (ascent font0 + descent font0 + 2)) 4 in
            Ret (XSetForeground (if invert then bg scm else fg scm)
                 :: (if filled
                     then [XFillRectangle (sint (x + 1)) (sint (y + 1))
                             (uint (dx + 1)) (uint (dx + 1))]
                     else if empty
                     then [XDrawRectangle (sint (x + 1)) (sint (y + 1))
                             (uint dx) (uint dx)]
                     else []))
        end
  end.

(** [drw_font_free]; a NULL font is let be. *)
Definition drw_font_free (font : option Fnt) : list xcall :=
  match font with
  | None => []
  | Some f =>
      match pattern f with
      | Some p => [FcPatternDestroy p]
      | None => []
      end ++ [XftFontClose (xfont f)]
  end.

(** The loop of [drw_free] over the slots [i .. i+n) of the cache; a
    read outside the array is a fault. *)
Fixpoint free_fonts (d : Drw) (n i : nat) : outcome (list xcall) :=
  match n with
  | O => Ret []
  | S n' =>
      match fonts d !! i with
      | Some font =>
          calls <- free_fonts d n' (S i) ;;
          Ret (drw_font_free font ++ calls)
      | None => Fault
      end
  end.

(** [drw_free]: it follows [drw] without looking at it, so that a NULL
    surface is a fault. *)
Definition drw_free (drw : option Drw) : outcome (list xcall) :=
  match drw with
  | None => Fault
  | Some d =>
      calls <- free_fonts d (fontcount d) 0 ;;
      Ret (calls ++ [XFreePixmap; XFreeGC])
  end.

End Code.

(** *** Invariants of the cache and of the loop *)

Section Invariants.

Context `{XftLib}.
Variable DRW_FONT_CACHE_SIZE : nat.

(** The field [h] of a font is an [unsigned int]. *)
Definition font_wf (f : Fnt) : Prop := (0 <= h f < 2 ^ 32)%Z.

(** The array has its declared size, the count stays inside it and the
    slots in use hold fonts. *)
Definition cache_wf (d : Drw) : Prop :=
  length (fonts d) = DRW_FONT_CACHE_SIZE /\
  fontcount d <= DRW_FONT_CACHE_SIZE /\
  forall i, i < fontcount d ->
    exists f, fonts d !! i = Some (Some f) /\ font_wf f.

(** The primary font was loaded from a font string: it has a template. *)
Definition primary_template (d : Drw) : Prop :=
  forall f, fonts d !! 0 = Some (Some f) -> pattern f <> None.

(** A surface in order: the cache is well formed and, once it holds a
    font, the primary font has its template. *)
Definition surface_ok (d : Drw) : Prop :=
  cache_wf d /\ (fontcount d <> 0 -> primary_template d).

(** The cache only grows: the slots in use are kept. *)
Definition cache_extends (d d' : Drw) : Prop :=
  fontcount d <= fontcount d' /\
  scheme d' = scheme d /\
  length (fonts d') = length (fonts d) /\
  forall i, i < fontcount d -> fonts d' !! i = fonts d !! i.

(** The first of the slots [i .. i+n) whose font has the glyph. *)
Fixpoint find_font (d : Drw) (codepoint : Z) (n i : nat) : option nat :=
  match n with
  | O => None
  | S n' =>
      match fonts d !! i with
      | Some (Some f) =>
          if XftCharExists (xfont f) codepoint then Some i
          else find_font d codepoint n' (S i)
      | _ => None
      end
  end.

Definition found (d : Drw) (codepoint : Z) : option nat :=
  find_font d codepoint (fontcount d) 0.

(** The font that the loop over the cache settles on. *)
Definition hit (d : Drw) (charexists : bool) (cp : Z) : option nat :=
  if charexists then Some 0 else found d cp.

(** The codepoint at the head of the text. *)
Definition head_codepoint (text : list Z) : Z := fst (utf8decode text UTF_SIZ).

(** The line height of the primary font, the inset of the budget. *)
Definition primary_height (d : Drw) : Z :=
  match fonts d !! 0 with
  | Some (Some f0) => h f0
  | _ => 0%Z
  end.

(** The sum of the widths of the runs as first measured. *)
Definition total_width (rs : list run) : Z :=
  fold_right (fun r acc => (run_full r + acc)%Z) 0%Z rs.

(** What holds of every run the fitter closes. *)
Definition run_shape (r : run) : Prop :=
  0 < run_strlen r <= length (run_str r) /\
  (0 <= run_full r < 2 ^ 32)%Z /\
  run_len r <= MIN (run_strlen r) 1023 /\
  ((run_len r = 0 /\ run_buf r = []) \/
   (0 < run_len r /\
    run_buf r = fill_buf (run_str r) (run_strlen r) (run_len r))).

(** The loop invariant of [drw_text]. *)
Definition state_ok (st : fit_state) : Prop :=
  cache_wf (st_drw st) /\
  0 < fontcount (st_drw st) /\
  st_curfont st < fontcount (st_drw st).

(** What the search for a fallback font can do. *)
Inductive fallback_case (d : Drw) (cur : nat) (cp : Z) : Drw -> nat -> Prop :=
| fallback_kept : fallback_case d cur cp d cur
| fallback_primary : fallback_case d cur cp d 0
| fallback_new d' f :
    fontcount d < DRW_FONT_CACHE_SIZE -> font_wf f ->
    cache_push d f = Ret d' ->
    XftCharExists (xfont f) cp = true ->
    fallback_case d cur cp d' (fontcount d).

(** A state of the loop, field by field. *)
Definition mk_state (d : Drw) (text : list Z) (cur : nat) (ce : bool)
    (cp x w : Z) (err : list string) : fit_state :=
  {| st_drw := d; st_text := text; st_curfont := cur; st_charexists := ce;
     st_codepoint := cp; st_x := x; st_w := w; st_err := err |}.

(** Whenever the loop, started in [st], comes to an end, the first run
    it closed is a run of font [k] that starts at the head of the text
    of [st] and holds its first character. *)
Definition first_run_of (render : bool) (y hh : Z) (st : fit_state) (k : nat)
    : Prop :=
  forall fuel x d err rs,
    text_loop DRW_FONT_CACHE_SIZE render y hh fuel st
    = Some (Ret (x, d, err, rs)) ->
    exists r rs',
      rs = r :: rs' /\ run_font r = k /\ run_str r = st_text st /\
      snd (utf8decode (st_text st) UTF_SIZ) <= run_strlen r.

(** The loop, started in [st], comes to an end, and the character at
    the head of the text goes to a run of font [k]. *)
Definition takes_head (render : bool) (y hh : Z) (st : fit_state) (k : nat)
    : Prop :=
  (exists fuel res,
     text_loop DRW_FONT_CACHE_SIZE render y hh fuel st = Some (Ret res)) /\
  first_run_of render y hh st k.

(** How many iterations of the outer loop can still pass before a byte
    of the text is taken. *)
Definition phase (st : fit_state) : nat :=
  let cached := found (st_drw st) (head_codepoint (st_text st)) in
  if st_charexists st then
    if st_curfont st =? 0 then 0
    else match cached with Some _ => 2 | None => 4 end
  else
    match cached with
    | Some i => if i =? st_curfont st then 0 else 1
    | None => if st_curfont st =? 0 then 3 else 5
    end.

(** The variant of the outer loop. *)
Definition variant (st : fit_state) : nat :=
  6 * length (st_text st) + phase st.

(** The font that a font string yields when it loads: the font opened
    under the name, with the pattern parsed from the name. *)
Definition named_font (name : string) : option Fnt :=
  match XftFontOpenName name with
  | Some xf =>
      match FcNameParse name with
      | Some pat => Some (font_of xf (Some pat))
      | None => None
      end
  | None => None
  end.

(** The names of a batch that do not load. *)
Definition unloadable (names : list string) : list string :=
  List.filter
    (fun name => match named_font name with Some _ => false | None => true end)
    names.

(** The surfaces a client can arrive at: it creates one, loads fonts,
    sets schemes and fits texts, in any order. *)
Inductive api_surface : Drw -> Prop :=
| api_create : api_surface (drw_create DRW_FONT_CACHE_SIZE)
| api_load d names d' msgs :
    api_surface d ->
    drw_load_fonts DRW_FONT_CACHE_SIZE d names = Ret (d', msgs) ->
    api_surface d'
| api_setscheme d scm : api_surface d -> api_surface (drw_setscheme d scm)
| api_text d x y w hh text invert r d' :
    api_surface d ->
    drw_text DRW_FONT_CACHE_SIZE (Some d) x y w hh text invert = Some (Ret r) ->
    res_drw r = Some d' ->
    api_surface d'.

(** The bytes of a C string: those before its first NUL. *)
Fixpoint c_string (text : list Z) : list Z :=
  match text with
  | [] => []
  | c :: rest => if (c =? 0)%Z then [] else c :: c_string rest
  end.

(** The bytes of the text that a run stands for. *)
Definition run_text (r : run) : list Z := take (run_strlen r) (run_str r).

(** The widths that the runs have added to x: a run of which nothing
    was kept adds nothing. *)
Definition kept_width (rs : list run) : Z :=
  fold_right
    (fun r acc => ((if (run_len r =? 0)%nat then 0 else run_ew r) + acc)%Z) 0%Z rs.

(** [tail_of text t]: [t] is what is left of [text] behind some of its
    characters, taken one by one as the scan decodes them. *)
Inductive tail_of (text : list Z) : list Z -> Prop :=
| tail_all : tail_of text text
| tail_step t :
    tail_of text t -> nonnul t = true ->
    tail_of text (skipn (snd (utf8decode t UTF_SIZ)) t).

(** Every character of the text has its glyph in a font of the cache. *)
Definition covered (d : Drw) (text : list Z) : Prop :=
  forall t, tail_of text t -> nonnul t = true ->
    found d (head_codepoint t) <> None.

(** A run holds whole characters of the text. *)
Definition whole_chars (text : list Z) (run : run) : Prop :=
  0 < run_strlen run /\
  tail_of text (run_str run) /\
  tail_of (run_str run) (skipn (run_strlen run) (run_str run)).

(** The one line that [drw_text] can print. *)
Definition no_pattern_msg : string := "error, cannot load font pattern.".

(** Slot [i] of the cache holds a font without a template that has the
    glyph of a character of the text. *)
Definition fetched_for (text : list Z) (d : Drw) (i : nat) : Prop :=
  exists f t,
    fonts d !! i = Some (Some f) /\ pattern f = None /\
    tail_of text t /\ nonnul t = true /\
    XftCharExists (xfont f) (head_codepoint t) = true.

(** The fonts that a list of calls closes and the patterns it
    destroys. *)
Definition closed (calls : list xcall) : list XftFont :=
  omap (fun c => match c with XftFontClose xf => Some xf | _ => None end) calls.

Definition destroyed (calls : list xcall) : list FcPattern :=
  omap (fun c => match c with FcPatternDestroy p => Some p | _ => None end) calls.

(** The fonts in the slots in use. *)
Definition cached_fonts (d : Drw) : list Fnt :=
  omap id (take (fontcount d) (fonts d)).

(** The one message with which [drw_text] ends the process. *)
Definition no_template_msg : string :=
  "The first font in the cache must be loaded from a font string.".

(** The cache has nothing more to fetch for a codepoint: a font of the
    cache has its glyph, or the search for a fallback font returns with
    the cache as it is, from whatever font it is entered. *)
Definition settled_at (d : Drw) (cp : Z) : Prop :=
  found d cp <> None \/
  forall cur, exists cur' msgs,
    fallback DRW_FONT_CACHE_SIZE d cur cp = Ret (d, cur', msgs).

End Invariants.

End Drw.

Import Drw.

(** ** A small world to run the code in *)

Module Demo.

(** Face 0 covers ASCII, face 1 Greek, face 2 the snowman U+2603 alone,
    face 5 ASCII with advances that run to the left; any other face
    covers nothing. *)
Definition face (n : nat) : XftFont :=
  {| xid := n; xascent := 15%Z; xdescent := 5%Z |}.

Definition covers (f : XftFont) (cp : Z) : bool :=
  match xid f with
  | 0 => (cp <? 128)%Z
  | 1 => (0x370 <=? cp)%Z && (cp <=? 0x3FF)%Z
  | 2 => (cp =? 0x2603)%Z
  | 5 => (cp <? 128)%Z
  | _ => false
  end.

(** Ten pixels a byte, as far as a [short] goes. *)
Definition advance (f : XftFont) (len : nat) : Z :=
  if xid f =? 5 then Z.max (- 10 * Z.of_nat len) (- 32768)
  else Z.min (10 * Z.of_nat len) 32767.

(** The matcher finds face 2 for the snowman and, wrongly, face 3 for
    the euro sign; it finds nothing for anything else. *)
Definition xft : XftLib := {|
  XftFontOpenName name :=
    if String.eqb name "mono" then Some (face 0)
    else if String.eqb name "greek" then Some (face 1)
    else if String.eqb name "mirror" then Some (face 5)
    else None;
  FcNameParse name := Some (String.length name);
  XftFontOpenPattern p :=
    match p with
    | 7 => Some (face 2)
    | 8 => Some (face 3)
    | _ => None
    end;
  XftCharExists := covers;
  XftTextExtentsUtf8 f text len := advance f len;
  XftFontMatch template cp :=
    if (cp =? 0x2603)%Z then Some 7
    else if (cp =? 0x20AC)%Z then Some 8
    else None
|}.

Definition mono : Fnt := @font_of (face 0) (Some 4).
Definition greek : Fnt := @font_of (face 1) (Some 5).
Definition mirror : Fnt := @font_of (face 5) (Some 6).
Definition scm : Scm := {| fg := 1%Z; bg := 0%Z |}.

(** A cache of capacity 2 with both slots in use. *)
Definition full2 : Drw :=
  {| fontcount := 2; fonts := [Some mono; Some greek]; scheme := Some scm |}.

(** A cache of capacity 3 with one slot left. *)
Definition room3 : Drw :=
  {| fontcount := 2; fonts := [Some mono; Some greek; None];
     scheme := Some scm |}.

(** A cache of capacity 1 that holds the face with leftward advances. *)
Definition mirror1 : Drw :=
  {| fontcount := 1; fonts := [Some mirror]; scheme := Some scm |}.

(** A cache of capacity 1 that holds the ASCII face. *)
Definition mono1 : Drw :=
  {| fontcount := 1; fonts := [Some mono]; scheme := Some scm |}.

Definition beta : list Z := [0xCE; 0xB2]%Z.
Definition snowman : list Z := [0xE2; 0x98; 0x83]%Z.
Definition euro : list Z := [0xE2; 0x82; 0xAC]%Z.
Definition yen : list Z := [0xC2; 0xA5]%Z.
Definition hello : list Z := [0x68; 0x65; 0x6C; 0x6C; 0x6F]%Z.

(** A cache of capacity 2 whose only font was made from a pattern: it
    carries no template. *)
Definition bare2 : Drw :=
  {| fontcount := 1; fonts := [Some (@font_of (face 0) None); None];
     scheme := Some scm |}.


End Demo.

(** * Facts about the codec *)

Section Codec.
Local Open Scope Z_scope.

Lemma BETWEEN_true x a b : BETWEEN x a b = true <-> a <= x <= b.
Proof. unfold BETWEEN. rewrite andb_true_iff, !Z.leb_le. tauto. Qed.

Lemma BETWEEN_false x a b : BETWEEN x a b = false <-> x < a \/ b < x.
Proof. unfold BETWEEN. rewrite andb_false_iff, !Z.leb_gt. tauto. Qed.

Lemma utf8decode_loop_inl n c clen len u i j r :
  utf8decode_loop n c clen len u i j = inl r -> (j <= r < len)%nat.
Proof.
  revert u i j. induction n as [|n IH]; intros u i j; simpl; [discriminate|].
  destruct (i <? clen)%nat eqn:Hi; simpl; [|discriminate].
  destruct (j <? len)%nat eqn:Hj; simpl; [|discriminate].
  apply Nat.ltb_lt in Hj.
  destruct (utf8decodebyte (nth i c 0)) as [bits type].
  destruct (type =? 0)%nat; simpl.
  - intros Hr. apply IH in Hr. lia.
  - intros [= <-]. lia.
Qed.

Lemma utf8decode_loop_inr_le n c clen len u j u' r :
  utf8decode_loop n c clen len u j j = inr (u', r) ->
  (j <= clen)%nat -> (r <= clen)%nat.
Proof.
  revert u j. induction n as [|n IH]; intros u j; simpl.
  - intros [= _ <-]. trivial.
  - destruct (j <? clen)%nat eqn:Hi; simpl.
    + apply Nat.ltb_lt in Hi.
      destruct (j <? len)%nat; [|intros [= _ <-]; trivial].
      destruct (utf8decodebyte (nth j c 0)) as [bits type].
      destruct (type =? 0)%nat; simpl; [|discriminate].
      intros Hr _. apply IH in Hr; lia.
    + intros [= _ <-]. trivial.
Qed.

Lemma utf8decode_loop_inr_exit n c clen len u j u' r :
  utf8decode_loop n c clen len u j j = inr (u', r) ->
  (len <= r \/ clen <= r \/ r = j + n)%nat.
Proof.
  revert u j. induction n as [|n IH]; intros u j; simpl.
  - intros [= _ <-]. lia.
  - destruct (j <? clen)%nat eqn:Hi; simpl.
    + destruct (j <? len)%nat eqn:Hj.
      * destruct (utf8decodebyte (nth j c 0)) as [bits type].
        destruct (type =? 0)%nat; simpl; [|discriminate].
        intros Hr. apply IH in Hr. lia.
      * apply Nat.ltb_ge in Hj. intros [= _ <-]. lia.
    + apply Nat.ltb_ge in Hi. intros [= _ <-]. lia.
Qed.

(** With all continuation bytes in place the loop collects the scalar. *)
Lemma utf8decode_loop_full c clen len :
  (1 <= len <= UTF_SIZ)%nat -> (len <= clen)%nat ->
  (forall i, (1 <= i < len)%nat -> is_continuation (nth i c 0)) ->
  utf8decode_loop UTF_SIZ c clen len (fst (utf8decodebyte (nth 0 c 0))) 1 1
  = inr (utf8_scalar c len, len).
Proof.
  unfold UTF_SIZ, is_continuation. intros Hlen Hclen Hcont.
  assert (Hlt : forall i, (i < len)%nat -> (i <? clen)%nat = true)
    by (intros; apply Nat.ltb_lt; lia).
  destruct len as [|[|[|[|[|len]]]]]; try lia; unfold utf8_scalar; simpl.
  - rewrite andb_false_r. reflexivity.
  - rewrite (Hlt 1%nat) by lia. simpl.
    pose proof (Hcont 1%nat ltac:(lia)) as H1.
    destruct (utf8decodebyte (nth 1 c 0)) as [b1 t1]. simpl in *. subst t1. simpl.
    rewrite andb_false_r. reflexivity.
  - rewrite (Hlt 1%nat), (Hlt 2%nat) by lia. simpl.
    pose proof (Hcont 1%nat ltac:(lia)) as H1.
    pose proof (Hcont 2%nat ltac:(lia)) as H2.
    destruct (utf8decodebyte (nth 1 c 0)) as [b1 t1].
    destruct (utf8decodebyte (nth 2 c 0)) as [b2 t2]. simpl in *. subst. simpl.
    rewrite andb_false_r. reflexivity.
  - rewrite (Hlt 1%nat), (Hlt 2%nat), (Hlt 3%nat) by lia. simpl.
    pose proof (Hcont 1%nat ltac:(lia)) as H1.
    pose proof (Hcont 2%nat ltac:(lia)) as H2.
    pose proof (Hcont 3%nat ltac:(lia)) as H3.
    destruct (utf8decodebyte (nth 1 c 0)) as [b1 t1].
    destruct (utf8decodebyte (nth 2 c 0)) as [b2 t2].
    destruct (utf8decodebyte (nth 3 c 0)) as [b3 t3]. simpl in *. subst. simpl.
    rewrite andb_false_r. reflexivity.
Qed.

Lemma BETWEEN_len len :
  (1 <= len <= UTF_SIZ)%nat -> BETWEEN (Z.of_nat len) 1 (Z.of_nat UTF_SIZ) = true.
Proof. intros. apply BETWEEN_true. unfold UTF_SIZ in *. lia. Qed.

(** C6.  When the lead byte announces a sequence of [n] bytes (1 to 4)
    and [clen], the number of bytes that may be read, is smaller than [n],
    [utf8decode] returns a count smaller than [n] - the place of a byte
    that is no continuation byte, or 0 when the bytes ran out - and
    leaves the replacement value in [*u]: it claims no decoded scalar. *)
Theorem utf8decode_needs_more_input c clen :
  (1 <= utf8_announced c <= UTF_SIZ)%nat ->
  (clen < utf8_announced c)%nat ->
  (snd (utf8decode c clen) < utf8_announced c)%nat /\
  fst (utf8decode c clen) = UTF_INVALID.
Proof.
  unfold utf8_announced, utf8decode. intros Hlen Hclen.
  destruct (utf8decodebyte (nth 0 c 0)) as [u0 len]. cbn [fst snd] in *.
  destruct (clen =? 0)%nat eqn:H0; [cbn [fst snd]; split; [lia|reflexivity]|].
  apply Nat.eqb_neq in H0.
  rewrite BETWEEN_len by assumption. cbn [negb].
  destruct (utf8decode_loop UTF_SIZ c clen len u0 1 1) as [r|[u' r]] eqn:Hloop.
  - apply utf8decode_loop_inl in Hloop. cbn [fst snd]. split; [lia|reflexivity].
  - apply utf8decode_loop_inr_le in Hloop; [|lia].
    assert (Hr : (r <? len)%nat = true) by (apply Nat.ltb_lt; lia).
    rewrite Hr. cbn [fst snd]. split; [lia|reflexivity].
Qed.

(** C7.  When all [n] bytes of the announced sequence are there (the
    lead byte and [n - 1] continuation bytes within [clen]) and the scalar
    they spell is outside the range of an [n]-byte sequence or is a
    surrogate (0xD800-0xDFFF), [utf8decode] leaves the replacement value
    0xFFFD in [*u] and still returns [n], so that the caller steps over
    the whole sequence. *)
Theorem utf8decode_invalid_scalar c clen :
  (1 <= utf8_announced c <= UTF_SIZ)%nat ->
  (utf8_announced c <= clen)%nat ->
  (forall i, (1 <= i < utf8_announced c)%nat -> is_continuation (nth i c 0)) ->
  BETWEEN (utf8_scalar c (utf8_announced c))
    (utfmin (utf8_announced c)) (utfmax (utf8_announced c)) = false \/
  BETWEEN (utf8_scalar c (utf8_announced c)) 0xD800 0xDFFF = true ->
  utf8decode c clen = (UTF_INVALID, utf8_announced c).
Proof.
  intros Hlen Hclen Hcont Hbad.
  pose proof (utf8decode_loop_full c clen _ Hlen Hclen Hcont) as Hloop.
  unfold utf8decode. unfold utf8_announced in *.
  destruct (clen =? 0)%nat eqn:H0; [apply Nat.eqb_eq in H0; lia|].
  destruct (utf8decodebyte (nth 0 c 0)) as [u0 len]. cbn [fst snd] in *.
  rewrite BETWEEN_len by assumption. cbn [negb]. rewrite Hloop.
  rewrite Nat.ltb_irrefl. unfold utf8validate. cbn [fst].
  destruct Hbad as [-> | ->]; cbn [negb orb]; [reflexivity|].
  rewrite orb_true_r. reflexivity.
Qed.

(** The scan of drw_text decodes with clen = UTF_SIZ: every call
    consumes at least one byte and never more than the text holds. *)
Lemma utf8decode_progress c :
  (1 <= snd (utf8decode c UTF_SIZ) <= UTF_SIZ)%nat.
Proof.
  unfold utf8decode. change (UTF_SIZ =? 0)%nat with false. cbv iota.
  destruct (utf8decodebyte (nth 0 c 0)) as [u0 len].
  destruct (BETWEEN (Z.of_nat len) 1 (Z.of_nat UTF_SIZ)) eqn:Hb; cbn [negb snd];
    [|unfold UTF_SIZ; lia].
  apply BETWEEN_true in Hb.
  destruct (utf8decode_loop UTF_SIZ c UTF_SIZ len u0 1 1) as [r|[u' r]] eqn:Hloop.
  - apply utf8decode_loop_inl in Hloop. cbn [snd]. unfold UTF_SIZ in *. lia.
  - apply utf8decode_loop_inr_exit in Hloop.
    assert (Hr : (r <? len)%nat = false) by (apply Nat.ltb_ge; unfold UTF_SIZ in *; lia).
    rewrite Hr. cbn [snd]. unfold UTF_SIZ in *. lia.
Qed.

Lemma utf8decodebyte_nul : utf8decodebyte 0 = (0, 1%nat).
Proof. reflexivity. Qed.

Lemma utf8decode_loop_within n c clen len u j :
  (j <= length c)%nat ->
  match utf8decode_loop n c clen len u j j with
  | inl r => (r <= length c)%nat
  | inr (_, r) => (r <= length c)%nat
  end.
Proof.
  revert u j. induction n as [|n IH]; intros u j Hj; simpl; [assumption|].
  destruct ((j <? clen)%nat && (j <? len)%nat); [|assumption].
  destruct (utf8decodebyte (nth j c 0)) as [bits type] eqn:Hb.
  destruct (type =? 0)%nat eqn:Ht; simpl; [|assumption].
  apply IH. apply Nat.eqb_eq in Ht. subst type.
  destruct (Nat.lt_ge_cases j (length c)) as [Hlt|Hge]; [lia|].
  rewrite nth_overflow, utf8decodebyte_nul in Hb by assumption. discriminate.
Qed.

(** The examples of the design document. *)
Example utf8decode_A : utf8decode [0x41] 4 = (0x41, 1%nat).
Proof. reflexivity. Qed.

Example utf8decode_euro : utf8decode [0xE2; 0x82; 0xAC] 4 = (0x20AC, 3%nat).
Proof. reflexivity. Qed.

Example utf8decode_truncated_euro :
  utf8decode [0xE2; 0x82] 2 = (UTF_INVALID, 0%nat).
Proof. reflexivity. Qed.

Example utf8decode_overlong : utf8decode [0xC0; 0x80] 4 = (UTF_INVALID, 2%nat).
Proof. reflexivity. Qed.

Example utf8decode_beyond_unicode :
  utf8decode [0xF4; 0x90; 0x80; 0x80] 4 = (UTF_INVALID, 4%nat).
Proof. reflexivity. Qed.

End Codec.

(** * Facts about the font cache *)

Section CacheFacts.

Context `{XftLib}.
Variable CAP : nat.

Lemma font_at_ok d i :
  cache_wf CAP d -> i < fontcount d ->
  exists f, font_at d i = Ret f /\ fonts d !! i = Some (Some f).
Proof.
  intros (_ & _ & Hslots) Hi. destruct (Hslots i Hi) as (f & Hf & _).
  exists f. unfold font_at. rewrite Hf. auto.
Qed.

Lemma font_at_wf d i f :
  cache_wf CAP d -> i < fontcount d -> fonts d !! i = Some (Some f) -> font_wf f.
Proof.
  intros (_ & _ & Hslots) Hi Hf. destruct (Hslots i Hi) as (g & Hg & Hwf).
  congruence.
Qed.

Lemma font_of_wf xf pat : font_wf (font_of xf pat).
Proof. unfold font_wf, font_of, uint. simpl. apply Z.mod_pos_bound. lia. Qed.

Lemma drw_font_xcreate_wf d name pat f msgs :
  drw_font_xcreate d name pat = Ret (Some f, msgs) -> font_wf f.
Proof.
  unfold drw_font_xcreate.
  destruct name as [name|], pat as [pat|];
    repeat (match goal with |- context [match ?x with _ => _ end] => destruct x end);
    try discriminate; intros [= <- _]; apply font_of_wf.
Qed.

Lemma cache_extends_refl d : cache_extends d d.
Proof. unfold cache_extends. auto. Qed.

Lemma cache_extends_trans d1 d2 d3 :
  cache_extends d1 d2 -> cache_extends d2 d3 -> cache_extends d1 d3.
Proof.
  intros (Hc1 & Hs1 & Hl1 & Hf1) (Hc2 & Hs2 & Hl2 & Hf2).
  repeat split; try congruence; try lia.
  intros i Hi. rewrite Hf2 by lia. auto.
Qed.

Lemma cache_push_ok d f :
  cache_wf CAP d -> fontcount d < CAP -> font_wf f ->
  exists d', cache_push d f = Ret d' /\
    cache_wf CAP d' /\ cache_extends d d' /\
    fontcount d' = S (fontcount d) /\
    fonts d' !! fontcount d = Some (Some f).
Proof.
  intros (Hlen & Hcnt & Hslots) Hlt Hf. unfold cache_push.
  assert (Hin : (fontcount d <? length (fonts d)) = true)
    by (apply Nat.ltb_lt; lia).
  rewrite Hin. eexists; split; [reflexivity|]. simpl.
  assert (Hnew : (<[fontcount d:=Some f]> (fonts d)) !! fontcount d = Some (Some f))
    by (apply list_lookup_insert_eq; lia).
  repeat split; simpl.
  - rewrite length_insert. exact Hlen.
  - lia.
  - intros i Hi. destruct (decide (i = fontcount d)) as [->|Hne].
    + eauto.
    + rewrite list_lookup_insert_ne by congruence. apply Hslots. lia.
  - lia.
  - apply length_insert.
  - intros i Hi. apply list_lookup_insert_ne. lia.
  - exact Hnew.
Qed.

Lemma drw_font_xcreate_no_fault d name pat :
  drw_font_xcreate d name pat <> Fault.
Proof.
  unfold drw_font_xcreate.
  destruct name as [name|], pat as [pat|]; try discriminate;
    repeat (match goal with |- context [match ?x with _ => _ end] => destruct x end);
    discriminate.
Qed.

Lemma drw_font_xcreate_die d name pat msg d' :
  drw_font_xcreate d name pat = Die msg d' -> d' = d /\ name = None /\ pat = None.
Proof.
  unfold drw_font_xcreate.
  destruct name as [name|], pat as [pat|];
    repeat (match goal with |- context [match ?x with _ => _ end] => destruct x end);
    try discriminate.
  intros [= _ <-]. auto.
Qed.

Lemma drw_load_fonts_inv names : forall d,
  cache_wf CAP d ->
  ends_in (fun d' => cache_wf CAP d' /\ cache_extends d d') fst
    (drw_load_fonts CAP d names).
Proof.
  induction names as [|name rest IH]; intros d Hwf; simpl.
  - split; [assumption|apply cache_extends_refl].
  - destruct (CAP <=? fontcount d) eqn:Hfull; simpl.
    + split; [assumption|apply cache_extends_refl].
    + apply Nat.leb_gt in Hfull.
      destruct (drw_font_xcreate d name None) as [[font msgs]|msg d0|] eqn:Hcreate; simpl.
      * destruct font as [f|]; simpl.
        -- destruct (cache_push_ok d f Hwf Hfull (drw_font_xcreate_wf _ _ _ _ _ Hcreate))
             as (d' & -> & Hwf' & Hext & _). simpl.
           specialize (IH d' Hwf').
           destruct (drw_load_fonts CAP d' rest) as [[d'' msgs']|msg d''|]; simpl in *;
             try (destruct IH; split; eauto using cache_extends_trans); auto.
        -- specialize (IH d Hwf).
           destruct (drw_load_fonts CAP d rest) as [[d'' msgs']|msg d''|]; simpl in *; auto.
      * apply drw_font_xcreate_die in Hcreate as (-> & _).
        split; [assumption|apply cache_extends_refl].
      * exact (drw_font_xcreate_no_fault _ _ _ Hcreate).
Qed.

End CacheFacts.

(** * Facts about the scan of a run *)

Section ScanFacts.

Context `{XftLib}.
Variable CAP : nat.

Local Arguments utf8decode : simpl never.

Lemma utf8decode_within c :
  c <> [] -> snd (utf8decode c UTF_SIZ) <= length c.
Proof.
  intros Hc. unfold utf8decode. change (UTF_SIZ =? 0) with false. cbv iota.
  assert (Hpos : 1 <= length c) by (destruct c; simpl; [congruence|lia]).
  destruct (utf8decodebyte (nth 0 c 0%Z)) as [u0 len].
  destruct (BETWEEN (Z.of_nat len) 1 (Z.of_nat UTF_SIZ)); cbn [negb snd]; [|lia].
  pose proof (utf8decode_loop_within UTF_SIZ c UTF_SIZ len u0 1 Hpos) as Hin.
  destruct (utf8decode_loop UTF_SIZ c UTF_SIZ len u0 1 1) as [r|[u' r]]; cbn [snd]; [lia|].
  destruct (r <? len) eqn:Hr; cbn [snd]; [lia|].
  apply Nat.ltb_ge in Hr. lia.
Qed.

Lemma nonnul_nonempty text : nonnul text = true -> text <> [].
Proof. destruct text; simpl; congruence. Qed.

Lemma find_font_bound d cp n i k :
  find_font d cp n i = Some k ->
  i <= k < i + n /\
  exists f, fonts d !! k = Some (Some f) /\ XftCharExists (xfont f) cp = true.
Proof.
  revert i. induction n as [|n IH]; intros i; simpl; [discriminate|].
  destruct (fonts d !! i) as [[f|]|] eqn:Hf; try discriminate.
  destruct (XftCharExists (xfont f) cp) eqn:Hex.
  - intros [= <-]. split; [lia|eauto].
  - intros Hk. apply IH in Hk as [Hk Hf']. split; [lia|assumption].
Qed.

Lemma find_font_hit d cp n i k f :
  (forall j, i <= j < i + n -> exists g, fonts d !! j = Some (Some g) /\ font_wf g) ->
  i <= k < i + n ->
  fonts d !! k = Some (Some f) -> XftCharExists (xfont f) cp = true ->
  find_font d cp n i <> None.
Proof.
  revert i. induction n as [|n IH]; intros i Hslots Hk Hf Hex; [lia|]. simpl.
  destruct (Hslots i ltac:(lia)) as (g & Hg & _). rewrite Hg.
  destruct (XftCharExists (xfont g) cp) eqn:Hg'; [discriminate|].
  apply IH; try assumption.
  - intros j Hj. apply Hslots. lia.
  - destruct (decide (k = i)) as [->|]; [congruence|lia].
Qed.

Lemma font_loop_forced d cur cp n i :
  font_loop d cur cp (S n) i true
  = Ret (true, if i =? cur then PickCur else PickNext i).
Proof. reflexivity. Qed.

Lemma font_loop_search d cur cp n i :
  cache_wf CAP d -> i + n <= fontcount d ->
  font_loop d cur cp n i false
  = Ret match find_font d cp n i with
        | Some k => (true, if k =? cur then PickCur else PickNext k)
        | None => (false, PickNone)
        end.
Proof.
  intros Hwf. revert i. induction n as [|n IH]; intros i Hi; simpl; [reflexivity|].
  destruct (font_at_ok CAP d i Hwf ltac:(lia)) as (f & -> & ->). simpl.
  destruct (XftCharExists (xfont f) cp); [reflexivity|].
  apply IH. lia.
Qed.

Lemma hit_bound d ce cp k :
  0 < fontcount d -> hit d ce cp = Some k -> k < fontcount d.
Proof.
  unfold hit, found. intros Hpos. destruct ce.
  - intros [= <-]. assumption.
  - intros Hk. apply find_font_bound in Hk. lia.
Qed.

Lemma font_loop_hit d cur cp ce :
  cache_wf CAP d -> 0 < fontcount d ->
  font_loop d cur cp (fontcount d) 0 ce
  = Ret match hit d ce cp with
        | Some k => (true, if k =? cur then PickCur else PickNext k)
        | None => (false, PickNone)
        end.
Proof.
  intros Hwf Hpos. unfold hit, found. destruct ce.
  - destruct (fontcount d) as [|n] eqn:Hn; [lia|]. apply font_loop_forced.
  - apply (font_loop_search d cur cp _ 0 Hwf). lia.
Qed.

(** One iteration of the scan, by the font the glyph goes to. *)
Lemma scan_head d cur n text strlen ce cp :
  cache_wf CAP d -> 0 < fontcount d -> nonnul text = true ->
  scan d cur (S n) text strlen ce cp
  = match hit d ce (head_codepoint text) with
    | Some k =>
        if k =? cur
        then scan d cur n (skipn (snd (utf8decode text UTF_SIZ)) text)
               (strlen + snd (utf8decode text UTF_SIZ)) false (head_codepoint text)
        else Ret (text, strlen, Some k, true, head_codepoint text)
    | None => Ret (text, strlen, None, false, head_codepoint text)
    end.
Proof.
  intros Hwf Hpos Hnn. simpl. rewrite Hnn. unfold head_codepoint.
  destruct (utf8decode text UTF_SIZ) as [cp1 charlen]. cbn [fst snd].
  rewrite (font_loop_hit d cur cp1 ce Hwf Hpos).
  destruct (hit d ce cp1) as [k|]; simpl; [|reflexivity].
  destruct (k =? cur); reflexivity.
Qed.

Lemma scan_nul d cur n text strlen ce cp :
  nonnul text = false ->
  scan d cur n text strlen ce cp = Ret (text, strlen, None, ce, cp).
Proof. intros Hn. destruct n; simpl; [|rewrite Hn]; reflexivity. Qed.

(** The scan returns; it takes [k] bytes off the text, all of them
    inside it, and a next font is a font of the cache other than the
    current one. *)
Lemma scan_spec d cur n : forall text strlen ce cp,
  cache_wf CAP d -> 0 < fontcount d -> length text < n ->
  exists k nf ce' cp',
    scan d cur n text strlen ce cp = Ret (skipn k text, strlen + k, nf, ce', cp') /\
    k <= length text /\
    (forall j, nf = Some j -> j < fontcount d /\ j <> cur).
Proof.
  induction n as [|n IH]; intros text strlen ce cp Hwf Hpos Hlen; [lia|].
  destruct (nonnul text) eqn:Hnn.
  - rewrite scan_head by assumption.
    pose proof (utf8decode_progress text) as Hprog.
    pose proof (utf8decode_within text (nonnul_nonempty _ Hnn)) as Hin.
    destruct (hit d ce (head_codepoint text)) as [k|] eqn:Hhit.
    + destruct (k =? cur) eqn:Hk.
      * set (charlen := snd (utf8decode text UTF_SIZ)) in *.
        destruct (IH (skipn charlen text) (strlen + charlen) false
                    (head_codepoint text) Hwf Hpos) as (k' & nf & ce' & cp' & Hscan & Hk' & Hnf).
        { rewrite length_skipn. lia. }
        exists (charlen + k'), nf, ce', cp'. rewrite Hscan.
        rewrite length_skipn in Hk'.
        rewrite skipn_skipn, Nat.add_assoc, (Nat.add_comm k' charlen).
        split; [reflexivity|]. split; [lia|exact Hnf].
      * exists 0, (Some k), true, (head_codepoint text).
        rewrite Nat.add_0_r. simpl. split; [reflexivity|]. split; [lia|].
        intros j [= <-]. split; [eapply hit_bound; eassumption|].
        apply Nat.eqb_neq in Hk. assumption.
    + exists 0, None, false, (head_codepoint text).
      rewrite Nat.add_0_r. simpl. split; [reflexivity|]. split; [lia|discriminate].
  - rewrite scan_nul by assumption.
    exists 0, None, ce, cp. rewrite Nat.add_0_r. simpl.
    split; [reflexivity|]. split; [lia|discriminate].
Qed.

End ScanFacts.

(** * Facts about one iteration of the outer loop *)

Section StepFacts.

Context `{XftLib}.
Variable CAP : nat.

Local Arguments utf8decode : simpl never.
Local Arguments scan : simpl never.

Lemma fit_empty d cur render x y w hh str :
  fit d cur render x y w hh str 0 = Ret (x, w, None).
Proof. reflexivity. Qed.

Lemma fit_returns d cur render x y w hh str strlen :
  cache_wf CAP d -> 0 < fontcount d -> cur < fontcount d ->
  exists x' w' r, fit d cur render x y w hh str strlen = Ret (x', w', r).
Proof.
  intros Hwf Hpos Hcur. unfold fit.
  destruct (strlen =? 0); [eauto|].
  destruct (font_at_ok CAP d cur Hwf Hcur) as (f & -> & _).
  destruct (font_at_ok CAP d 0 Hwf Hpos) as (f0 & -> & _). simpl.
  destruct (shorten f (h f0) w str (MIN strlen 1023) (drw_font_getexts f str strlen))
    as [len ew].
  destruct (len =? 0); eauto.
Qed.

Lemma primary_template_extends d d' :
  0 < fontcount d -> cache_extends d d' ->
  primary_template d -> primary_template d'.
Proof.
  intros Hpos (_ & _ & _ & Hsame) Ht f Hf. apply Ht. rewrite <- Hsame; assumption.
Qed.

Lemma fallback_spec d cur cp :
  cache_wf CAP d -> 0 < fontcount d ->
  match fallback CAP d cur cp with
  | Ret (d', cur', msgs) => fallback_case CAP d cur cp d' cur'
  | Die msg d' => d' = d /\ ~ primary_template d /\ fontcount d < CAP
  | Fault => False
  end.
Proof.
  intros Hwf Hpos. unfold fallback.
  destruct (CAP <=? fontcount d) eqn:Hfull; [constructor|].
  apply Nat.leb_gt in Hfull.
  destruct (font_at_ok CAP d 0 Hwf Hpos) as (f0 & -> & Hf0). simpl.
  destruct (pattern f0) as [template|] eqn:Hpat.
  - destruct (XftFontMatch template cp) as [m|]; [|constructor].
    unfold drw_font_xcreate.
    destruct (XftFontOpenPattern m) as [xf|]; simpl; [|constructor].
    destruct (XftCharExists xf cp) eqn:Hex; [|constructor].
    destruct (cache_push_ok CAP d (font_of xf None) Hwf Hfull (font_of_wf _ _))
      as (d' & Hpush & _).
    rewrite Hpush. simpl. econstructor; try eassumption. apply font_of_wf.
  - split; [reflexivity|]. split; [|assumption].
    intros Ht. apply (Ht f0 Hf0 Hpat).
Qed.

Lemma fallback_case_ok d cur cp d' cur' :
  cache_wf CAP d -> 0 < fontcount d -> cur < fontcount d ->
  fallback_case CAP d cur cp d' cur' ->
  cache_wf CAP d' /\ cache_extends d d' /\ cur' < fontcount d'.
Proof.
  intros Hwf Hpos Hcur [| |d1 f Hroom Hfwf Hpush Hex];
    try (split; [assumption|split; [apply cache_extends_refl|assumption]]).
  destruct (cache_push_ok CAP d f Hwf Hroom Hfwf)
    as (d2 & Hpush' & Hwf' & Hext & Hcnt & _).
  rewrite Hpush in Hpush'. injection Hpush' as ->.
  split; [assumption|]. split; [assumption|lia].
Qed.

Lemma phase_le st : phase st <= 5.
Proof.
  unfold phase.
  repeat match goal with |- context [match ?x with _ => _ end] => destruct x end; lia.
Qed.

Lemma found_after_push d f d' cp :
  cache_wf CAP d -> fontcount d < CAP -> font_wf f ->
  cache_push d f = Ret d' -> XftCharExists (xfont f) cp = true ->
  found d' cp <> None.
Proof.
  intros Hwf Hroom Hfwf Hpush Hex.
  destruct (cache_push_ok CAP d f Hwf Hroom Hfwf)
    as (d2 & Hpush' & (_ & _ & Hslots) & _ & Hcnt & Hnew).
  rewrite Hpush in Hpush'. injection Hpush' as <-.
  unfold found. apply (find_font_hit d' cp _ 0 (fontcount d) f); try assumption.
  - intros j Hj. apply Hslots. lia.
  - lia.
Qed.

Lemma state_ok_intro d text cur ce cp x w err :
  cache_wf CAP d -> 0 < fontcount d -> cur < fontcount d ->
  state_ok CAP {| st_drw := d; st_text := text; st_curfont := cur;
                  st_charexists := ce; st_codepoint := cp;
                  st_x := x; st_w := w; st_err := err |}.
Proof. intros. split; [|split]; assumption. Qed.

(** An iteration that does not leave the loop keeps the invariant and
    lowers the variant; the only way to end the process is a primary
    font without a template. *)
Lemma step_spec render y hh st :
  state_ok CAP st ->
  match step CAP render y hh st with
  | Ret (Done x d err r) => d = st_drw st
  | Ret (Continue st' r) =>
      state_ok CAP st' /\ cache_extends (st_drw st) (st_drw st') /\
      variant st' < variant st
  | Die msg d =>
      d = st_drw st /\ ~ primary_template (st_drw st) /\
      fontcount (st_drw st) < CAP
  | Fault => False
  end.
Proof.
  intros (Hwf & Hpos & Hcur). unfold step.
  destruct st as [d text cur ce cp x w err]. cbn [st_drw st_text st_curfont
    st_charexists st_codepoint st_x st_w st_err] in *.
  destruct (nonnul text) eqn:Hnn.
  - (* there is a character to look at *)
    rewrite (scan_head CAP) by assumption.
    pose proof (utf8decode_progress text) as Hprog.
    pose proof (utf8decode_within text (nonnul_nonempty _ Hnn)) as Hin.
    destruct (hit d ce (head_codepoint text)) as [k|] eqn:Hhit.
    + destruct (k =? cur) eqn:Hk.
      * (* the run of curfont takes it *)
        set (charlen := snd (utf8decode text UTF_SIZ)) in *.
        destruct (scan_spec CAP d cur (length text) (skipn charlen text)
                    (0 + charlen) false (head_codepoint text) Hwf Hpos)
          as (k' & nf & ce' & cp' & -> & Hk' & Hnf).
        { rewrite length_skipn. lia. }
        rewrite length_skipn in Hk'. rewrite skipn_skipn. simpl.
        destruct (fit_returns d cur render x y w hh text (charlen + k') Hwf Hpos Hcur)
          as (x' & w' & r & ->). simpl.
        set (text' := skipn (k' + charlen) text).
        assert (Hshort : length text' < length text)
          by (unfold text'; rewrite length_skipn; lia).
        destruct (nonnul text'); simpl; [|reflexivity].
        destruct nf as [j|].
        -- destruct (Hnf j eq_refl) as [Hj _].
           split; [apply state_ok_intro; assumption|].
           split; [apply cache_extends_refl|].
           unfold variant. cbn [st_text].
           match goal with |- _ + phase ?s < _ => pose proof (phase_le s) end. lia.
        -- pose proof (fallback_spec d cur cp' Hwf Hpos) as Hfb.
           destruct (fallback CAP d cur cp') as [[[d' cur'] msgs]|msg d'|]; simpl;
             [|assumption..].
           destruct (fallback_case_ok d cur cp' d' cur' Hwf Hpos Hcur Hfb)
             as (Hwf' & Hext & Hcur').
           split; [apply state_ok_intro; try assumption;
                   destruct Hext as [Hle _]; lia|].
           split; [assumption|].
           unfold variant. cbn [st_text].
           match goal with |- _ + phase ?s < _ => pose proof (phase_le s) end. lia.
      * (* another font of the cache has it *)
        apply Nat.eqb_neq in Hk. simpl. rewrite Hnn. simpl.
        pose proof (hit_bound d ce _ k Hpos Hhit) as Hkb.
        split; [apply state_ok_intro; assumption|].
        split; [apply cache_extends_refl|].
        unfold variant, phase. cbn [st_text st_drw st_curfont st_charexists].
        apply Nat.add_lt_mono_l.
        unfold hit in Hhit. destruct ce.
        -- injection Hhit as <-.
           destruct (cur =? 0) eqn:Hc; [apply Nat.eqb_eq in Hc; congruence|].
           destruct (found d (head_codepoint text)) as [i|]; [|simpl; lia].
           destruct (i =? 0); lia.
        -- rewrite Hhit, Nat.eqb_refl.
           destruct (k =? cur) eqn:Hc; [apply Nat.eqb_eq in Hc; congruence|]. lia.
    + (* no font of the cache has it *)
      simpl. rewrite Hnn. simpl.
      unfold hit in Hhit. destruct ce; [discriminate|].
      pose proof (fallback_spec d cur (head_codepoint text) Hwf Hpos) as Hfb.
      destruct (fallback CAP d cur (head_codepoint text)) as [[[d' cur'] msgs]|msg d'|];
        simpl; [|assumption..].
      destruct (fallback_case_ok d cur _ d' cur' Hwf Hpos Hcur Hfb)
        as (Hwf' & Hext & Hcur').
      split; [apply state_ok_intro; try assumption;
              destruct Hext as [Hle _]; lia|].
      split; [assumption|].
      unfold variant, phase. cbn [st_text st_drw st_curfont st_charexists].
      apply Nat.add_lt_mono_l. rewrite Hhit.
      destruct Hfb as [| |d' f Hroom Hfwf Hpush Hex].
      * destruct (cur =? 0); [lia|]. rewrite Hhit. lia.
      * simpl. destruct (cur =? 0); lia.
      * pose proof (found_after_push d f d' _ Hwf Hroom Hfwf Hpush Hex) as Hfound.
        destruct (fontcount d =? 0) eqn:Hz; [apply Nat.eqb_eq in Hz; lia|].
        destruct (found d' (head_codepoint text)); [|congruence].
        destruct (cur =? 0); lia.
  - (* the text is at its end *)
    rewrite scan_nul by assumption. simpl. rewrite Hnn. reflexivity.
Qed.

End StepFacts.

(** * Facts about the outer loop and about drw_text *)

Section LoopFacts.

Context `{XftLib}.
Variable CAP : nat.

Local Arguments step : simpl never.

Lemma primary_template_back d d' :
  0 < fontcount d -> cache_extends d d' ->
  primary_template d' -> primary_template d.
Proof.
  intros Hpos (_ & _ & _ & Hsame) Ht f Hf. apply Ht. rewrite Hsame; assumption.
Qed.

(** The loop ends within [variant st + 1] iterations, and never in a
    fault. *)
Lemma text_loop_spec render y hh fuel : forall st,
  state_ok CAP st -> variant st < fuel ->
  match text_loop CAP render y hh fuel st with
  | Some (Ret (x, d, err, rs)) =>
      cache_wf CAP d /\ cache_extends (st_drw st) d
  | Some (Die msg d) =>
      cache_wf CAP d /\ cache_extends (st_drw st) d /\
      ~ primary_template (st_drw st) /\ fontcount (st_drw st) < CAP
  | Some Fault => False
  | None => False
  end.
Proof.
  induction fuel as [|fuel IH]; intros st Hok Hfuel; [lia|]. simpl.
  pose proof (step_spec CAP render y hh st Hok) as Hstep.
  destruct Hok as (Hwf & Hpos & Hcur).
  destruct (step CAP render y hh st) as [[x d err r|st' r]|msg d|]; [| | |assumption].
  - subst d. split; [assumption|apply cache_extends_refl].
  - destruct Hstep as (Hok' & Hext & Hvar).
    specialize (IH st' Hok' ltac:(lia)).
    destruct (text_loop CAP render y hh fuel st') as [[[[[x d] err] rs]|msg d|]|];
      try assumption.
    + destruct IH as [Hwf' Hext']. split; [assumption|].
      eapply cache_extends_trans; eassumption.
    + destruct IH as (Hwf' & Hext' & Hnt & Hroom). split; [assumption|].
      split; [eapply cache_extends_trans; eassumption|]. split.
      * intros Ht. apply Hnt. eapply primary_template_extends; eassumption.
      * destruct Hext as [Hle _]. lia.
  - destruct Hstep as (-> & Hnt & Hroom). split; [assumption|].
    split; [apply cache_extends_refl|]. split; assumption.
Qed.

Lemma initial_state_ok d text x w :
  cache_wf CAP d -> fontcount d <> 0 ->
  let st := {| st_drw := d; st_text := text; st_curfont := 0;
               st_charexists := false; st_codepoint := 0%Z;
               st_x := x; st_w := w; st_err := [] |} in
  state_ok CAP st /\ variant st < text_fuel text.
Proof.
  intros Hwf Hpos st. split.
  - apply state_ok_intro; [assumption|lia..].
  - unfold variant, text_fuel. pose proof (phase_le st). simpl. lia.
Qed.

(** [drw_text] on a well-formed cache: it returns, or the process ends
    because the primary font has no template. *)
Lemma drw_text_spec d x y w hh text invert :
  cache_wf CAP d ->
  match drw_text CAP (Some d) x y w hh text invert with
  | Some (Ret r) =>
      exists d', res_drw r = Some d' /\ cache_wf CAP d' /\ cache_extends d d' /\
        (fontcount d = 0 -> d' = d)
  | Some (Die msg d') =>
      cache_wf CAP d' /\ cache_extends d d' /\ ~ primary_template d /\
      fontcount d <> 0 /\ fontcount d < CAP
  | Some Fault => False
  | None => False
  end.
Proof.
  intros Hwf. unfold drw_text.
  destruct (scheme d);
    [|exists d; auto 6 using cache_extends_refl].
  destruct text as [text|];
    [|exists d; auto 6 using cache_extends_refl].
  destruct (fontcount d =? 0) eqn:Hcnt;
    [exists d; auto 6 using cache_extends_refl|].
  apply Nat.eqb_neq in Hcnt.
  match goal with |- context [text_loop _ ?r _ _ _ ?s] =>
    destruct (initial_state_ok d text (st_x s) (st_w s) Hwf Hcnt) as [Hok Hfuel];
    pose proof (text_loop_spec r y hh _ s Hok Hfuel) as Hloop;
    destruct (text_loop CAP r y hh (text_fuel text) s) as [[[[[x' d'] err] rs]|msg d'|]|]
  end; try assumption.
  - destruct Hloop as [Hwf' Hext]. exists d'.
    repeat (split; [assumption || reflexivity|]). intros Hz. contradiction.
  - destruct Hloop as (Hwf' & Hext & Hnt & Hroom). auto.
Qed.

(** On a surface that is in order [drw_text] returns. *)
Lemma drw_text_ret d x y w hh text invert :
  surface_ok CAP d ->
  exists r, drw_text CAP (Some d) x y w hh text invert = Some (Ret r).
Proof.
  intros [Hwf Ht].
  pose proof (drw_text_spec d x y w hh text invert Hwf) as Hspec.
  destruct (drw_text CAP (Some d) x y w hh text invert) as [[r|msg d'|]|];
    try contradiction; [eauto|].
  destruct Hspec as (_ & _ & Hnt & Hcnt & _). exfalso. auto.
Qed.

(** [drw_text] leaves the surface in order. *)
Lemma drw_text_keeps_surface d x y w hh text invert :
  surface_ok CAP d ->
  ends_in (surface_ok CAP) (fun r => default d (res_drw r))
    (default Fault (drw_text CAP (Some d) x y w hh text invert)).
Proof.
  intros [Hwf Ht].
  pose proof (drw_text_spec d x y w hh text invert Hwf) as Hspec.
  destruct (drw_text CAP (Some d) x y w hh text invert) as [[r|msg d'|]|];
    try contradiction; simpl.
  - destruct Hspec as (d' & -> & Hwf' & Hext & Hidle). simpl.
    split; [assumption|]. intros Hcnt.
    destruct (Nat.eq_dec (fontcount d) 0) as [Hz|Hnz].
    + rewrite (Hidle Hz) in *. auto.
    + eapply primary_template_extends; [|eassumption|auto]. lia.
  - destruct Hspec as (_ & _ & Hnt & Hcnt & _). exfalso. auto.
Qed.

(** *** The surface from its creation on *)

Lemma drw_create_ok : surface_ok CAP (drw_create CAP).
Proof.
  split; [|intros Hcnt; contradiction].
  unfold cache_wf, drw_create. simpl. rewrite length_replicate.
  split; [reflexivity|]. split; [lia|]. intros i Hi. lia.
Qed.

Lemma drw_setscheme_ok d scm :
  surface_ok CAP d -> surface_ok CAP (drw_setscheme d scm).
Proof. intros Hok. destruct scm; [|assumption]. exact Hok. Qed.

(** A font loaded from a name carries the pattern parsed from the name. *)
Lemma drw_font_xcreate_named d name f msgs :
  drw_font_xcreate d name None = Ret (Some f, msgs) -> pattern f <> None.
Proof.
  unfold drw_font_xcreate. destruct name as [name|]; [|discriminate].
  destruct (XftFontOpenName name); [destruct (FcNameParse name)|];
    try discriminate.
  intros [= <- _]. discriminate.
Qed.

(** [drw_load_fonts] leaves the surface in order: the font that comes to
    slot 0 was loaded from a name. *)
Lemma drw_load_fonts_keeps_surface names : forall d,
  surface_ok CAP d ->
  ends_in (surface_ok CAP) fst (drw_load_fonts CAP d names).
Proof.
  induction names as [|name rest IH]; intros d Hok; simpl; [assumption|].
  destruct (CAP <=? fontcount d) eqn:Hfull; simpl; [assumption|].
  apply Nat.leb_gt in Hfull. pose proof Hok as [Hwf Ht].
  destruct (drw_font_xcreate d name None) as [[font msgs]|msg d0|] eqn:Hcreate;
    simpl.
  - assert (Hnext : forall d', surface_ok CAP d' ->
              ends_in (surface_ok CAP) fst
                ('(d'', msgs') <- drw_load_fonts CAP d' rest ;;
                 Ret (d'', msgs ++ msgs'))).
    { intros d' Hok'. specialize (IH d' Hok').
      destruct (drw_load_fonts CAP d' rest) as [[d'' msgs']|msg d''|];
        simpl in *; assumption. }
    destruct font as [f|]; simpl; [|apply Hnext; assumption].
    destruct (cache_push_ok CAP d f Hwf Hfull (drw_font_xcreate_wf _ _ _ _ _ Hcreate))
      as (d' & -> & Hwf' & Hext & Hcnt & Hnew). simpl.
    apply Hnext. split; [assumption|]. intros _.
    destruct (Nat.eq_dec (fontcount d) 0) as [Hz|Hnz].
    + intros g Hg. rewrite Hz in Hnew. rewrite Hnew in Hg. injection Hg as <-.
      eapply drw_font_xcreate_named. eassumption.
    + eapply primary_template_extends; [|eassumption|auto]. lia.
  - apply drw_font_xcreate_die in Hcreate as (-> & _). assumption.
  - exact (drw_font_xcreate_no_fault _ _ _ Hcreate).
Qed.

End LoopFacts.

(** * Facts about the closing of a run *)

Section FitFacts.

Context `{XftLib}.
Variable CAP : nat.

Local Arguments scan : simpl never.
Local Arguments shorten : simpl never.
Local Arguments fill_buf : simpl never.

(** What [fit] computed when it returns. *)
Lemma fit_spec d cur render x y w hh str strlen x' w' r :
  fit d cur render x y w hh str strlen = Ret (x', w', r) ->
  (strlen = 0 /\ r = None /\ x' = x /\ w' = w) \/
  (0 < strlen /\
   exists f f0 run,
     fonts d !! cur = Some (Some f) /\ fonts d !! 0 = Some (Some f0) /\
     r = Some run /\
     run_font run = cur /\ run_str run = str /\ run_strlen run = strlen /\
     run_full run = drw_font_getexts f str strlen /\
     shorten f (h f0) w str (MIN strlen 1023) (run_full run)
       = (run_len run, run_ew run) /\
     ((run_len run = 0 /\ x' = x /\ w' = w /\ run_buf run = []) \/
      (0 < run_len run /\ x' = sint (x + run_ew run) /\
       w' = uint (w - run_ew run) /\
       run_buf run = fill_buf str strlen (run_len run)))).
Proof.
  unfold fit. destruct (strlen =? 0) eqn:Hz.
  - apply Nat.eqb_eq in Hz. intros [= <- <- <-]. left. auto.
  - apply Nat.eqb_neq in Hz. right. split; [lia|].
    unfold font_at in *.
    destruct (fonts d !! cur) as [[f|]|]; try discriminate.
    destruct (fonts d !! 0) as [[f0|]|]; try discriminate. simpl in *.
    destruct (shorten f (h f0) w str (MIN strlen 1023) (drw_font_getexts f str strlen))
      as [len ew] eqn:Hsh.
    destruct (len =? 0) eqn:Hl.
    + apply Nat.eqb_eq in Hl. subst len. injection H0 as <- <- <-.
      do 3 eexists. repeat (split; [reflexivity|]). simpl.
      split; [exact Hsh|]. left. auto.
    + apply Nat.eqb_neq in Hl. injection H0 as <- <- <-.
      do 3 eexists. repeat (split; [reflexivity|]). simpl.
      split; [exact Hsh|]. right. repeat split; try reflexivity. lia.
Qed.

(** What one iteration did to the cursor. *)
Lemma step_inv render y hh st res :
  step CAP render y hh st = Ret res ->
  exists text strlen nf ce cp x1 w1 r,
    scan (st_drw st) (st_curfont st) (S (length (st_text st))) (st_text st) 0
      (st_charexists st) (st_codepoint st) = Ret (text, strlen, nf, ce, cp) /\
    fit (st_drw st) (st_curfont st) render (st_x st) y (st_w st) hh
      (st_text st) strlen = Ret (x1, w1, r) /\
    match res with
    | Done x d err r' => x = x1 /\ r' = r
    | Continue st' r' => r' = r /\ st_x st' = x1 /\ st_w st' = w1
    end.
Proof.
  unfold step.
  destruct (scan _ _ _ _ _ _ _) as [[[[[text strlen] nf] ce] cp]|msg d|] eqn:Hscan;
    try discriminate. cbn [bind].
  destruct (fit _ _ _ _ _ _ _ _ _) as [[[x1 w1] r]|msg d|] eqn:Hfit;
    try discriminate. cbn [bind].
  intros Hres. exists text, strlen, nf, ce, cp, x1, w1, r.
  split; [reflexivity|]. split; [exact Hfit|].
  destruct (negb (nonnul text)).
  - injection Hres as <-. auto.
  - destruct nf as [i|].
    + injection Hres as <-. auto.
    + destruct (fallback _ _ _ _) as [[[d' cur'] msgs]|msg d'|]; try discriminate.
      injection Hres as <-. auto.
Qed.

(** The runs of a loop that returned, one iteration at a time. *)
Lemma text_loop_inv render y hh fuel st x d err rs :
  state_ok CAP st ->
  text_loop CAP render y hh (S fuel) st = Some (Ret (x, d, err, rs)) ->
  exists strlen x1 w1 r,
    strlen <= length (st_text st) /\
    fit (st_drw st) (st_curfont st) render (st_x st) y (st_w st) hh
      (st_text st) strlen = Ret (x1, w1, r) /\
    ((x = x1 /\ rs = add_run r []) \/
     (exists st' rs',
        state_ok CAP st' /\ cache_extends (st_drw st) (st_drw st') /\
        st_x st' = x1 /\ st_w st' = w1 /\
        text_loop CAP render y hh fuel st' = Some (Ret (x, d, err, rs')) /\
        rs = add_run r rs')).
Proof.
  intros Hok Hloop. cbn [text_loop] in Hloop.
  pose proof (step_spec CAP render y hh st Hok) as Hspec.
  destruct (step CAP render y hh st) as [res|msg d0|] eqn:Hstep; try discriminate.
  destruct (step_inv _ _ _ _ _ Hstep)
    as (text & strlen & nf & ce & cp & x1 & w1 & r & Hscan & Hfit & Hres).
  exists strlen, x1, w1, r.
  assert (Hin : strlen <= length (st_text st)).
  { destruct Hok as (Hwf & Hpos & _).
    destruct (scan_spec CAP (st_drw st) (st_curfont st) (S (length (st_text st)))
                (st_text st) 0 (st_charexists st) (st_codepoint st) Hwf Hpos)
      as (k & nf' & ce' & cp' & Hscan' & Hk & _); [lia|].
    rewrite Hscan in Hscan'. injection Hscan' as _ -> _ _ _. exact Hk. }
  split; [assumption|]. split; [assumption|].
  destruct res as [x0 d0 err0 r0|st' r0].
  - injection Hloop as <- <- <- <-. destruct Hres as [-> ->]. left. auto.
  - destruct Hspec as (Hok' & Hext & _). destruct Hres as (-> & Hx & Hw).
    destruct (text_loop CAP render y hh fuel st') as [[[[[x0 d0] err0] rs0]|msg d0|]|] eqn:Hrest;
      try discriminate.
    injection Hloop as <- <- <- <-. right. exists st', rs0. auto 10.
Qed.

Lemma primary_font_kept d d' :
  0 < fontcount d -> cache_extends d d' -> fonts d' !! 0 = fonts d !! 0.
Proof. intros Hpos (_ & _ & _ & Hsame). apply Hsame. assumption. Qed.

End FitFacts.

(** * Facts about the shortening loop and the ellipsis *)

Section EllipsisFacts.

Context `{XftLib}.

Lemma size_t_small z : (0 <= z < 2 ^ 64)%Z -> size_t z = z.
Proof. intros Hz. unfold size_t. apply Z.mod_small. assumption. Qed.

Lemma size_t_wrapped z : (- 2 ^ 64 <= z < 0)%Z -> size_t z = (z + 2 ^ 64)%Z.
Proof.
  intros Hz. unfold size_t.
  rewrite <- (Z.mod_add z 1 (2 ^ 64)) by lia. apply Z.mod_small. lia.
Qed.

(** No period is written when fewer than three bytes are kept: [len - 3]
    wraps around to a number no counter reaches. *)
Lemma ellipsis_short i len buf :
  len < 3 -> i <= len -> ellipsis i len buf = buf.
Proof.
  intros Hlen Hi. destruct i as [|i]; [reflexivity|]. cbn [ellipsis].
  rewrite size_t_wrapped by lia.
  destruct (Z.gtb_spec (Z.of_nat (S i)) (Z.of_nat len - 3 + 2 ^ 64));
    [lia|reflexivity].
Qed.

(** The loop stops below [len - 3]. *)
Lemma ellipsis_stop i len buf :
  3 <= len -> (Z.of_nat len < 2 ^ 64)%Z -> i + 3 <= len ->
  ellipsis i len buf = buf.
Proof.
  intros Hlen Hmax Hi. destruct i as [|i]; [reflexivity|]. cbn [ellipsis].
  rewrite size_t_small by lia.
  destruct (Z.gtb_spec (Z.of_nat (S i)) (Z.of_nat len - 3));
    [lia|reflexivity].
Qed.

Lemma ellipsis_go i len buf :
  3 <= len -> (Z.of_nat len < 2 ^ 64)%Z -> len < S i + 3 ->
  ellipsis (S i) len buf = ellipsis i len (<[i := 46%Z]> buf).
Proof.
  intros Hlen Hmax Hi. cbn [ellipsis].
  rewrite size_t_small by lia.
  destruct (Z.gtb_spec (Z.of_nat (S i)) (Z.of_nat len - 3));
    [reflexivity|lia].
Qed.

(** With three bytes or more kept, the last three become periods. *)
Lemma ellipsis_long m buf :
  (Z.of_nat (m + 3) < 2 ^ 64)%Z ->
  ellipsis (m + 3) (m + 3) buf
  = <[m := 46%Z]> (<[S m := 46%Z]> (<[S (S m) := 46%Z]> buf)).
Proof.
  intros Hmax. replace (m + 3) with (S (S (S m))) in * by lia.
  rewrite !ellipsis_go by lia. apply ellipsis_stop; lia.
Qed.

Lemma take_three_periods (str : list Z) m :
  m + 3 <= length str ->
  <[m := 46%Z]> (<[S m := 46%Z]> (<[S (S m) := 46%Z]> (take (m + 3) str)))
  = take m str ++ replicate 3 46%Z.
Proof.
  intros Hlen. rewrite <- (take_take_drop str m 3).
  assert (Hm : length (take m str) = m) by (rewrite length_take; lia).
  assert (H3 : length (take 3 (drop m str)) = 3)
    by (rewrite length_take, length_drop; lia).
  destruct (take 3 (drop m str)) as [|a [|b [|c [|e rest]]]]; try discriminate.
  rewrite !insert_app_r_alt by lia. rewrite Hm.
  replace (S (S m) - m) with 2 by lia. replace (S m - m) with 1 by lia.
  rewrite Nat.sub_diag. reflexivity.
Qed.


Lemma fill_buf_whole (str : list Z) strlen len :
  strlen <= len -> fill_buf str strlen len = take len str.
Proof.
  intros Hle. unfold fill_buf.
  assert (Hb : (len <? strlen) = false) by (apply Nat.ltb_ge; assumption).
  rewrite Hb. reflexivity.
Qed.

Lemma shorten_le font h0 w str len ew :
  fst (shorten font h0 w str len ew) <= len.
Proof.
  revert ew. induction len as [|len IH]; intros ew; simpl; [lia|].
  destruct (over_budget ew w h0); simpl; [|lia].
  specialize (IH (drw_font_getexts font str (S len))). lia.
Qed.

(** Within budget nothing is shortened. *)
Lemma shorten_fits font h0 w str len ew :
  over_budget ew w h0 = false ->
  shorten font h0 w str len ew = (len, ew).
Proof. intros Hfit. destruct len as [|len]; simpl; [|rewrite Hfit]; reflexivity. Qed.



Lemma over_budget_wide ew w h0 :
  (0 <= h0)%Z -> (0 <= ew)%Z -> (w < 2 ^ 32)%Z -> (ew + h0 <= w)%Z ->
  over_budget ew w h0 = false.
Proof.
  intros Hh Hew Hw Hfit. unfold over_budget, uint.
  destruct (Z.ltb_spec w h0); [lia|]. rewrite orb_false_r.
  rewrite Z.mod_small by lia.
  destruct (Z.gtb_spec ew (w - h0)); [lia|reflexivity].
Qed.

End EllipsisFacts.

(** * Facts about the runs and the cursor of a whole fit *)

Section RunFacts.

Context `{XftLib}.
Variable CAP : nat.

Local Arguments text_loop : simpl never.
Local Arguments fill_buf : simpl never.
Local Arguments shorten : simpl never.

Lemma drw_font_getexts_range f s n : (0 <= drw_font_getexts f s n < 2 ^ 32)%Z.
Proof. unfold drw_font_getexts, uint. apply Z.mod_pos_bound. lia. Qed.

Lemma primary_height_eq d f0 :
  fonts d !! 0 = Some (Some f0) -> primary_height d = h f0.
Proof. unfold primary_height. intros ->. reflexivity. Qed.

Lemma primary_height_extends d d' :
  0 < fontcount d -> cache_extends d d' -> primary_height d' = primary_height d.
Proof.
  intros Hpos Hext. unfold primary_height.
  rewrite (primary_font_kept d d' Hpos Hext). reflexivity.
Qed.

Lemma primary_height_nonneg d :
  cache_wf CAP d -> 0 < fontcount d -> (0 <= primary_height d)%Z.
Proof.
  intros Hwf Hpos.
  destruct (font_at_ok CAP d 0 Hwf Hpos) as (f0 & _ & Hf0).
  rewrite (primary_height_eq d f0 Hf0).
  apply (font_at_wf CAP d 0 f0 Hwf Hpos Hf0).
Qed.

(** The run that [fit] hands out has the shape of a run. *)
Lemma fit_run_shape d cur render x y w hh str strlen x' w' run :
  strlen <= length str ->
  fit d cur render x y w hh str strlen = Ret (x', w', Some run) ->
  run_shape run.
Proof.
  intros Hin Hfit. apply fit_spec in Hfit as [(_ & Hr & _)|(Hpos & f & f0 & run' & Hfit)];
    [discriminate|].
  destruct Hfit as (_ & _ & [= <-] & _ & Hstr & Hlen & Hfull & Hsh & Hcase).
  unfold run_shape. rewrite Hstr, Hlen, Hfull.
  split; [lia|]. split; [apply drw_font_getexts_range|].
  split.
  - rewrite Hfull in Hsh.
    pose proof (shorten_le f (h f0) w str (MIN strlen 1023)
                  (drw_font_getexts f str strlen)) as Hle.
    rewrite Hsh in Hle. exact Hle.
  - destruct Hcase as [(Hz & _ & _ & Hbuf)|(Hnz & _ & _ & Hbuf)]; [left|right]; auto.
Qed.

Lemma Forall_add_run (P : run -> Prop) r rs :
  (forall run, r = Some run -> P run) -> Forall P rs -> Forall P (add_run r rs).
Proof. intros Hr Hrs. destruct r as [run|]; simpl; auto. Qed.

(** Every run of a loop that returned has the shape of a run. *)
Lemma text_loop_run_shape render y hh fuel : forall st x d err rs,
  state_ok CAP st ->
  text_loop CAP render y hh fuel st = Some (Ret (x, d, err, rs)) ->
  Forall run_shape rs.
Proof.
  induction fuel as [|fuel IH]; intros st x d err rs Hok Hloop; [discriminate|].
  apply text_loop_inv in Hloop as (strlen & x1 & w1 & r & Hin & Hfit & Hnext);
    [|assumption].
  assert (Hr : forall run, r = Some run -> run_shape run)
    by (intros run ->; eapply fit_run_shape; eassumption).
  destruct Hnext as [[_ ->]|(st' & rs' & Hok' & _ & _ & _ & Hrest & ->)];
    apply Forall_add_run; auto.
  eapply IH; eassumption.
Qed.

Lemma total_width_add_run r rs :
  total_width (add_run r rs)
  = (match r with Some run => run_full run | None => 0 end + total_width rs)%Z.
Proof. destruct r; reflexivity. Qed.

Lemma total_width_nonneg rs : Forall run_shape rs -> (0 <= total_width rs)%Z.
Proof.
  induction 1 as [|r rs (_ & Hfull & _) _ IH]; simpl; lia.
Qed.

Lemma sint_add a b : sint (sint a + b) = sint (a + b).
Proof.
  assert (Hmod : ((sint a + b) mod 2 ^ 32 = (a + b) mod 2 ^ 32)%Z).
  { rewrite (Z.add_mod (sint a)), (Z.add_mod a) by lia. f_equal. f_equal.
    unfold sint. destruct (a mod 2 ^ 32 <? 2 ^ 31)%Z.
    - apply Z.mod_mod. lia.
    - rewrite <- (Z.mod_add (a mod 2 ^ 32 - 2 ^ 32) 1 (2 ^ 32)) by lia.
      replace (a mod 2 ^ 32 - 2 ^ 32 + 1 * 2 ^ 32)%Z with (a mod 2 ^ 32)%Z by lia.
      apply Z.mod_mod. lia. }
  unfold sint at 1 3. rewrite Hmod. reflexivity.
Qed.


Lemma sint_idem a : sint (sint a) = sint a.
Proof. rewrite <- (Z.add_0_r (sint a)) at 1. rewrite sint_add. f_equal. lia. Qed.

Lemma MIN_pos a b : 0 < a -> 0 < b -> 0 < MIN a b.
Proof. unfold MIN. destruct (a <? b); lia. Qed.

(** A budget that holds all the runs: no run is shortened and the cursor
    advances by the sum of their widths. *)
Lemma text_loop_unbounded render y hh fuel : forall st x d err rs,
  state_ok CAP st ->
  text_loop CAP render y hh fuel st = Some (Ret (x, d, err, rs)) ->
  sint (st_x st) = st_x st ->
  (st_w st < 2 ^ 32)%Z ->
  (total_width rs + primary_height (st_drw st) <= st_w st)%Z ->
  x = sint (st_x st + total_width rs) /\
  Forall (fun run => run_ew run = run_full run /\
                     run_len run = MIN (run_strlen run) 1023) rs.
Proof.
  induction fuel as [|fuel IH]; intros st x d err rs Hok Hloop Hx Hmax Hsum;
    [discriminate|].
  pose proof Hok as (Hwf & Hpos & Hcur).
  pose proof (text_loop_run_shape _ _ _ _ _ _ _ _ _ Hok Hloop) as Hshape.
  pose proof (primary_height_nonneg _ Hwf Hpos) as Hh0.
  apply text_loop_inv in Hloop as (strlen & x1 & w1 & r & Hin & Hfit & Hnext);
    [|assumption].
  apply fit_spec in Hfit as [(_ & -> & -> & ->)|(Hlen & f & f0 & run & Hfit)].
  - (* no run was open *)
    destruct Hnext as [[-> ->]|(st' & rs' & Hok' & Hext & Hx' & Hw' & Hrest & ->)];
      simpl in *.
    + rewrite Z.add_0_r. auto.
    + rewrite <- Hx'. apply (IH st' x d err rs' Hok' Hrest); try congruence.
      rewrite (primary_height_extends _ _ Hpos Hext). congruence.
  - (* a run is closed *)
    destruct Hfit as (_ & Hf0 & -> & _ & _ & Hstrlen & Hfull & Hsh & Hcase).
    rewrite (primary_height_eq _ _ Hf0) in *.
    assert (Hrun : forall rs', rs = run :: rs' ->
              (0 <= total_width rs')%Z /\ run_ew run = run_full run /\
              run_len run = MIN (run_strlen run) 1023 /\
              x1 = sint (st_x st + run_full run) /\
              w1 = (st_w st - run_full run)%Z).
    { intros rs' ->. apply Forall_cons_1 in Hshape as [(_ & Hrange & _) Hshape'].
      pose proof (total_width_nonneg _ Hshape') as Hnn. simpl in Hsum.
      rewrite shorten_fits in Hsh by (apply over_budget_wide; lia).
      injection Hsh as Hl He. rewrite <- He, <- Hl, Hstrlen.
      pose proof (MIN_pos strlen 1023 Hlen ltac:(lia)) as Hmin.
      destruct Hcase as [(Hz & _)|(_ & -> & -> & _)]; [lia|].
      rewrite <- He. repeat split; try assumption.
      unfold uint. apply Z.mod_small. lia. }
    destruct Hnext as [[-> ->]|(st' & rs' & Hok' & Hext & Hx' & Hw' & Hrest & ->)];
      simpl in *.
    + destruct (Hrun [] eq_refl) as (_ & Hew & Hl & -> & _).
      rewrite Z.add_0_r. auto.
    + destruct (Hrun rs' eq_refl) as (Hnn & Hew & Hl & -> & ->).
      destruct (IH st' x d err rs' Hok' Hrest) as [-> Hrs].
      * rewrite Hx'. apply sint_idem.
      * rewrite Hw'. apply Forall_cons_1 in Hshape as [(_ & Hrange & _) _]. lia.
      * rewrite (primary_height_extends _ _ Hpos Hext), (primary_height_eq _ _ Hf0), Hw'.
        lia.
      * rewrite Hx', sint_add, Z.add_assoc. auto.
Qed.

End RunFacts.

(** * The claims about the cache and about drw_text as a whole *)

Section Claims.

Context `{XftLib}.
Variable CAP : nat.

Local Arguments text_loop : simpl never.


(** C10.  With a NULL surface, a NULL text, no colour scheme or an empty
    font cache, [drw_text] returns 0 whatever the geometry and the mode;
    no run is measured or drawn and the surface is as it was. *)
Theorem drw_text_nothing_to_lay_out drw x y w hh text invert :
  drw = None \/ text = None \/
  (exists d, drw = Some d /\ (scheme d = None \/ fontcount d = 0)) ->
  exists r, drw_text CAP drw x y w hh text invert = Some (Ret r) /\
    res_x r = 0%Z /\ res_runs r = [] /\ res_err r = [] /\ res_drw r = drw.
Proof.
  unfold drw_text. intros [->|[->|(d & -> & [Hs|Hf])]].
  - eauto 10.
  - destruct drw as [d|]; [|eauto 10]. destruct (scheme d); eauto 10.
  - rewrite Hs. eauto 10.
  - rewrite Hf. destruct (scheme d); [|eauto 10].
    destruct text; eauto 10.
Qed.

(** C4.  The number of fonts in the cache never exceeds
    DRW_FONT_CACHE_SIZE.  From a cache within its capacity, loading a
    batch of fonts and fitting a text both end (by return or by [die])
    with [fontcount] within the capacity and the array at its size, and
    neither writes outside the array; and a full cache makes the search
    for a fallback font stop before anything is acquired. *)
Theorem cache_never_overflows d :
  cache_wf CAP d ->
  (forall names,
     ends_in (fun d' => fontcount d' <= CAP /\ length (fonts d') = CAP) fst
       (drw_load_fonts CAP d names)) /\
  (forall x y w hh text invert,
     exists o, drw_text CAP (Some d) x y w hh text invert = Some o /\
       ends_in (fun d' => fontcount d' <= CAP /\ length (fonts d') = CAP)
         (fun r => default d (res_drw r)) o) /\
  (forall cur cp,
     CAP <= fontcount d -> fallback CAP d cur cp = Ret (d, cur, [])).
Proof.
  intros Hwf. split; [|split].
  - intros names. pose proof (drw_load_fonts_inv CAP names d Hwf) as Hinv.
    destruct (drw_load_fonts CAP d names) as [[d' msgs]|msg d'|]; simpl in *;
      try contradiction; destruct Hinv as [(Hlen & Hcnt & _) _]; auto.
  - intros x y w hh text invert.
    pose proof (drw_text_spec CAP d x y w hh text invert Hwf) as Hspec.
    destruct (drw_text CAP (Some d) x y w hh text invert) as [[r|msg d'|]|];
      try contradiction; eexists; (split; [reflexivity|]); simpl.
    + destruct Hspec as (d' & -> & (Hlen & Hcnt & _) & _). simpl. auto.
    + destruct Hspec as ((Hlen & Hcnt & _) & _). auto.
  - intros cur cp Hfull. unfold fallback.
    apply Nat.leb_le in Hfull. rewrite Hfull. reflexivity.
Qed.

(** C9.  [drw_load_fonts] goes through the whole batch.  It never writes
    outside the array and keeps every slot in use as it is, however it
    ends; a font that fails to load leaves a line on stderr and the
    batch goes on with the names after it; and at a full cache the next
    name is turned down by [die] with the cache untouched. *)
Theorem drw_load_fonts_batch :
  (forall d names,
     cache_wf CAP d ->
     ends_in (fun d' => cache_wf CAP d' /\ cache_extends d d') fst
       (drw_load_fonts CAP d names)) /\
  (forall d name rest msgs,
     fontcount d < CAP ->
     drw_font_xcreate d name None = Ret (None, msgs) ->
     msgs <> [] /\
     drw_load_fonts CAP d (name :: rest)
     = ('(d', msgs') <- drw_load_fonts CAP d rest ;; Ret (d', msgs ++ msgs'))) /\
  (forall d name rest,
     CAP <= fontcount d ->
     drw_load_fonts CAP d (name :: rest) = Die "Font cache exhausted." d).
Proof.
  split; [|split].
  - intros d names Hwf. apply drw_load_fonts_inv. assumption.
  - intros d name rest msgs Hroom Hcreate. split.
    + unfold drw_font_xcreate in Hcreate.
      destruct name as [name|]; [|discriminate].
      destruct (XftFontOpenName name); [destruct (FcNameParse name)|];
        try discriminate; injection Hcreate as <-; discriminate.
    + simpl. apply Nat.leb_gt in Hroom. rewrite Hroom, Hcreate. reflexivity.
  - intros d name rest Hfull. simpl.
    apply Nat.leb_le in Hfull. rewrite Hfull. reflexivity.
Qed.

End Claims.

(** * The claims about the width budget *)

Section BudgetClaims.

Context `{XftLib}.
Variable CAP : nat.

Local Arguments text_loop : simpl never.
Local Arguments fill_buf : simpl never.

Lemma MIN_le_r a b : MIN a b <= b.
Proof. unfold MIN. destruct (Nat.ltb_spec a b); lia. Qed.

(** The loop as [drw_text] starts it. *)
Lemma drw_text_loop d x y w hh text invert r :
  scheme d <> None -> fontcount d <> 0 ->
  drw_text CAP (Some d) x y w hh (Some text) invert = Some (Ret r) ->
  exists d',
    text_loop CAP (rendering x y w hh) y hh (text_fuel text)
      {| st_drw := d; st_text := text; st_curfont := 0;
         st_charexists := false; st_codepoint := 0%Z;
         st_x := x; st_w := budget x y w hh; st_err := [] |}
    = Some (Ret (res_x r, d', res_err r, res_runs r)).
Proof.
  intros Hs Hf. unfold drw_text.
  destruct (scheme d); [|congruence].
  destruct (fontcount d =? 0) eqn:Hz; [apply Nat.eqb_eq in Hz; congruence|].
  destruct (text_loop _ _ _ _ _ _) as [[[[[x' d'] err] rs]|msg d'|]|];
    try discriminate.
  intros [= <-]. exists d'. reflexivity.
Qed.

Lemma drw_text_idle d x y w hh text invert r :
  scheme d = None \/ fontcount d = 0 ->
  drw_text CAP (Some d) x y w hh text invert = Some (Ret r) ->
  res_x r = 0%Z /\ res_runs r = [].
Proof.
  unfold drw_text. intros [Hs|Hf].
  - rewrite Hs. intros [= <-]. auto.
  - rewrite Hf. destruct (scheme d); [destruct text|]; intros [= <-]; auto.
Qed.

Lemma idle_or_not d :
  (scheme d = None \/ fontcount d = 0) \/ (scheme d <> None /\ fontcount d <> 0).
Proof.
  destruct (scheme d); [|auto].
  destruct (fontcount d); [auto|right; split; congruence].
Qed.

(** C5, amended.  Fitting with zero geometry sets the budget to all
    ones, [2^32 - 1].  As long as the widths of the runs as first
    measured, summed, and the line height of the primary font stay within
    that budget, no run is shortened on account of its width (the kept
    length is the run's, cut to the 1023 bytes of the buffer, and the
    width is the one first measured) and the returned x is the sum of the
    widths, as an [int]. *)
Theorem measure_only_sum d text invert :
  surface_ok CAP d ->
  exists r,
    drw_text CAP (Some d) 0 0 0 0 (Some text) invert = Some (Ret r) /\
    ((total_width (res_runs r) + primary_height d <= 2 ^ 32 - 1)%Z ->
     res_x r = sint (total_width (res_runs r)) /\
     Forall (fun run => run_ew run = run_full run /\
                        run_len run = MIN (run_strlen run) 1023)
       (res_runs r)).
Proof.
  intros Hsurf. pose proof Hsurf as [Hwf _].
  destruct (drw_text_ret CAP d 0 0 0 0 (Some text) invert Hsurf) as (r & Hr).
  exists r. split; [assumption|]. intros Hsum.
  destruct (idle_or_not d) as [Hidle|[Hs Hf]].
  - destruct (drw_text_idle _ _ _ _ _ _ _ _ Hidle Hr) as [-> ->]. simpl. auto.
  - destruct (drw_text_loop _ _ _ _ _ _ _ _ Hs Hf Hr) as [d' Hloop].
    destruct (initial_state_ok CAP d text 0 (budget 0 0 0 0) Hwf Hf) as [Hok _].
    apply (text_loop_unbounded CAP _ _ _ _ _ _ _ _ _ Hok Hloop);
      [reflexivity|reflexivity|exact Hsum].
Qed.


End BudgetClaims.

(** * Which font takes a character that no cached font has *)

Section ResolveFacts.

Context `{XftLib}.
Variable CAP : nat.

Local Arguments scan : simpl never.
Local Arguments utf8decode : simpl never.

(** An iteration in which another font of the cache has the glyph only
    switches to that font. *)
Lemma step_switches render y hh d text cur ce cp x w err k :
  cache_wf CAP d -> 0 < fontcount d -> nonnul text = true ->
  hit d ce (head_codepoint text) = Some k -> k <> cur ->
  step CAP render y hh (mk_state d text cur ce cp x w err)
  = Ret (Continue (mk_state d text k false (head_codepoint text) x w err) None).
Proof.
  intros Hwf Hpos Hnn Hhit Hk. unfold step, mk_state. cbn [st_drw st_text
    st_curfont st_charexists st_codepoint st_x st_w st_err].
  rewrite (scan_head CAP) by assumption. rewrite Hhit.
  apply Nat.eqb_neq in Hk. rewrite Hk. cbn [bind]. rewrite fit_empty. cbn [bind].
  rewrite Hnn. reflexivity.
Qed.

(** An iteration in which no font of the cache has the glyph only
    searches for a fallback font. *)
Lemma step_falls_back render y hh d text cur cp x w err :
  cache_wf CAP d -> 0 < fontcount d -> nonnul text = true ->
  found d (head_codepoint text) = None ->
  step CAP render y hh (mk_state d text cur false cp x w err)
  = ('(d', cur', msgs) <- fallback CAP d cur (head_codepoint text) ;;
     Ret (Continue (mk_state d' text cur' true (head_codepoint text) x w
                      (err ++ msgs)) None)).
Proof.
  intros Hwf Hpos Hnn Hfound. unfold step, mk_state. cbn [st_drw st_text
    st_curfont st_charexists st_codepoint st_x st_w st_err].
  rewrite (scan_head CAP) by assumption. unfold hit. rewrite Hfound.
  cbn [bind]. rewrite fit_empty. cbn [bind]. rewrite Hnn. reflexivity.
Qed.

(** An iteration in which the current font is the one that has the glyph
    closes a run of the current font that holds the character. *)
Lemma step_takes render y hh d text cur ce cp x w err res :
  cache_wf CAP d -> 0 < fontcount d -> cur < fontcount d ->
  nonnul text = true ->
  hit d ce (head_codepoint text) = Some cur ->
  step CAP render y hh (mk_state d text cur ce cp x w err) = Ret res ->
  exists r,
    match res with
    | Done _ _ _ r' => r' = Some r
    | Continue _ r' => r' = Some r
    end /\
    run_font r = cur /\ run_str r = text /\
    snd (utf8decode text UTF_SIZ) <= run_strlen r.
Proof.
  intros Hwf Hpos Hcur Hnn Hhit Hstep.
  destruct (step_inv CAP _ _ _ _ _ Hstep)
    as (text' & strlen & nf & ce' & cp' & x1 & w1 & r & Hscan & Hfit & Hres).
  unfold mk_state in *. cbn [st_drw st_text st_curfont st_charexists
    st_codepoint st_x st_w st_err] in *.
  rewrite (scan_head CAP) in Hscan by assumption.
  rewrite Hhit, Nat.eqb_refl in Hscan.
  destruct (scan_spec CAP d cur (length text)
              (skipn (snd (utf8decode text UTF_SIZ)) text)
              (0 + snd (utf8decode text UTF_SIZ)) false (head_codepoint text)
              Hwf Hpos) as (k & nf' & ce'' & cp'' & Hscan' & _).
  { rewrite length_skipn. pose proof (utf8decode_progress text).
    pose proof (nonnul_nonempty _ Hnn). destruct text; simpl in *; [congruence|lia]. }
  rewrite Hscan' in Hscan. injection Hscan as _ <- _ _ _.
  pose proof (utf8decode_progress text) as Hprog.
  apply fit_spec in Hfit as [(Hz & _)|(_ & f & f0 & run & Hfit)]; [simpl in Hz; lia|].
  destruct Hfit as (_ & _ & -> & Hfont & Hstr & Hlen & _).
  exists run. split.
  - destruct res; destruct Hres as [? ?]; intuition congruence.
  - rewrite Hfont, Hstr, Hlen. split; [reflexivity|]. split; [reflexivity|].
    simpl. lia.
Qed.

Lemma text_loop_skip render y hh fuel st st' :
  step CAP render y hh st = Ret (Continue st' None) ->
  text_loop CAP render y hh (S fuel) st = text_loop CAP render y hh fuel st'.
Proof.
  intros Hstep. cbn [text_loop]. rewrite Hstep.
  destruct (text_loop CAP render y hh fuel st') as [[[[[x d] err] rs]|msg d|]|];
    reflexivity.
Qed.

Lemma text_loop_first_run render y hh fuel st res r x d err rs :
  step CAP render y hh st = Ret res ->
  match res with
  | Done _ _ _ r' => r' = Some r
  | Continue _ r' => r' = Some r
  end ->
  text_loop CAP render y hh fuel st = Some (Ret (x, d, err, rs)) ->
  exists rs', rs = r :: rs'.
Proof.
  intros Hstep Hr. destruct fuel as [|fuel]; [discriminate|].
  cbn [text_loop]. rewrite Hstep. destruct res as [x0 d0 err0 r0|st' r0]; subst r0.
  - intros [= _ _ _ <-]. simpl. eauto.
  - destruct (text_loop CAP render y hh fuel st') as [[[[[x0 d0] err0] rs0]|msg d0|]|];
      try discriminate.
    intros [= _ _ _ <-]. simpl. eauto.
Qed.

Lemma first_run_takes render y hh d text cur ce cp x w err :
  cache_wf CAP d -> 0 < fontcount d -> cur < fontcount d ->
  nonnul text = true ->
  hit d ce (head_codepoint text) = Some cur ->
  first_run_of CAP render y hh (mk_state d text cur ce cp x w err) cur.
Proof.
  intros Hwf Hpos Hcur Hnn Hhit fuel xf d' err' rs Hloop.
  assert (Hok : state_ok CAP (mk_state d text cur ce cp x w err))
    by (apply state_ok_intro; assumption).
  pose proof (step_spec CAP render y hh _ Hok) as Hspec.
  destruct (step CAP render y hh (mk_state d text cur ce cp x w err))
    as [res|msg d0|] eqn:Hstep.
  - destruct (step_takes _ _ _ _ _ _ _ _ _ _ _ _ Hwf Hpos Hcur Hnn Hhit Hstep)
      as (r & Hr & Hfont & Hstr & Hlen).
    destruct (text_loop_first_run _ _ _ _ _ _ _ _ _ _ _ Hstep Hr Hloop) as [rs' ->].
    exists r, rs'. auto.
  - destruct fuel; [discriminate|]. cbn [text_loop] in Hloop.
    rewrite Hstep in Hloop. discriminate.
  - contradiction.
Qed.

Lemma first_run_skip render y hh st st' k :
  step CAP render y hh st = Ret (Continue st' None) ->
  st_text st' = st_text st ->
  first_run_of CAP render y hh st' k -> first_run_of CAP render y hh st k.
Proof.
  intros Hstep Htext Hfirst fuel x d err rs Hloop.
  destruct fuel as [|fuel]; [discriminate|].
  rewrite (text_loop_skip _ _ _ _ _ _ Hstep) in Hloop.
  rewrite <- Htext. eapply Hfirst. eassumption.
Qed.

(** After the search for a fallback font, with charexists set, the
    primary font takes the character when the current font is the
    primary font. *)
Lemma first_run_forced_primary render y hh d text cp x w err :
  cache_wf CAP d -> 0 < fontcount d -> nonnul text = true ->
  first_run_of CAP render y hh (mk_state d text 0 true cp x w err) 0.
Proof. intros. apply first_run_takes; auto. Qed.

(** The search left the cache and the current font as they were (full
    cache, or no match): with charexists set the scan settles on the
    primary font, switching to it first when it is not the current font,
    and the primary font takes the character. *)
Lemma first_run_kept_after render y hh d text cur cp x w err :
  cache_wf CAP d -> 0 < fontcount d -> cur < fontcount d ->
  nonnul text = true ->
  found d (head_codepoint text) = None ->
  (forall cur', fallback CAP d cur' (head_codepoint text) = Ret (d, cur', [])) ->
  first_run_of CAP render y hh (mk_state d text cur true cp x w err) 0.
Proof.
  intros Hwf Hpos Hcur Hnn Hfound Hfb.
  destruct (Nat.eq_dec cur 0) as [->|Hne];
    [apply first_run_forced_primary; assumption|].
  eapply first_run_skip;
    [apply step_switches; auto|reflexivity|].
  eapply first_run_skip;
    [rewrite step_falls_back by assumption; rewrite Hfb; reflexivity
    |reflexivity|].
  apply first_run_forced_primary; assumption.
Qed.

(** The same, from the iteration that comes upon the character. *)
Lemma first_run_kept render y hh d text cur cp x w err :
  cache_wf CAP d -> 0 < fontcount d -> cur < fontcount d ->
  nonnul text = true ->
  found d (head_codepoint text) = None ->
  (forall cur', fallback CAP d cur' (head_codepoint text) = Ret (d, cur', [])) ->
  first_run_of CAP render y hh (mk_state d text cur false cp x w err) 0.
Proof.
  intros Hwf Hpos Hcur Hnn Hfound Hfb.
  eapply first_run_skip;
    [rewrite step_falls_back by assumption; rewrite Hfb; reflexivity
    |reflexivity|].
  apply first_run_kept_after; assumption.
Qed.

End ResolveFacts.

(** * The claims about the resolution of a glyph *)

Section ResolveClaims.

Context `{XftLib}.
Variable CAP : nat.

Local Arguments scan : simpl never.
Local Arguments utf8decode : simpl never.

Lemma find_font_same d d' cp n : forall i,
  (forall j, i <= j < i + n -> fonts d' !! j = fonts d !! j) ->
  find_font d' cp n i = find_font d cp n i.
Proof.
  induction n as [|n IH]; intros i Hsame; simpl; [reflexivity|].
  rewrite Hsame by lia.
  destruct (fonts d !! i) as [[f|]|]; try reflexivity.
  destruct (XftCharExists (xfont f) cp); [reflexivity|].
  apply IH. intros j Hj. apply Hsame. lia.
Qed.

Lemma find_font_snoc d cp f n : forall i,
  (forall j, i <= j < i + n -> exists g, fonts d !! j = Some (Some g)) ->
  find_font d cp n i = None ->
  fonts d !! (i + n) = Some (Some f) -> XftCharExists (xfont f) cp = true ->
  find_font d cp (S n) i = Some (i + n).
Proof.
  induction n as [|n IH]; intros i Hslots Hnone Hf Hex.
  - rewrite Nat.add_0_r in *. simpl. rewrite Hf, Hex. reflexivity.
  - destruct (Hslots i ltac:(lia)) as [g Hg].
    simpl in Hnone. rewrite Hg in Hnone.
    change (find_font d cp (S (S n)) i)
      with (match fonts d !! i with
            | Some (Some f) =>
                if XftCharExists (xfont f) cp then Some i
                else find_font d cp (S n) (S i)
            | _ => None
            end).
    rewrite Hg. destruct (XftCharExists (xfont g) cp); [discriminate|].
    replace (i + S n) with (S i + n) in * by lia.
    apply IH; try assumption. intros j Hj. apply Hslots. lia.
Qed.

(** A font acquired for a glyph that the cache lacked is the first font
    of the cache that has the glyph. *)
Lemma found_new d f d' cp :
  cache_wf CAP d -> fontcount d < CAP -> font_wf f ->
  found d cp = None ->
  cache_push d f = Ret d' -> XftCharExists (xfont f) cp = true ->
  found d' cp = Some (fontcount d).
Proof.
  intros Hwf Hroom Hfwf Hnone Hpush Hex.
  destruct (cache_push_ok CAP d f Hwf Hroom Hfwf)
    as (d2 & Hpush' & (_ & _ & Hslots) & (_ & _ & _ & Hsame) & Hcnt & Hnew).
  rewrite Hpush in Hpush'. injection Hpush' as <-.
  unfold found in *. rewrite Hcnt.
  apply (find_font_snoc d' cp f (fontcount d) 0); try assumption.
  - intros j Hj. destruct (Hslots j ltac:(lia)) as (g & Hg & _). eauto.
  - rewrite <- Hnone. apply find_font_same. intros j Hj. apply Hsame. lia.
Qed.

Lemma text_loop_ends render y hh st :
  state_ok CAP st ->
  primary_template (st_drw st) \/ CAP <= fontcount (st_drw st) ->
  exists fuel res, text_loop CAP render y hh fuel st = Some (Ret res).
Proof.
  intros Hok Hsafe. exists (S (variant st)).
  pose proof (text_loop_spec CAP render y hh (S (variant st)) st Hok ltac:(lia))
    as Hspec.
  destruct (text_loop CAP render y hh (S (variant st)) st)
    as [[res|msg d|]|]; try contradiction; [eauto|].
  destruct Hspec as (_ & _ & Hnt & Hroom).
  destruct Hsafe; [contradiction|lia].
Qed.

(** The search acquired a font: with charexists set the scan goes to
    the primary font and from there to the new font, which is the first
    of the cache to have the glyph and takes the character. *)
Lemma first_run_new_after render y hh d d' f text cp x w err :
  cache_wf CAP d -> 0 < fontcount d -> fontcount d < CAP -> font_wf f ->
  nonnul text = true ->
  found d (head_codepoint text) = None ->
  cache_push d f = Ret d' ->
  XftCharExists (xfont f) (head_codepoint text) = true ->
  first_run_of CAP render y hh (mk_state d' text (fontcount d) true cp x w err)
    (fontcount d).
Proof.
  intros Hwf Hpos Hroom Hfwf Hnn Hfound Hpush Hex.
  destruct (cache_push_ok CAP d f Hwf Hroom Hfwf)
    as (d2 & Hpush' & Hwf' & (Hle & _) & Hcnt & _).
  rewrite Hpush in Hpush'. injection Hpush' as <-.
  pose proof (found_new d f d' _ Hwf Hroom Hfwf Hfound Hpush Hex) as Hnew.
  eapply first_run_skip;
    [apply (step_switches CAP _ _ _ d' text (fontcount d) true _ _ _ _ 0);
       try assumption; try reflexivity; lia
    |reflexivity|].
  eapply first_run_skip;
    [apply (step_switches CAP _ _ _ d' text 0 false _ _ _ _ (fontcount d));
       try assumption; lia
    |reflexivity|].
  apply first_run_takes; try assumption; lia.
Qed.

(** C2, amended.  When the cache is at its capacity and no cached font
    has the codepoint at the head of the text, the search for a fallback
    font is skipped: the cache and the current font stay as they are and
    nothing is printed.  The character is neither dropped nor an error:
    from the iteration that comes upon the character ([ce] false) as from
    the one that follows the skipped search ([ce] true, the current font
    unchanged) the fit comes to an end and the character goes to a run of
    the primary font, cache[0] - which is the current font when the cache
    has one font only. *)
Theorem full_cache_glyph_goes_to_primary render y hh d text cur ce cp x w err :
  cache_wf CAP d -> cur < fontcount d ->
  nonnul text = true ->
  found d (head_codepoint text) = None ->
  CAP <= fontcount d ->
  fallback CAP d cur (head_codepoint text) = Ret (d, cur, []) /\
  takes_head CAP render y hh (mk_state d text cur ce cp x w err) 0 /\
  (fontcount d = 1 ->
   takes_head CAP render y hh (mk_state d text cur ce cp x w err) cur).
Proof.
  intros Hwf Hcur Hnn Hfound Hfull.
  assert (Hfb : forall cur', fallback CAP d cur' (head_codepoint text)
                             = Ret (d, cur', [])).
  { intros cur'. unfold fallback. apply Nat.leb_le in Hfull.
    rewrite Hfull. reflexivity. }
  assert (Htakes : takes_head CAP render y hh
                     (mk_state d text cur ce cp x w err) 0).
  { split.
    - apply text_loop_ends; [apply state_ok_intro; (assumption || lia)|].
      right. exact Hfull.
    - destruct ce; [apply first_run_kept_after|apply first_run_kept];
        (assumption || lia). }
  split; [apply Hfb|]. split; [assumption|].
  intros Hone. assert (Hz : cur = 0) by lia. rewrite Hz in *. assumption.
Qed.

(** C3.  When no cached font has the codepoint at the head of the text
    and the cache has room, the template of the primary font is matched
    for that codepoint.  If the match names a font that opens and has the
    glyph, the font is appended to the cache, becomes the current font
    and takes the character.  If the font that opens lacks the glyph, or
    the match does not open, the cache stays as it is and the current
    font is set to cache[0], which takes the character.  If nothing
    matches, the cache stays as it is and the character goes to cache[0]
    as well: the search itself leaves the current font alone, and the
    scan that follows, with charexists set, settles on cache[0].  In each
    case [after] is the state in which the search leaves the loop. *)
Theorem fallback_acquisition render y hh d text cur cp x w err f0 template :
  cache_wf CAP d -> cur < fontcount d -> nonnul text = true ->
  found d (head_codepoint text) = None ->
  fontcount d < CAP ->
  fonts d !! 0 = Some (Some f0) -> pattern f0 = Some template ->
  let after d' cur' := mk_state d' text cur' true cp x w err in
  match XftFontMatch template (head_codepoint text) with
  | Some m =>
      match XftFontOpenPattern m with
      | Some xf =>
          if XftCharExists xf (head_codepoint text) then
            exists d',
              fallback CAP d cur (head_codepoint text)
              = Ret (d', fontcount d, []) /\
              fontcount d' = S (fontcount d) /\
              fonts d' !! fontcount d = Some (Some (font_of xf None)) /\
              cache_extends d d' /\
              takes_head CAP render y hh (after d' (fontcount d)) (fontcount d)
          else
            fallback CAP d cur (head_codepoint text) = Ret (d, 0, []) /\
            takes_head CAP render y hh (after d 0) 0
      | None =>
          fallback CAP d cur (head_codepoint text)
          = Ret (d, 0, ["error, cannot load font pattern."%string]) /\
          takes_head CAP render y hh (after d 0) 0
      end
  | None =>
      fallback CAP d cur (head_codepoint text) = Ret (d, cur, []) /\
      takes_head CAP render y hh (after d cur) 0
  end.
Proof.
  intros Hwf Hcur Hnn Hfound Hroom Hf0 Hpat after.
  assert (Hpos : 0 < fontcount d) by lia.
  assert (Ht : primary_template d).
  { intros f Hf. rewrite Hf0 in Hf. injection Hf as <-. congruence. }
  assert (Hends : forall d' cur',
            cache_wf CAP d' -> cache_extends d d' -> cur' < fontcount d' ->
            exists fuel res,
              text_loop CAP render y hh fuel (after d' cur') = Some (Ret res)).
  { intros d' cur' Hwf' Hext Hcur'. apply text_loop_ends.
    - apply state_ok_intro; try assumption. lia.
    - left. exact (primary_template_extends d d' Hpos Hext Ht). }
  assert (Hroom' : (CAP <=? fontcount d) = false) by (apply Nat.leb_gt; assumption).
  assert (Hfb : forall cur',
            fallback CAP d cur' (head_codepoint text)
            = match XftFontMatch template (head_codepoint text) with
              | None => Ret (d, cur', [])
              | Some m =>
                  '(created, msgs) <- drw_font_xcreate d None (Some m) ;;
                  match created with
                  | Some f =>
                      if XftCharExists (xfont f) (head_codepoint text)
                      then d' <- cache_push d f ;; Ret (d', fontcount d, msgs)
                      else Ret (d, 0, msgs)
                  | None => Ret (d, 0, msgs)
                  end
              end).
  { intros cur'. unfold fallback, font_at. rewrite Hroom', Hf0. cbn [bind].
    rewrite Hpat. reflexivity. }
  pose proof (cache_extends_refl d) as Hrefl.
  destruct (XftFontMatch template (head_codepoint text)) as [m|] eqn:Hmatch.
  - unfold drw_font_xcreate in Hfb.
    destruct (XftFontOpenPattern m) as [xf|] eqn:Hopen; cbn [bind] in Hfb.
    + change (xfont (font_of xf None)) with xf in Hfb.
      destruct (XftCharExists xf (head_codepoint text)) eqn:Hex.
      * destruct (cache_push_ok CAP d (font_of xf None) Hwf Hroom (font_of_wf _ _))
          as (d' & Hpush & Hwf' & Hext & Hcnt & Hnew).
        rewrite Hpush in Hfb. cbn [bind] in Hfb.
        exists d'. split; [apply Hfb|]. split; [exact Hcnt|].
        split; [exact Hnew|]. split; [exact Hext|].
        split; [apply Hends; try assumption; lia|].
        apply (first_run_new_after render y hh d d' (font_of xf None));
          auto using font_of_wf.
      * split; [apply Hfb|]. split; [apply Hends; assumption|].
        apply first_run_forced_primary; assumption.
    + split; [apply Hfb|]. split; [apply Hends; assumption|].
      apply first_run_forced_primary; assumption.
  - split; [apply Hfb|]. split; [apply Hends; assumption|].
    apply first_run_kept_after; auto.
Qed.

End ResolveClaims.


(** * More about the codec *)

Section ByteTable.
Local Open Scope Z_scope.

(** A property that a computation confirms for every number below [n]. *)
Lemma forallb_below (P : Z -> bool) (n : nat) :
  forallb P (map Z.of_nat (seq 0 n)) = true ->
  forall z, 0 <= z < Z.of_nat n -> P z = true.
Proof.
  intros Hall z Hz. rewrite forallb_forall in Hall. apply Hall.
  apply in_map_iff. exists (Z.to_nat z). split; [lia|]. apply in_seq. lia.
Qed.

Lemma uchar_range c : 0 <= uchar c < 256.
Proof. unfold uchar. apply Z.mod_pos_bound. lia. Qed.

Lemma uchar_idem c : uchar (uchar c) = uchar c.
Proof. unfold uchar. apply Z.mod_mod. lia. Qed.

Lemma utf8decodebyte_from_uchar n c : forall i,
  utf8decodebyte_from n (uchar c) i = utf8decodebyte_from n c i.
Proof.
  induction n as [|n IH]; intros i; simpl; [reflexivity|].
  rewrite uchar_idem, IH. reflexivity.
Qed.

(** The row and the payload of every byte value. *)
Lemma utf8decodebyte_byte b :
  0 <= b < 256 ->
  utf8decodebyte b =
    if b <? 0x80 then (b, 1%nat)
    else if b <? 0xC0 then (b - 0x80, 0%nat)
    else if b <? 0xE0 then (b - 0xC0, 2%nat)
    else if b <? 0xF0 then (b - 0xE0, 3%nat)
    else if b <? 0xF8 then (b - 0xF0, 4%nat)
    else (0, 5%nat).
Proof.
  intros Hb.
  set (expected := fun b : Z =>
    if b <? 0x80 then (b, 1%nat)
    else if b <? 0xC0 then (b - 0x80, 0%nat)
    else if b <? 0xE0 then (b - 0xC0, 2%nat)
    else if b <? 0xF0 then (b - 0xE0, 3%nat)
    else if b <? 0xF8 then (b - 0xF0, 4%nat)
    else (0, 5%nat)).
  set (same := fun b : Z =>
    (fst (utf8decodebyte b) =? fst (expected b)) &&
    (snd (utf8decodebyte b) =? snd (expected b))%nat).
  assert (Hsame : same b = true).
  { apply (forallb_below same 256); [vm_compute; reflexivity|lia]. }
  unfold same in Hsame. apply andb_true_iff in Hsame as [H1 H2].
  apply Z.eqb_eq in H1. apply Nat.eqb_eq in H2.
  change (utf8decodebyte b = expected b).
  destruct (utf8decodebyte b), (expected b). simpl in *. congruence.
Qed.

Lemma utf8decodebyte_ascii b : 0 <= b < 0x80 -> utf8decodebyte b = (b, 1%nat).
Proof.
  intros Hb. rewrite utf8decodebyte_byte by lia.
  destruct (Z.ltb_spec b 0x80); [reflexivity|lia].
Qed.

Lemma utf8decodebyte_cont b :
  0 <= b < 64 -> utf8decodebyte (0x80 + b) = (b, 0%nat).
Proof.
  intros Hb. rewrite utf8decodebyte_byte by lia.
  destruct (Z.ltb_spec (0x80 + b) 0x80); [lia|].
  destruct (Z.ltb_spec (0x80 + b) 0xC0); [f_equal; lia|lia].
Qed.

Lemma utf8decodebyte_lead2 a :
  0 <= a < 32 -> utf8decodebyte (0xC0 + a) = (a, 2%nat).
Proof.
  intros Ha. rewrite utf8decodebyte_byte by lia.
  destruct (Z.ltb_spec (0xC0 + a) 0x80); [lia|].
  destruct (Z.ltb_spec (0xC0 + a) 0xC0); [lia|].
  destruct (Z.ltb_spec (0xC0 + a) 0xE0); [f_equal; lia|lia].
Qed.

Lemma utf8decodebyte_lead3 a :
  0 <= a < 16 -> utf8decodebyte (0xE0 + a) = (a, 3%nat).
Proof.
  intros Ha. rewrite utf8decodebyte_byte by lia.
  destruct (Z.ltb_spec (0xE0 + a) 0x80); [lia|].
  destruct (Z.ltb_spec (0xE0 + a) 0xC0); [lia|].
  destruct (Z.ltb_spec (0xE0 + a) 0xE0); [lia|].
  destruct (Z.ltb_spec (0xE0 + a) 0xF0); [f_equal; lia|lia].
Qed.

Lemma utf8decodebyte_lead4 a :
  0 <= a < 8 -> utf8decodebyte (0xF0 + a) = (a, 4%nat).
Proof.
  intros Ha. rewrite utf8decodebyte_byte by lia.
  destruct (Z.ltb_spec (0xF0 + a) 0x80); [lia|].
  destruct (Z.ltb_spec (0xF0 + a) 0xC0); [lia|].
  destruct (Z.ltb_spec (0xF0 + a) 0xE0); [lia|].
  destruct (Z.ltb_spec (0xF0 + a) 0xF0); [lia|].
  destruct (Z.ltb_spec (0xF0 + a) 0xF8); [f_equal; lia|lia].
Qed.

(** Six payload bits shifted in below a value. *)
Lemma shift_in_six a b :
  0 <= a -> 0 <= b < 64 -> Z.lor (Z.shiftl a 6) b = 64 * a + b.
Proof.
  intros Ha Hb. rewrite Z.shiftl_mul_pow2 by lia.
  assert (Hland : Z.land (a * 2 ^ 6) b = 0).
  { apply Z.bits_inj'. intros n Hn. rewrite Z.land_spec, Z.bits_0.
    destruct (Z.lt_ge_cases n 6) as [Hlt|Hge].
    - rewrite Z.mul_pow2_bits_low by lia. reflexivity.
    - rewrite (Z.bits_above_log2 b n), andb_false_r; [reflexivity|lia|].
      destruct (Z.eq_dec b 0) as [->|Hnz]; [simpl; lia|].
      apply Z.log2_lt_pow2; [lia|].
      apply Z.lt_le_trans with (2 ^ 6); [lia|].
      apply Z.pow_le_mono_r; lia. }
  rewrite <- Z.lxor_lor by assumption.
  rewrite <- Z.add_nocarry_lxor by assumption. lia.
Qed.

End ByteTable.

Section CodecLaws.
Local Open Scope Z_scope.

(** What the continuation loop returns, started with [i = j]. *)
Lemma utf8decode_loop_spec n c clen len : forall u j,
  match utf8decode_loop n c clen len u j j with
  | inl r =>
      (j <= r < len)%nat /\ (r < clen)%nat /\
      (forall i, (j <= i < r)%nat -> is_continuation (nth i c 0)) /\
      ~ is_continuation (nth r c 0)
  | inr (_, r) =>
      (j <= r)%nat /\
      (forall i, (j <= i < r)%nat -> is_continuation (nth i c 0)) /\
      (r = j + n \/ clen <= r \/ len <= r)%nat /\
      ((j <= clen)%nat -> (r <= clen)%nat) /\
      ((j <= len)%nat -> (r <= len)%nat)
  end.
Proof.
  induction n as [|n IH]; intros u j; simpl.
  - split; [lia|]. split; [intros; lia|]. split; [lia|]. split; intros; lia.
  - destruct (Nat.ltb_spec j clen) as [Hc|Hc];
      destruct (Nat.ltb_spec j len) as [Hl|Hl]; simpl;
      try (split; [lia|]; split; [intros; lia|]; split; [lia|]; split; intros; lia).
    destruct (utf8decodebyte (nth j c 0)) as [bits type] eqn:Hb.
    destruct (type =? 0)%nat eqn:Ht; simpl.
    + apply Nat.eqb_eq in Ht. subst type.
      specialize (IH (Z.lor (Z.shiftl u 6) bits) (S j)).
      assert (Hj : is_continuation (nth j c 0))
        by (unfold is_continuation; rewrite Hb; reflexivity).
      destruct (utf8decode_loop n c clen len (Z.lor (Z.shiftl u 6) bits) (S j) (S j))
        as [r|[u' r]].
      * destruct IH as (H1 & H2 & H3 & H4).
        split; [lia|]. split; [lia|]. split; [|assumption].
        intros i Hi. destruct (Nat.eq_dec i j) as [->|Hne]; [assumption|].
        apply H3. lia.
      * destruct IH as (H1 & H2 & H3 & H4 & H5).
        split; [lia|]. split.
        { intros i Hi. destruct (Nat.eq_dec i j) as [->|Hne]; [assumption|].
          apply H2. lia. }
        split; [lia|]. split; intros; [apply H4|apply H5]; lia.
    + apply Nat.eqb_neq in Ht.
      split; [lia|]. split; [lia|]. split; [intros; lia|].
      unfold is_continuation. rewrite Hb. simpl. assumption.
Qed.

(** The loop stops at the first byte that is no continuation byte. *)
Lemma utf8decode_loop_stops c clen len r : forall n u j,
  (j <= r)%nat -> (r - j < n)%nat -> (r < clen)%nat -> (r < len)%nat ->
  (forall i, (j <= i < r)%nat -> is_continuation (nth i c 0)) ->
  ~ is_continuation (nth r c 0) ->
  utf8decode_loop n c clen len u j j = inl r.
Proof.
  induction n as [|n IH]; intros u j Hj Hn Hc Hl Hcont Hbad; [lia|].
  simpl.
  assert (H1 : (j <? clen)%nat = true) by (apply Nat.ltb_lt; lia).
  assert (H2 : (j <? len)%nat = true) by (apply Nat.ltb_lt; lia).
  rewrite H1, H2. simpl.
  destruct (utf8decodebyte (nth j c 0)) as [bits type] eqn:Hb.
  destruct (Nat.eq_dec j r) as [->|Hne].
  - unfold is_continuation in Hbad. rewrite Hb in Hbad. simpl in Hbad.
    apply Nat.eqb_neq in Hbad. rewrite Hbad. reflexivity.
  - pose proof (Hcont j ltac:(lia)) as Hcj.
    unfold is_continuation in Hcj. rewrite Hb in Hcj. simpl in Hcj. subst type.
    simpl. apply IH; try lia; try assumption.
    intros i Hi. apply Hcont. lia.
Qed.

(** A complete sequence: the scalar is collected and validated. *)
Lemma utf8decode_complete c clen :
  (1 <= utf8_announced c <= UTF_SIZ)%nat ->
  (utf8_announced c <= clen)%nat ->
  (forall i, (1 <= i < utf8_announced c)%nat -> is_continuation (nth i c 0)) ->
  utf8decode c clen
  = (fst (utf8validate (utf8_scalar c (utf8_announced c)) (utf8_announced c)),
     utf8_announced c).
Proof.
  intros Hlen Hclen Hcont.
  pose proof (utf8decode_loop_full c clen _ Hlen Hclen Hcont) as Hloop.
  unfold utf8decode. unfold utf8_announced in *.
  destruct (clen =? 0)%nat eqn:H0; [apply Nat.eqb_eq in H0; lia|].
  destruct (utf8decodebyte (nth 0 c 0)) as [u0 len]. cbn [fst snd] in *.
  rewrite BETWEEN_len by assumption. cbn [negb]. rewrite Hloop.
  rewrite Nat.ltb_irrefl. reflexivity.
Qed.

Lemma utf8validate_keeps u i :
  utfmin i <= u <= utfmax i -> ~ 0xD800 <= u <= 0xDFFF ->
  fst (utf8validate u i) = u.
Proof.
  intros Hin Hsur. unfold utf8validate. cbn [fst].
  assert (H1 : BETWEEN u (utfmin i) (utfmax i) = true) by (apply BETWEEN_true; lia).
  assert (H2 : BETWEEN u 0xD800 0xDFFF = false) by (apply BETWEEN_false; lia).
  rewrite H1, H2. reflexivity.
Qed.

(** X1.  [utf8decodebyte] sorts every byte, taken as an unsigned char,
    into its row and strips the marker bits: an ASCII byte is row 1 with
    itself as payload, a byte 0x80-0xBF a continuation byte (row 0) with
    six payload bits, 0xC0-0xDF, 0xE0-0xEF and 0xF0-0xF7 the lead bytes of
    rows 2, 3 and 4 with five, four and three payload bits, and for the
    bytes 0xF8-0xFF, which no row matches, the index runs out of the
    table to 5 and the payload is 0. *)
Theorem utf8decodebyte_rows c :
  utf8decodebyte c =
    let b := uchar c in
    if b <? 0x80 then (b, 1%nat)
    else if b <? 0xC0 then (b - 0x80, 0%nat)
    else if b <? 0xE0 then (b - 0xC0, 2%nat)
    else if b <? 0xF0 then (b - 0xE0, 3%nat)
    else if b <? 0xF8 then (b - 0xF0, 4%nat)
    else (0, 5%nat).
Proof.
  cbv zeta. rewrite <- utf8decodebyte_byte by apply uchar_range.
  unfold utf8decodebyte. symmetry. apply utf8decodebyte_from_uchar.
Qed.

(** X2.  Every Unicode scalar value, written in its UTF-8 form of one to
    four bytes, is decoded to itself, and the count returned is the
    length of that form, whatever follows it, as long as [clen] lets the
    whole form be read. *)
Theorem utf8decode_well_formed rest clen :
  (forall u, 0 <= u <= 0x7F -> (1 <= clen)%nat ->
     utf8decode (u :: rest) clen = (u, 1%nat)) /\
  (forall u, 0x80 <= u <= 0x7FF -> (2 <= clen)%nat ->
     utf8decode (0xC0 + u / 64 :: 0x80 + u mod 64 :: rest) clen = (u, 2%nat)) /\
  (forall u, 0x800 <= u <= 0xFFFF -> ~ 0xD800 <= u <= 0xDFFF -> (3 <= clen)%nat ->
     utf8decode (0xE0 + u / 4096 :: 0x80 + (u / 64) mod 64 :: 0x80 + u mod 64
                 :: rest) clen = (u, 3%nat)) /\
  (forall u, 0x10000 <= u <= 0x10FFFF -> (4 <= clen)%nat ->
     utf8decode (0xF0 + u / 262144 :: 0x80 + (u / 4096) mod 64
                 :: 0x80 + (u / 64) mod 64 :: 0x80 + u mod 64 :: rest) clen
     = (u, 4%nat)).
Proof.
  split; [|split; [|split]].
  - intros u Hu Hclen.
    assert (Hlead : utf8decodebyte u = (u, 1%nat)) by (apply utf8decodebyte_ascii; lia).
    rewrite utf8decode_complete; unfold utf8_announced; cbn [nth]; rewrite Hlead;
      cbn [fst snd]; [|unfold UTF_SIZ; lia|lia|intros; lia].
    unfold utf8_scalar. cbn [nth Nat.sub seq fold_left]. rewrite Hlead. cbn [fst].
    rewrite utf8validate_keeps; [reflexivity|unfold utfmin, utfmax; simpl; lia|lia].
  - intros u Hu Hclen.
    assert (Ha : 0 <= u / 64 < 32)
      by (split; [apply Z.div_pos; lia|apply Z.div_lt_upper_bound; lia]).
    pose proof (Z.mod_pos_bound u 64 ltac:(lia)) as Hb.
    assert (Hlead : utf8decodebyte (0xC0 + u / 64) = (u / 64, 2%nat))
      by (apply utf8decodebyte_lead2; lia).
    assert (H1 : utf8decodebyte (0x80 + u mod 64) = (u mod 64, 0%nat))
      by (apply utf8decodebyte_cont; lia).
    rewrite utf8decode_complete; unfold utf8_announced; cbn [nth]; rewrite Hlead;
      cbn [fst snd]; [|unfold UTF_SIZ; lia|lia|].
    + unfold utf8_scalar. cbn [nth Nat.sub seq fold_left]. rewrite Hlead, H1. cbn [fst].
      rewrite shift_in_six by lia.
      replace (64 * (u / 64) + u mod 64) with u by (rewrite (Z.div_mod u 64) at 1; lia).
      rewrite utf8validate_keeps; [reflexivity|unfold utfmin, utfmax; simpl; lia|lia].
    + intros i Hi. assert (i = 1%nat) as -> by lia. unfold is_continuation.
      cbn [nth]. rewrite H1. reflexivity.
  - intros u Hu Hsur Hclen.
    assert (Ha : 0 <= u / 4096 < 16)
      by (split; [apply Z.div_pos; lia|apply Z.div_lt_upper_bound; lia]).
    pose proof (Z.mod_pos_bound (u / 64) 64 ltac:(lia)) as Hb.
    pose proof (Z.mod_pos_bound u 64 ltac:(lia)) as Hc.
    assert (Hlead : utf8decodebyte (0xE0 + u / 4096) = (u / 4096, 3%nat))
      by (apply utf8decodebyte_lead3; lia).
    assert (H1 : utf8decodebyte (0x80 + (u / 64) mod 64) = ((u / 64) mod 64, 0%nat))
      by (apply utf8decodebyte_cont; lia).
    assert (H2 : utf8decodebyte (0x80 + u mod 64) = (u mod 64, 0%nat))
      by (apply utf8decodebyte_cont; lia).
    rewrite utf8decode_complete; unfold utf8_announced; cbn [nth]; rewrite Hlead;
      cbn [fst snd]; [|unfold UTF_SIZ; lia|lia|].
    + unfold utf8_scalar. cbn [nth Nat.sub seq fold_left].
      rewrite Hlead, H1, H2. cbn [fst].
      rewrite (shift_in_six (u / 4096)) by lia.
      rewrite shift_in_six by lia.
      assert (Heq : 64 * (64 * (u / 4096) + (u / 64) mod 64) + u mod 64 = u).
      { pose proof (Z.div_mod u 64 ltac:(lia)) as E1.
        pose proof (Z.div_mod (u / 64) 64 ltac:(lia)) as E2.
        rewrite Z.div_div in E2 by lia. change (64 * 64) with 4096 in E2. lia. }
      rewrite Heq.
      rewrite utf8validate_keeps; [reflexivity|unfold utfmin, utfmax; simpl; lia|lia].
    + intros i Hi. assert (i = 1 \/ i = 2)%nat as [-> | ->] by lia;
        unfold is_continuation; cbn [nth]; [rewrite H1|rewrite H2]; reflexivity.
  - intros u Hu Hclen.
    assert (Ha : 0 <= u / 262144 < 8)
      by (split; [apply Z.div_pos; lia|apply Z.div_lt_upper_bound; lia]).
    pose proof (Z.mod_pos_bound (u / 4096) 64 ltac:(lia)) as Hb.
    pose proof (Z.mod_pos_bound (u / 64) 64 ltac:(lia)) as Hc.
    pose proof (Z.mod_pos_bound u 64 ltac:(lia)) as Hd.
    assert (Hlead : utf8decodebyte (0xF0 + u / 262144) = (u / 262144, 4%nat))
      by (apply utf8decodebyte_lead4; lia).
    assert (H1 : utf8decodebyte (0x80 + (u / 4096) mod 64)
                 = ((u / 4096) mod 64, 0%nat))
      by (apply utf8decodebyte_cont; lia).
    assert (H2 : utf8decodebyte (0x80 + (u / 64) mod 64) = ((u / 64) mod 64, 0%nat))
      by (apply utf8decodebyte_cont; lia).
    assert (H3 : utf8decodebyte (0x80 + u mod 64) = (u mod 64, 0%nat))
      by (apply utf8decodebyte_cont; lia).
    rewrite utf8decode_complete; unfold utf8_announced; cbn [nth]; rewrite Hlead;
      cbn [fst snd]; [|unfold UTF_SIZ; lia|lia|].
    + unfold utf8_scalar. cbn [nth Nat.sub seq fold_left].
      rewrite Hlead, H1, H2, H3. cbn [fst].
      rewrite (shift_in_six (u / 262144)) by lia.
      rewrite (shift_in_six (64 * (u / 262144) + (u / 4096) mod 64)) by lia.
      rewrite shift_in_six by lia.
      assert (Heq : 64 * (64 * (64 * (u / 262144) + (u / 4096) mod 64)
                          + (u / 64) mod 64) + u mod 64 = u).
      { pose proof (Z.div_mod u 64 ltac:(lia)) as E1.
        pose proof (Z.div_mod (u / 64) 64 ltac:(lia)) as E2.
        pose proof (Z.div_mod (u / 4096) 64 ltac:(lia)) as E3.
        rewrite Z.div_div in E2 by lia. change (64 * 64) with 4096 in E2.
        rewrite Z.div_div in E3 by lia. change (4096 * 64) with 262144 in E3. lia. }
      rewrite Heq.
      rewrite utf8validate_keeps; [reflexivity|unfold utfmin, utfmax; simpl; lia|lia].
    + intros i Hi. assert (i = 1 \/ i = 2 \/ i = 3)%nat as [-> | [-> | ->]] by lia;
        unfold is_continuation; cbn [nth]; [rewrite H1|rewrite H2|rewrite H3];
        reflexivity.
Qed.


Lemma utfmax_row n : (1 <= n <= UTF_SIZ)%nat -> 0 <= utfmin n /\ utfmax n <= 0x10FFFF.
Proof.
  unfold UTF_SIZ. intros Hn.
  destruct n as [|[|[|[|[|n]]]]]; try lia; unfold utfmin, utfmax; simpl; lia.
Qed.

(** X3.  Whatever the bytes and whatever [clen], the value that
    [utf8decode] leaves in [*u] is a Unicode scalar value: it lies between
    0 and 0x10FFFF and is no surrogate.  When it is not the replacement
    value 0xFFFD, the count returned is the length of a sequence of 1 to 4
    bytes and the value lies in the range of that length, so that no
    overlong form is ever taken for the value it spells. *)
Theorem utf8decode_scalar_value c clen :
  let u := fst (utf8decode c clen) in
  let n := snd (utf8decode c clen) in
  0 <= u <= 0x10FFFF /\ ~ 0xD800 <= u <= 0xDFFF /\
  (u <> UTF_INVALID -> (1 <= n <= UTF_SIZ)%nat /\ utfmin n <= u <= utfmax n).
Proof.
  cbv zeta. unfold utf8decode.
  assert (Hinv : 0 <= UTF_INVALID <= 0x10FFFF /\ ~ 0xD800 <= UTF_INVALID <= 0xDFFF)
    by (unfold UTF_INVALID; lia).
  destruct (clen =? 0)%nat; cbn [fst snd]; [intuition congruence|].
  destruct (utf8decodebyte (nth 0 c 0)) as [u0 len].
  destruct (BETWEEN (Z.of_nat len) 1 (Z.of_nat UTF_SIZ)) eqn:Hb; cbn [negb fst snd];
    [|intuition congruence].
  apply BETWEEN_true in Hb.
  assert (Hlen : (1 <= len <= UTF_SIZ)%nat) by lia.
  destruct (utf8decode_loop UTF_SIZ c clen len u0 1 1) as [r|[u' r]];
    cbn [fst snd]; [intuition congruence|].
  destruct (r <? len)%nat; cbn [fst snd]; [intuition congruence|].
  unfold utf8validate. cbn [fst].
  destruct (BETWEEN u' (utfmin len) (utfmax len)) eqn:Hin; cbn [negb orb];
    [|intuition congruence].
  destruct (BETWEEN u' 0xD800 0xDFFF) eqn:Hsur; [intuition congruence|].
  apply BETWEEN_true in Hin. apply BETWEEN_false in Hsur.
  pose proof (utfmax_row len Hlen) as Hrow.
  split; [lia|]. split; [lia|]. intros _. split; [assumption|lia].
Qed.

(** X4.  [utf8decode] never claims more bytes than [clen] allows, nor
    more than UTF_SIZ.  It returns 0 in two cases only: no byte may be
    read at all, or the lead byte announces a longer sequence than
    [clen] and every byte that may be read after it is a continuation
    byte - the sequence is cut off, not malformed. *)
Theorem utf8decode_count c clen :
  (snd (utf8decode c clen) <= clen)%nat /\
  (snd (utf8decode c clen) <= UTF_SIZ)%nat /\
  (snd (utf8decode c clen) = 0%nat <->
   clen = 0%nat \/
   ((1 <= utf8_announced c <= UTF_SIZ)%nat /\ (clen < utf8_announced c)%nat /\
    forall i, (1 <= i < clen)%nat -> is_continuation (nth i c 0))).
Proof.
  unfold utf8decode, utf8_announced.
  destruct (Nat.eqb_spec clen 0) as [->|Hclen]; cbn [snd].
  { split; [lia|]. split; [lia|]. split; [intros _; left; reflexivity|reflexivity]. }
  destruct (utf8decodebyte (nth 0 c 0)) as [u0 len]. cbn [snd].
  destruct (BETWEEN (Z.of_nat len) 1 (Z.of_nat UTF_SIZ)) eqn:Hb; cbn [negb snd].
  2:{ apply BETWEEN_false in Hb. unfold UTF_SIZ in *.
      split; [lia|]. split; [lia|]. split; [discriminate|].
      intros [H0|(H1 & _)]; lia. }
  apply BETWEEN_true in Hb.
  assert (Hlen : (1 <= len <= UTF_SIZ)%nat) by lia.
  pose proof (utf8decode_loop_spec UTF_SIZ c clen len u0 1) as Hspec.
  destruct (utf8decode_loop UTF_SIZ c clen len u0 1 1) as [r|[u' r]] eqn:Hloop;
    cbn [snd].
  - destruct Hspec as (H1 & H2 & H3 & H4).
    split; [lia|]. split; [lia|]. split; [lia|].
    intros [H0|(_ & Hcut & Hcont)]; [lia|].
    exfalso. apply H4. apply Hcont. lia.
  - destruct Hspec as (H1 & H2 & H3 & H4 & H5).
    specialize (H4 ltac:(lia)). specialize (H5 ltac:(lia)).
    destruct (Nat.ltb_spec r len) as [Hr|Hr]; cbn [snd].
    + split; [lia|]. split; [lia|]. split; [|reflexivity]. intros _. right.
      assert (r = clen) as -> by (unfold UTF_SIZ in *; lia).
      split; [assumption|]. split; [assumption|]. exact H2.
    + split; [lia|]. split; [lia|]. split; [lia|].
      intros [H0|(_ & Hcut & _)]; lia.
Qed.

(** X5.  A sequence that is broken off by a byte that is no continuation
    byte is given up at that byte: [utf8decode] leaves the replacement
    value and returns the number of bytes before the offending one, so
    that the caller goes on from the byte that broke the sequence. *)
Theorem utf8decode_resync c clen j :
  (1 <= j < utf8_announced c)%nat -> (utf8_announced c <= UTF_SIZ)%nat ->
  (j < clen)%nat ->
  (forall i, (1 <= i < j)%nat -> is_continuation (nth i c 0)) ->
  ~ is_continuation (nth j c 0) ->
  utf8decode c clen = (UTF_INVALID, j).
Proof.
  unfold utf8decode, utf8_announced. intros Hj Hlen Hclen Hcont Hbad.
  destruct (Nat.eqb_spec clen 0) as [->|_]; [lia|].
  destruct (utf8decodebyte (nth 0 c 0)) as [u0 len]. cbn [snd] in *.
  rewrite BETWEEN_len by lia. cbn [negb].
  rewrite (utf8decode_loop_stops c clen len j);
    [reflexivity|lia|unfold UTF_SIZ in *; lia|lia|lia|assumption|assumption].
Qed.

Lemma nth_app_nul (p rest : list Z) i :
  (i <= length p)%nat -> nth i (p ++ 0 :: rest) 0 = nth i p 0.
Proof.
  intros Hi. destruct (Nat.eq_dec i (length p)) as [->|Hne].
  - rewrite app_nth2, Nat.sub_diag by lia. simpl.
    rewrite nth_overflow by lia. reflexivity.
  - apply app_nth1. lia.
Qed.

Lemma utf8decode_loop_nul (p rest : list Z) clen len : forall n u j,
  (1 <= j <= length p)%nat ->
  utf8decode_loop n (p ++ 0 :: rest) clen len u j j
  = utf8decode_loop n p clen len u j j.
Proof.
  induction n as [|n IH]; intros u j Hj; simpl; [reflexivity|].
  destruct ((j <? clen)%nat && (j <? len)%nat); [|reflexivity].
  rewrite nth_app_nul by lia.
  destruct (utf8decodebyte (nth j p 0)) as [bits type] eqn:Hb.
  destruct (Nat.eqb_spec type 0) as [->|Hne]; simpl; [|reflexivity].
  apply IH. destruct (Nat.eq_dec j (length p)) as [Heq|Hneq]; [|lia].
  rewrite Heq, nth_overflow in Hb by lia. discriminate Hb.
Qed.

Lemma utf8decode_loop_one n c clen u :
  utf8decode_loop n c clen 1 u 1 1 = inr (u, 1%nat).
Proof. destruct n; simpl; [reflexivity|]. rewrite andb_false_r. reflexivity. Qed.

(** X6.  [utf8decode] reads no byte behind a NUL: with [clen] at 4 and
    fewer bytes left in the string, what lies after the terminating NUL
    has no part in the result, and unless the NUL is the first byte the
    count returned stays within the bytes before it. *)
Theorem utf8decode_stops_at_nul p rest clen :
  utf8decode (p ++ 0 :: rest) clen = utf8decode (p ++ [0]) clen /\
  (p <> [] -> (snd (utf8decode (p ++ 0%Z :: rest) clen) <= length p)%nat).
Proof.
  assert (Hsame : forall rest', utf8decode (p ++ 0 :: rest') clen = utf8decode p clen).
  { intros rest'. unfold utf8decode. destruct (clen =? 0)%nat; [reflexivity|].
    rewrite nth_app_nul by lia.
    destruct (utf8decodebyte (nth 0 p 0)) as [u0 len] eqn:Hb.
    destruct (negb (BETWEEN (Z.of_nat len) 1 (Z.of_nat UTF_SIZ))); [reflexivity|].
    destruct p as [|b p'].
    - simpl in Hb. injection Hb as <- <-. rewrite !utf8decode_loop_one. reflexivity.
    - rewrite utf8decode_loop_nul by (simpl; lia). reflexivity. }
  split; [rewrite !Hsame; reflexivity|].
  intros Hp. rewrite Hsame. unfold utf8decode.
  assert (Hpos : (1 <= length p)%nat) by (destruct p; simpl; [congruence|lia]).
  destruct (clen =? 0)%nat; cbn [snd]; [lia|].
  destruct (utf8decodebyte (nth 0 p 0)) as [u0 len].
  destruct (BETWEEN (Z.of_nat len) 1 (Z.of_nat UTF_SIZ)); cbn [negb snd]; [|lia].
  pose proof (utf8decode_loop_within UTF_SIZ p clen len u0 1 Hpos) as Hin.
  pose proof (utf8decode_loop_spec UTF_SIZ p clen len u0 1) as Hspec.
  destruct (utf8decode_loop UTF_SIZ p clen len u0 1 1) as [r|[u' r]]; cbn [snd]; [lia|].
  destruct (Nat.ltb_spec r len) as [Hr|Hr]; cbn [snd]; [lia|].
  destruct Hspec as (_ & _ & _ & _ & H5).
  destruct (Nat.le_gt_cases 1 len) as [Hl|Hl]; [specialize (H5 Hl); lia|lia].
Qed.

Lemma utf8validate_count_least u : forall n i,
  (forall k, (1 <= k < i)%nat -> utfmax k < u) ->
  let r := utf8validate_count n u i in
  (i <= r <= i + n)%nat /\
  (forall k, (1 <= k < r)%nat -> utfmax k < u) /\
  ((r < i + n)%nat -> u <= utfmax r).
Proof.
  induction n as [|n IH]; intros i Hbelow; cbv zeta; simpl.
  - split; [lia|]. split; [assumption|lia].
  - destruct (Z.gtb_spec u (utfmax i)) as [Hgt|Hle].
    + destruct (IH (S i)) as (H1 & H2 & H3).
      { intros k Hk. destruct (Nat.eq_dec k i) as [->|Hne]; [lia|].
        apply Hbelow. lia. }
      split; [lia|]. split; [assumption|]. intros Hr. apply H3. lia.
    + split; [lia|]. split; [assumption|]. intros _. lia.
Qed.

(** X7.  For a row [i] of the table, [utf8validate] keeps a value that
    lies in the range of row [i] and is no surrogate, and replaces every
    other value by 0xFFFD.  The count it returns is the length, 1 to 4,
    of the shortest UTF-8 form of the value it leaves: its counting loop
    ends inside the table [utfmax]. *)
Theorem utf8validate_shortest u i :
  (i <= UTF_SIZ)%nat ->
  let u' := fst (utf8validate u i) in
  let n := snd (utf8validate u i) in
  (utfmin i <= u <= utfmax i /\ ~ 0xD800 <= u <= 0xDFFF -> u' = u) /\
  (~ (utfmin i <= u <= utfmax i /\ ~ 0xD800 <= u <= 0xDFFF) -> u' = UTF_INVALID) /\
  (1 <= n <= UTF_SIZ)%nat /\
  u' <= utfmax n /\
  (forall k, (1 <= k < n)%nat -> utfmax k < u').
Proof.
  intros Hi. cbv zeta. unfold utf8validate. cbn [fst snd].
  set (u' := if negb (BETWEEN u (utfmin i) (utfmax i)) || BETWEEN u 0xD800 0xDFFF
             then UTF_INVALID else u).
  assert (Hu' : (utfmin i <= u <= utfmax i /\ ~ 0xD800 <= u <= 0xDFFF -> u' = u) /\
                (~ (utfmin i <= u <= utfmax i /\ ~ 0xD800 <= u <= 0xDFFF) ->
                 u' = UTF_INVALID) /\
                u' <= 0x10FFFF).
  { unfold u'.
    assert (Hmax : utfmax i <= 0x10FFFF).
    { unfold UTF_SIZ in Hi.
      destruct i as [|[|[|[|[|i]]]]]; try lia; unfold utfmax; simpl; lia. }
    destruct (BETWEEN u (utfmin i) (utfmax i)) eqn:Hin; cbn [negb orb].
    - apply BETWEEN_true in Hin.
      destruct (BETWEEN u 0xD800 0xDFFF) eqn:Hsur.
      + apply BETWEEN_true in Hsur. unfold UTF_INVALID.
        split; [lia|]. split; [reflexivity|lia].
      + apply BETWEEN_false in Hsur. split; [reflexivity|]. split; [|lia].
        intros Hn. exfalso. apply Hn. lia.
    - apply BETWEEN_false in Hin. unfold UTF_INVALID.
      split; [lia|]. split; [reflexivity|lia]. }
  destruct Hu' as (Hkeep & Hrepl & Hle).
  split; [assumption|]. split; [assumption|].
  destruct (utf8validate_count_least u' UTF_SIZ 1) as (H1 & H2 & H3);
    [intros; lia|].
  set (n := utf8validate_count UTF_SIZ u' 1) in *.
  assert (Hn : (n <= UTF_SIZ)%nat).
  { destruct (Nat.le_gt_cases n UTF_SIZ) as [Hok|Hbig]; [assumption|].
    exfalso. specialize (H2 4%nat ltac:(unfold UTF_SIZ in *; lia)).
    unfold utfmax in H2. simpl in H2. lia. }
  split; [lia|]. split; [|assumption].
  apply H3. unfold UTF_SIZ in *. lia.
Qed.

(** X26.  A byte that cannot begin a sequence - a continuation byte
    0x80-0xBF or one of the bytes 0xF8-0xFF - is stepped over on its
    own: [utf8decode] leaves the replacement value and returns 1, so
    that a text of stray bytes is laid out one U+FFFD at a time. *)
Theorem utf8decode_stray_byte b rest clen :
  0x80 <= uchar b < 0xC0 \/ 0xF8 <= uchar b <= 0xFF -> (1 <= clen)%nat ->
  utf8decode (b :: rest) clen = (UTF_INVALID, 1%nat).
Proof.
  intros Hb Hclen. unfold utf8decode.
  destruct (Nat.eqb_spec clen 0) as [->|_]; [lia|].
  cbn [nth]. unfold utf8decodebyte. rewrite <- utf8decodebyte_from_uchar.
  change (utf8decodebyte_from (UTF_SIZ + 1) (uchar b) 0)
    with (utf8decodebyte (uchar b)).
  rewrite utf8decodebyte_byte by apply uchar_range.
  destruct (Z.ltb_spec (uchar b) 0x80); [lia|].
  destruct (Z.ltb_spec (uchar b) 0xC0); [reflexivity|].
  destruct (Z.ltb_spec (uchar b) 0xE0); [lia|].
  destruct (Z.ltb_spec (uchar b) 0xF0); [lia|].
  destruct (Z.ltb_spec (uchar b) 0xF8); [lia|reflexivity].
Qed.

End CodecLaws.


(** * More about the font cache *)

Section CacheLaws.
Context `{XftLib}.
Variable CAP : nat.

Lemma drw_font_xcreate_name d name pat :
  drw_font_xcreate d (Some name) pat
  = Ret match named_font name with
        | Some f => (Some f, [])
        | None => (None, [cannot_load name])
        end.
Proof.
  unfold drw_font_xcreate, named_font.
  destruct (XftFontOpenName name); [|reflexivity].
  destruct (FcNameParse name); reflexivity.
Qed.

Lemma cache_push_fonts d f d' :
  cache_push d f = Ret d' ->
  fontcount d' = S (fontcount d) /\ scheme d' = scheme d /\
  fonts d' = <[fontcount d := Some f]> (fonts d) /\
  fontcount d < length (fonts d).
Proof.
  unfold cache_push. destruct (Nat.ltb_spec (fontcount d) (length (fonts d)));
    [|discriminate].
  intros [= <-]. simpl. auto.
Qed.

(** X10.  While there is room for every name of the batch,
    [drw_load_fonts] returns: the fonts that load are appended to the
    slots in use in the order of their names, every other slot is as it
    was, the scheme is kept, and for each name that does not load there
    is one line on stderr, in the order of the names. *)
Theorem drw_load_fonts_in_order names : forall d,
  cache_wf CAP d -> fontcount d + length names <= CAP ->
  exists d',
    drw_load_fonts CAP d (map Some names)
    = Ret (d', map cannot_load (unloadable names)) /\
    fontcount d' = fontcount d + length (omap named_font names) /\
    scheme d' = scheme d /\
    fonts d'
    = take (fontcount d) (fonts d) ++ map Some (omap named_font names)
      ++ drop (fontcount d + length (omap named_font names)) (fonts d).
Proof.
  induction names as [|name names IH]; intros d Hwf Hroom.
  - exists d. simpl. split; [reflexivity|]. split; [lia|]. split; [reflexivity|].
    rewrite Nat.add_0_r, take_drop. reflexivity.
  - simpl in Hroom. cbn [map drw_load_fonts].
    destruct (Nat.leb_spec CAP (fontcount d)) as [Hfull|Hfree]; [lia|].
    rewrite drw_font_xcreate_name. unfold unloadable. cbn [omap list_omap List.filter].
    fold (omap named_font names). fold (unloadable names).
    destruct (named_font name) as [f|] eqn:Hname.
    + assert (Hf : font_wf f).
      { unfold named_font in Hname.
        destruct (XftFontOpenName name); [|discriminate].
        destruct (FcNameParse name); [|discriminate].
        injection Hname as <-. apply font_of_wf. }
      destruct (cache_push_ok CAP d f Hwf Hfree Hf)
        as (d1 & Hpush & Hwf1 & Hext & Hcount & Hslot).
      destruct (cache_push_fonts d f d1 Hpush) as (_ & Hscm & Hfonts & Hlen).
      destruct (IH d1 Hwf1 ltac:(lia)) as (d' & Hload & Hc' & Hs' & Hf').
      exists d'. cbn [bind]. rewrite Hpush. cbn [bind]. rewrite Hload. cbn [bind].
      split; [reflexivity|]. cbn [length].
      split; [lia|]. split; [congruence|].
      rewrite Hf', Hcount, Hfonts.
      rewrite (take_S_r _ _ (Some f)) by (apply list_lookup_insert_eq; assumption).
      rewrite take_insert_ge by lia.
      rewrite drop_insert_lt by lia.
      rewrite <- app_assoc. cbn [app map].
      replace (fontcount d + S (length (omap named_font names)))
        with (S (fontcount d) + length (omap named_font names)) by lia.
      reflexivity.
    + destruct (IH d Hwf ltac:(lia)) as (d' & Hload & Hc' & Hs' & Hf').
      exists d'. cbn [bind]. rewrite Hload. cbn [bind map app].
      split; [reflexivity|]. split; [assumption|]. split; assumption.
Qed.

Lemma api_surface_ok d : api_surface CAP d -> surface_ok CAP d.
Proof.
  induction 1 as [|d names d' msgs _ IH Hload|d scm _ IH
                 |d x y w hh text invert r d' _ IH Htext Hres].
  - apply drw_create_ok.
  - pose proof (drw_load_fonts_keeps_surface CAP names d IH) as Hkeep.
    rewrite Hload in Hkeep. exact Hkeep.
  - apply drw_setscheme_ok. assumption.
  - pose proof (drw_text_keeps_surface CAP d x y w hh text invert IH) as Hkeep.
    rewrite Htext in Hkeep. simpl in Hkeep. rewrite Hres in Hkeep. exact Hkeep.
Qed.

(** X11.  A surface that a client has made with [drw_create] and has
    since only passed to [drw_load_fonts], [drw_setscheme] and
    [drw_text] keeps the cache in order, with a primary font that was
    loaded from a font string.  On such a surface every call of
    [drw_text] returns - the [die] about the first font of the cache is
    never reached, nothing is read through a NULL slot - and
    [drw_load_fonts] ends by returning or by [die], never by a wild
    access. *)
Theorem api_surface_safe d :
  api_surface CAP d ->
  surface_ok CAP d /\
  (forall x y w hh text invert,
     exists r d',
       drw_text CAP (Some d) x y w hh text invert = Some (Ret r) /\
       res_drw r = Some d' /\ api_surface CAP d') /\
  (forall names, drw_load_fonts CAP d names <> Fault).
Proof.
  intros Hapi. pose proof (api_surface_ok d Hapi) as Hok.
  split; [assumption|]. split.
  - intros x y w hh text invert.
    destruct (drw_text_ret CAP d x y w hh text invert Hok) as (r & Hr).
    pose proof (drw_text_spec CAP d x y w hh text invert (proj1 Hok)) as Hspec.
    rewrite Hr in Hspec. destruct Hspec as (d' & Hres & _).
    exists r, d'. split; [assumption|]. split; [assumption|].
    eapply api_text; eassumption.
  - intros names Hfault.
    pose proof (drw_load_fonts_inv CAP names d (proj1 Hok)) as Hinv.
    rewrite Hfault in Hinv. exact Hinv.
Qed.

End CacheLaws.


(** * The text, run by run *)

Section TextPieces.
Context `{XftLib}.
Variable CAP : nat.

Local Arguments utf8decode : simpl never.
Local Arguments scan : simpl never.
Local Arguments text_loop : simpl never.
Local Arguments fill_buf : simpl never.
Local Arguments shorten : simpl never.

Lemma c_string_nul text : nonnul text = false -> c_string text = [].
Proof.
  destruct text as [|c rest]; simpl; [reflexivity|].
  destruct (c =? 0)%Z; [reflexivity|discriminate].
Qed.

(** A prefix without a NUL is a prefix of the string. *)
Lemma c_string_take n : forall text : list Z,
  n <= length text ->
  (forall i, i < n -> nth i text 0%Z <> 0%Z) ->
  c_string text = take n text ++ c_string (skipn n text).
Proof.
  induction n as [|n IH]; intros text Hn Hnz; [reflexivity|].
  destruct text as [|c rest]; simpl in Hn; [lia|].
  pose proof (Hnz 0 ltac:(lia)) as H0. simpl in H0.
  simpl. destruct (Z.eqb_spec c 0) as [->|_]; [congruence|].
  f_equal. apply IH; [lia|].
  intros i Hi. apply (Hnz (S i)). lia.
Qed.

(** The bytes that [utf8decode] steps over behind the first one are
    continuation bytes. *)
Lemma utf8decode_body c clen i :
  1 <= i < snd (utf8decode c clen) -> is_continuation (nth i c 0%Z).
Proof.
  unfold utf8decode. destruct (clen =? 0); cbn [snd]; [lia|].
  destruct (utf8decodebyte (nth 0 c 0%Z)) as [u0 len].
  destruct (BETWEEN (Z.of_nat len) 1 (Z.of_nat UTF_SIZ)) eqn:Hb; cbn [negb snd];
    [|lia].
  apply BETWEEN_true in Hb.
  pose proof (utf8decode_loop_spec UTF_SIZ c clen len u0 1) as Hspec.
  destruct (utf8decode_loop UTF_SIZ c clen len u0 1 1) as [r|[u' r]]; cbn [snd].
  - destruct Hspec as (_ & _ & Hcont & _). intros Hi. apply Hcont. lia.
  - destruct Hspec as (_ & Hcont & _ & _ & H5).
    destruct (r <? len) eqn:Hr; cbn [snd]; [lia|].
    apply Nat.ltb_ge in Hr. intros Hi. apply Hcont. lia.
Qed.

Lemma is_continuation_nonzero b : is_continuation b -> b <> 0%Z.
Proof. intros Hb ->. discriminate Hb. Qed.

(** One decoding step takes bytes of the string only. *)
Lemma utf8decode_c_string text :
  nonnul text = true ->
  c_string text
  = take (snd (utf8decode text UTF_SIZ)) text
    ++ c_string (skipn (snd (utf8decode text UTF_SIZ)) text).
Proof.
  intros Hnn. apply c_string_take.
  - apply utf8decode_within. apply nonnul_nonempty. assumption.
  - intros i Hi. destruct i as [|i].
    + destruct text as [|c rest]; simpl in *; [discriminate|].
      destruct (Z.eqb_spec c 0); [discriminate|assumption].
    + apply is_continuation_nonzero. apply (utf8decode_body text UTF_SIZ). lia.
Qed.

Lemma tail_of_trans text t t' : tail_of text t -> tail_of t t' -> tail_of text t'.
Proof.
  intros Ht Ht'. induction Ht' as [|u _ IH Hu]; [assumption|].
  apply tail_step; assumption.
Qed.

(** From a tail, the tails behind it are itself and those of the text
    behind its first character. *)
Lemma tail_of_inv u t :
  tail_of u t ->
  t = u \/
  (nonnul u = true /\ tail_of (skipn (snd (utf8decode u UTF_SIZ)) u) t).
Proof.
  induction 1 as [|v Hv IH Hnn]; [left; reflexivity|].
  right. destruct IH as [->|(Hu & Hrest)].
  - split; [assumption|apply tail_all].
  - split; [assumption|]. apply tail_step; assumption.
Qed.

Lemma tail_of_end u t : nonnul u = false -> tail_of u t -> t = u.
Proof.
  intros Hu Ht. destruct (tail_of_inv u t Ht) as [->|(Hnn & _)];
    [reflexivity|congruence].
Qed.

Lemma tail_of_drop text t : tail_of text t -> exists k, t = skipn k text.
Proof.
  induction 1 as [|t _ (k & ->) _]; [exists 0; reflexivity|].
  eexists. apply drop_drop.
Qed.

(** The scan returns after [k] bytes of the string, at the end of a
    character; where it stops before the end of the string, the character
    there went to another font of the cache or to none. *)
Lemma scan_result d cur n : forall text strlen ce cp,
  cache_wf CAP d -> 0 < fontcount d -> length text < n ->
  exists k nf ce' cp',
    scan d cur n text strlen ce cp = Ret (skipn k text, strlen + k, nf, ce', cp') /\
    k <= length text /\
    tail_of text (skipn k text) /\
    c_string text = take k text ++ c_string (skipn k text) /\
    (forall j, nf = Some j -> j < fontcount d /\ j <> cur) /\
    (nonnul (skipn k text) = true ->
     cp' = head_codepoint (skipn k text) /\
     match nf with
     | Some j => exists ce0, hit d ce0 cp' = Some j
     | None => found d cp' = None
     end) /\
    (forall t, tail_of text t ->
       tail_of (skipn k text) t \/
       found d (head_codepoint t) <> None \/
       (ce = true /\ t = text)).
Proof.
  induction n as [|n IH]; intros text strlen ce cp Hwf Hpos Hlen; [lia|].
  destruct (nonnul text) eqn:Hnn.
  - rewrite (scan_head CAP) by assumption.
    pose proof (utf8decode_progress text) as Hprog.
    pose proof (utf8decode_within text (nonnul_nonempty _ Hnn)) as Hin.
    pose proof (utf8decode_c_string text Hnn) as Hstr.
    destruct (hit d ce (head_codepoint text)) as [k|] eqn:Hhit.
    + destruct (k =? cur) eqn:Hk.
      * set (charlen := snd (utf8decode text UTF_SIZ)) in *.
        destruct (IH (skipn charlen text) (strlen + charlen) false
                    (head_codepoint text) Hwf Hpos)
          as (k' & nf & ce' & cp' & Hscan & Hk' & Htail & Hstr' & Hnf & Hstop
              & Hpassed).
        { rewrite length_skipn. lia. }
        exists (charlen + k'), nf, ce', cp'. rewrite Hscan.
        rewrite length_skipn in Hk'.
        assert (Hall : tail_of text (skipn k' (skipn charlen text))).
        { eapply tail_of_trans; [|exact Htail].
          apply (tail_step text text); [apply tail_all|assumption]. }
        rewrite skipn_skipn in *. rewrite (Nat.add_comm k' charlen) in *.
        rewrite Nat.add_assoc.
        split; [reflexivity|]. split; [lia|]. split; [assumption|].
        split; [|split; [assumption|split; [assumption|]]].
        -- rewrite Hstr, Hstr'. fold (drop charlen text).
           rewrite app_assoc. f_equal. rewrite take_take_drop. reflexivity.
        -- intros t Ht. destruct (tail_of_inv text t Ht) as [->|(_ & Hrest)].
           ++ right. unfold hit in Hhit. destruct ce; [right; auto|].
              left. congruence.
           ++ destruct (Hpassed t Hrest) as [Hin'|[Hcov|(Hce & _)]];
                [left; assumption|right; left; assumption|discriminate Hce].
      * exists 0, (Some k), true, (head_codepoint text).
        rewrite Nat.add_0_r. simpl. split; [reflexivity|]. split; [lia|].
        split; [apply tail_all|]. split; [reflexivity|]. split.
        -- intros j [= <-]. split; [eapply (hit_bound); eassumption|].
           apply Nat.eqb_neq in Hk. assumption.
        -- split; [|intros t Ht; left; assumption].
           intros _. split; [reflexivity|]. exists ce. assumption.
    + exists 0, None, false, (head_codepoint text).
      rewrite Nat.add_0_r. simpl. split; [reflexivity|]. split; [lia|].
      split; [apply tail_all|]. split; [reflexivity|]. split; [discriminate|].
      split; [|intros t Ht; left; assumption].
      intros _. split; [reflexivity|].
      unfold hit in Hhit. destruct ce; [discriminate|assumption].
  - rewrite scan_nul by assumption.
    exists 0, None, ce, cp. rewrite Nat.add_0_r. cbn [skipn firstn app].
    split; [reflexivity|]. split; [lia|]. split; [apply tail_all|].
    split; [reflexivity|].
    split; [discriminate|]. rewrite drop_0, Hnn.
    split; [discriminate|]. intros t Ht. left. assumption.
Qed.

(** One iteration of the outer loop, read forwards, with what the scan
    has passed: every character it stepped over has its glyph in the
    cache, but for the first one when it was forced. *)
Lemma step_forward_passed render y hh st :
  state_ok CAP st ->
  exists k nf cp x1 w1 r,
    k <= length (st_text st) /\
    tail_of (st_text st) (skipn k (st_text st)) /\
    c_string (st_text st) = take k (st_text st) ++ c_string (skipn k (st_text st)) /\
    (forall j, nf = Some j -> j < fontcount (st_drw st) /\ j <> st_curfont st) /\
    (nonnul (skipn k (st_text st)) = true ->
     cp = head_codepoint (skipn k (st_text st)) /\
     match nf with
     | Some j => exists ce0, hit (st_drw st) ce0 cp = Some j
     | None => found (st_drw st) cp = None
     end) /\
    (forall t, tail_of (st_text st) t ->
       tail_of (skipn k (st_text st)) t \/
       found (st_drw st) (head_codepoint t) <> None \/
       (st_charexists st = true /\ t = st_text st)) /\
    fit (st_drw st) (st_curfont st) render (st_x st) y (st_w st) hh (st_text st) k
    = Ret (x1, w1, r) /\
    step CAP render y hh st
    = if negb (nonnul (skipn k (st_text st)))
      then Ret (Done x1 (st_drw st) (st_err st) r)
      else match nf with
           | Some i =>
               Ret (Continue (mk_state (st_drw st) (skipn k (st_text st)) i false
                                cp x1 w1 (st_err st)) r)
           | None =>
               '(d', curfont, msgs) <-
                 fallback CAP (st_drw st) (st_curfont st) cp ;;
               Ret (Continue (mk_state d' (skipn k (st_text st)) curfont true
                                cp x1 w1 (st_err st ++ msgs)) r)
           end.
Proof.
  intros (Hwf & Hpos & Hcur).
  destruct (scan_result (st_drw st) (st_curfont st) (S (length (st_text st)))
              (st_text st) 0 (st_charexists st) (st_codepoint st) Hwf Hpos)
    as (k & nf & ce' & cp' & Hscan & Hk & Htail & Hstr & Hnf & Hstop & Hpassed);
    [lia|].
  destruct (fit_returns CAP (st_drw st) (st_curfont st) render (st_x st) y
              (st_w st) hh (st_text st) k Hwf Hpos Hcur) as (x1 & w1 & r & Hfit).
  exists k, nf, cp', x1, w1, r.
  split; [assumption|]. split; [assumption|]. split; [assumption|].
  split; [assumption|]. split; [assumption|]. split; [assumption|].
  split; [assumption|].
  cbn [Nat.add] in Hscan.
  unfold step. rewrite Hscan. cbn [bind]. rewrite Hfit. cbn [bind].
  reflexivity.
Qed.

(** One iteration of the outer loop, read forwards. *)
Lemma step_forward render y hh st :
  state_ok CAP st ->
  exists k nf cp x1 w1 r,
    k <= length (st_text st) /\
    tail_of (st_text st) (skipn k (st_text st)) /\
    c_string (st_text st) = take k (st_text st) ++ c_string (skipn k (st_text st)) /\
    (forall j, nf = Some j -> j < fontcount (st_drw st) /\ j <> st_curfont st) /\
    (nonnul (skipn k (st_text st)) = true ->
     cp = head_codepoint (skipn k (st_text st)) /\
     match nf with
     | Some j => exists ce0, hit (st_drw st) ce0 cp = Some j
     | None => found (st_drw st) cp = None
     end) /\
    fit (st_drw st) (st_curfont st) render (st_x st) y (st_w st) hh (st_text st) k
    = Ret (x1, w1, r) /\
    step CAP render y hh st
    = if negb (nonnul (skipn k (st_text st)))
      then Ret (Done x1 (st_drw st) (st_err st) r)
      else match nf with
           | Some i =>
               Ret (Continue (mk_state (st_drw st) (skipn k (st_text st)) i false
                                cp x1 w1 (st_err st)) r)
           | None =>
               '(d', curfont, msgs) <-
                 fallback CAP (st_drw st) (st_curfont st) cp ;;
               Ret (Continue (mk_state d' (skipn k (st_text st)) curfont true
                                cp x1 w1 (st_err st ++ msgs)) r)
           end.
Proof.
  intros Hok.
  destruct (step_forward_passed render y hh st Hok)
    as (k & nf & cp & x1 & w1 & r & Hk & Htail & Hstr & Hnf & Hstop & _ & Hfit
        & Hstep).
  exists k, nf, cp, x1, w1, r. auto 10.
Qed.

(** A loop that returned, one iteration at a time. *)
Lemma text_loop_cases render y hh fuel st x d err rs :
  state_ok CAP st ->
  text_loop CAP render y hh (S fuel) st = Some (Ret (x, d, err, rs)) ->
  exists k x1 w1 r,
    k <= length (st_text st) /\
    tail_of (st_text st) (skipn k (st_text st)) /\
    c_string (st_text st) = take k (st_text st) ++ c_string (skipn k (st_text st)) /\
    fit (st_drw st) (st_curfont st) render (st_x st) y (st_w st) hh (st_text st) k
    = Ret (x1, w1, r) /\
    ((nonnul (skipn k (st_text st)) = false /\
      x = x1 /\ d = st_drw st /\ err = st_err st /\ rs = add_run r []) \/
     (nonnul (skipn k (st_text st)) = true /\
      exists st' rs',
        step CAP render y hh st = Ret (Continue st' r) /\
        state_ok CAP st' /\ cache_extends (st_drw st) (st_drw st') /\
        st_text st' = skipn k (st_text st) /\
        st_x st' = x1 /\ st_w st' = w1 /\
        text_loop CAP render y hh fuel st' = Some (Ret (x, d, err, rs')) /\
        rs = add_run r rs')).
Proof.
  intros Hok Hloop.
  destruct (step_forward render y hh st Hok)
    as (k & nf & cp & x1 & w1 & r & Hk & Htail & Hstr & Hnf & Hstop & Hfit & Hstep).
  pose proof (step_spec CAP render y hh st Hok) as Hspec.
  exists k, x1, w1, r. split; [assumption|]. split; [assumption|].
  split; [assumption|]. split; [assumption|].
  unfold text_loop in Hloop; fold (text_loop CAP render y hh) in Hloop.
  destruct (nonnul (skipn k (st_text st))) eqn:Hnn; cbn [negb] in Hstep.
  - right. split; [reflexivity|].
    assert (Hcont : exists st', step CAP render y hh st = Ret (Continue st' r) /\
                                st_text st' = skipn k (st_text st) /\
                                st_x st' = x1 /\ st_w st' = w1).
    { destruct nf as [i|].
      - eexists. split; [exact Hstep|]. auto.
      - rewrite Hstep in Hloop.
        destruct (fallback CAP (st_drw st) (st_curfont st) cp)
          as [[[d' cur'] msgs]|msg d'|]; try discriminate.
        eexists. split; [rewrite Hstep; reflexivity|]. auto. }
    destruct Hcont as (st' & Hst' & Htext & Hx & Hw).
    rewrite Hst' in Hspec, Hloop. destruct Hspec as (Hok' & Hext & _).
    destruct (text_loop CAP render y hh fuel st')
      as [[[[[x0 d0] err0] rs0]|msg d0|]|] eqn:Hrest; try discriminate.
    injection Hloop as <- <- <- <-. exists st', rs0. auto 10.
  - left. rewrite Hstep in Hloop. injection Hloop as <- <- <- <-. auto.
Qed.

(** What the closing of a run leaves of it. *)
Lemma fit_run d cur render x y w hh str strlen x' w' r :
  fit d cur render x y w hh str strlen = Ret (x', w', r) ->
  match r with
  | None => strlen = 0 /\ x' = x /\ w' = w
  | Some run =>
      0 < strlen /\
      run_font run = cur /\ run_str run = str /\ run_strlen run = strlen /\
      (if run_len run =? 0 then x' = x /\ w' = w
       else x' = sint (x + run_ew run) /\ w' = uint (w - run_ew run)) /\
      (run_draw run <> None <-> render = true /\ 0 < run_len run)
  end.
Proof.
  unfold fit. destruct (Nat.eqb_spec strlen 0) as [->|Hpos].
  - intros [= <- <- <-]. auto.
  - destruct (font_at d cur) as [f| |]; try discriminate. cbn [bind].
    destruct (font_at d 0) as [f0| |]; try discriminate. cbn [bind].
    destruct (shorten _ _ _ _ _ _) as [len ew].
    destruct (Nat.eqb_spec len 0) as [->|Hlen].
    + intros [= <- <- <-]. simpl.
      repeat (split; [first [reflexivity|lia]|]).
      split; [congruence|]. intros [_ Hl]. lia.
    + intros [= <- <- <-]. cbn [run_font run_str run_strlen run_len run_ew run_draw].
      destruct (Nat.eqb_spec len 0) as [|_]; [contradiction|].
      repeat (split; [first [reflexivity|lia]|]).
      destruct render; split; try congruence; try (intros _; split; [reflexivity|lia]).
      intros [Hr _]. discriminate Hr.
Qed.

End TextPieces.


(** * More about drw_text *)

Section TextLaws.
Context `{XftLib}.
Variable CAP : nat.

Local Arguments utf8decode : simpl never.
Local Arguments scan : simpl never.
Local Arguments text_loop : simpl never.
Local Arguments fill_buf : simpl never.
Local Arguments shorten : simpl never.
Local Arguments step : simpl never.

(** A call of [drw_text] that lays out a text is a run of the loop from
    its first state. *)
Lemma drw_text_runs d x y w hh text invert r :
  cache_wf CAP d ->
  drw_text CAP (Some d) x y w hh (Some text) invert = Some (Ret r) ->
  (res_runs r = [] /\ res_x r = 0%Z /\ (scheme d = None \/ fontcount d = 0)) \/
  (scheme d <> None /\ fontcount d <> 0 /\
   exists d',
     res_drw r = Some d' /\
     state_ok CAP (mk_state d text 0 false 0 x (budget x y w hh) []) /\
     text_loop CAP (rendering x y w hh) y hh (text_fuel text)
       (mk_state d text 0 false 0 x (budget x y w hh) [])
     = Some (Ret (res_x r, d', res_err r, res_runs r))).
Proof.
  intros Hwf Htext.
  destruct (idle_or_not d) as [Hidle|[Hscm Hcount]].
  - left. destruct (drw_text_idle CAP d x y w hh (Some text) invert r Hidle Htext).
    auto.
  - right. split; [assumption|]. split; [assumption|].
    pose proof (initial_state_ok CAP d text x (budget x y w hh) Hwf Hcount) as [Hok _].
    unfold drw_text in Htext.
    destruct (scheme d); [|congruence].
    destruct (Nat.eqb_spec (fontcount d) 0); [contradiction|].
    unfold mk_state.
    destruct (text_loop _ _ _ _ _ _) as [[[[[x0 d0] err0] rs0]|msg d0|]|];
      try discriminate.
    injection Htext as <-. exists d0. auto.
Qed.

Lemma concat_add_run r rs :
  concat (map run_text (add_run r rs))
  = match r with Some run => run_text run | None => [] end
    ++ concat (map run_text rs).
Proof. destruct r; reflexivity. Qed.

(** The runs of a loop that returned are the string, cut in pieces. *)
Lemma text_loop_partition render y hh fuel : forall st x d err rs,
  state_ok CAP st ->
  text_loop CAP render y hh fuel st = Some (Ret (x, d, err, rs)) ->
  concat (map run_text rs) = c_string (st_text st) /\
  Forall (whole_chars (st_text st)) rs.
Proof.
  induction fuel as [|fuel IH]; intros st x d err rs Hok Hloop; [discriminate|].
  destruct (text_loop_cases CAP render y hh fuel st x d err rs Hok Hloop)
    as (k & x1 & w1 & r & Hk & Htail & Hstr & Hfit & Hcase).
  apply fit_run in Hfit.
  assert (Hpiece : match r with Some run => run_text run | None => [] end
                   = take k (st_text st)).
  { destruct r as [run|].
    - destruct Hfit as (_ & _ & Hs & Hl & _). unfold run_text. rewrite Hs, Hl.
      reflexivity.
    - destruct Hfit as (-> & _). reflexivity. }
  assert (Hfirst : forall run, r = Some run -> whole_chars (st_text st) run).
  { intros run ->. destruct Hfit as (Hpos & _ & Hs & Hl & _).
    unfold whole_chars. rewrite Hs, Hl.
    split; [lia|]. split; [apply tail_all|assumption]. }
  destruct Hcase as [(Hnn & _ & _ & _ & ->)
                    |(Hnn & st' & rs' & _ & Hok' & _ & Htext & _ & _ & Hrest & ->)].
  - rewrite concat_add_run, Hpiece, Hstr, (c_string_nul _ Hnn). simpl.
    split; [reflexivity|]. apply Forall_add_run; [assumption|constructor].
  - destruct (IH st' x d err rs' Hok' Hrest) as (Hcat & Hall).
    rewrite concat_add_run, Hpiece, Hcat, Htext, <- Hstr.
    split; [reflexivity|]. apply Forall_add_run; [assumption|].
    eapply Forall_impl; [exact Hall|].
    intros run (Hpos & Hstart & Hend). split; [assumption|]. split; [|assumption].
    eapply tail_of_trans; [|exact Hstart]. rewrite Htext. assumption.
Qed.

(** X12.  The runs that [drw_text] closes are the text cut in pieces:
    put one after the other, in the order they were closed, they give
    the bytes of the string up to its terminating NUL - no byte is left
    out and none is taken twice, whatever the fonts, the budget and the
    validity of the UTF-8.  No run is empty, and every run begins and
    ends where the scan begins a character: no character is split
    between two runs. *)
Theorem runs_partition_text d x y w hh text invert r :
  cache_wf CAP d -> scheme d <> None -> fontcount d <> 0 ->
  drw_text CAP (Some d) x y w hh (Some text) invert = Some (Ret r) ->
  concat (map run_text (res_runs r)) = c_string text /\
  Forall (whole_chars text) (res_runs r).
Proof.
  intros Hwf Hscm Hcount Htext.
  destruct (drw_text_runs d x y w hh text invert r Hwf Htext)
    as [(_ & _ & [Hs|Hc])|(_ & _ & d' & _ & Hok & Hloop)]; [contradiction..|].
  exact (text_loop_partition _ _ _ _ _ _ _ _ _ Hok Hloop).
Qed.

Lemma sint_small z : (- 2 ^ 31 <= z < 2 ^ 31)%Z -> sint z = z.
Proof.
  intros Hz. unfold sint.
  destruct (Z.lt_ge_cases z 0) as [Hneg|Hpos].
  - replace (z mod 2 ^ 32)%Z with (z + 2 ^ 32)%Z.
    + destruct (Z.ltb_spec (z + 2 ^ 32) (2 ^ 31)); lia.
    + apply Z.mod_unique with (-1)%Z; lia.
  - rewrite Z.mod_small by lia. destruct (Z.ltb_spec z (2 ^ 31)); lia.
Qed.

Lemma kept_width_add_run r rs :
  kept_width (add_run r rs)
  = (match r with
     | Some run => if (run_len run =? 0)%nat then 0 else run_ew run
     | None => 0
     end + kept_width rs)%Z.
Proof. destruct r; reflexivity. Qed.

(** The cursor after the loop is the cursor before it plus the widths
    of the runs that were kept. *)
Lemma text_loop_cursor render y hh fuel : forall st x d err rs,
  state_ok CAP st ->
  text_loop CAP render y hh fuel st = Some (Ret (x, d, err, rs)) ->
  sint (st_x st) = st_x st ->
  x = sint (st_x st + kept_width rs).
Proof.
  induction fuel as [|fuel IH]; intros st x d err rs Hok Hloop Hx; [discriminate|].
  destruct (text_loop_cases CAP render y hh fuel st x d err rs Hok Hloop)
    as (k & x1 & w1 & r & Hk & Htail & Hstr & Hfit & Hcase).
  apply fit_run in Hfit.
  assert (Hx1 : x1 = sint (st_x st + match r with
                                     | Some run => if (run_len run =? 0)%nat
                                                   then 0 else run_ew run
                                     | None => 0
                                     end)%Z).
  { destruct r as [run|].
    - destruct Hfit as (_ & _ & _ & _ & Hadv & _).
      destruct (run_len run =? 0).
      + destruct Hadv as [-> _]. rewrite Z.add_0_r. congruence.
      + destruct Hadv as [-> _]. reflexivity.
    - destruct Hfit as (_ & -> & _). rewrite Z.add_0_r. congruence. }
  destruct Hcase as [(_ & -> & _ & _ & ->)
                    |(_ & st' & rs' & _ & Hok' & _ & _ & Hx' & _ & Hrest & ->)].
  - rewrite kept_width_add_run. simpl. rewrite Z.add_0_r. assumption.
  - rewrite (IH st' x d err rs' Hok' Hrest).
    + rewrite Hx', Hx1, kept_width_add_run, sint_add. f_equal. lia.
    + rewrite Hx', Hx1. apply sint_idem.
Qed.

(** X13.  The x that [drw_text] returns is the x it was given plus the
    widths of the runs of which something was kept, each as it stood in
    [ew] when the shortening loop was left, summed as an int; a run of
    which nothing was kept adds nothing. *)
Theorem drw_text_cursor d x y w hh text invert r :
  cache_wf CAP d -> scheme d <> None -> fontcount d <> 0 ->
  (- 2 ^ 31 <= x < 2 ^ 31)%Z ->
  drw_text CAP (Some d) x y w hh (Some text) invert = Some (Ret r) ->
  res_x r = sint (x + kept_width (res_runs r)).
Proof.
  intros Hwf Hscm Hcount Hx Htext.
  destruct (drw_text_runs d x y w hh text invert r Hwf Htext)
    as [(_ & _ & [Hs|Hc])|(_ & _ & d' & _ & Hok & Hloop)]; [contradiction..|].
  apply (text_loop_cursor _ _ _ _ _ _ _ _ _ Hok Hloop).
  apply sint_small. assumption.
Qed.

(** A run is drawn when the call renders and something of the run is
    kept. *)
Lemma text_loop_draws render y hh fuel : forall st x d err rs,
  state_ok CAP st ->
  text_loop CAP render y hh fuel st = Some (Ret (x, d, err, rs)) ->
  Forall (fun run => run_draw run <> None <-> render = true /\ 0 < run_len run) rs.
Proof.
  induction fuel as [|fuel IH]; intros st x d err rs Hok Hloop; [discriminate|].
  destruct (text_loop_cases CAP render y hh fuel st x d err rs Hok Hloop)
    as (k & x1 & w1 & r & Hk & Htail & Hstr & Hfit & Hcase).
  apply fit_run in Hfit.
  assert (Hfirst : forall run, r = Some run ->
            run_draw run <> None <-> render = true /\ 0 < run_len run).
  { intros run ->. destruct Hfit as (_ & _ & _ & _ & _ & Hdraw). exact Hdraw. }
  destruct Hcase as [(_ & _ & _ & _ & ->)
                    |(_ & st' & rs' & _ & Hok' & _ & _ & _ & _ & Hrest & ->)].
  - apply Forall_add_run; [assumption|constructor].
  - apply Forall_add_run; [assumption|]. eapply IH; eassumption.
Qed.

(** X14.  In measure-only mode [drw_text] draws nothing: no background
    rectangle and no run.  When it renders and a scheme is set it fills
    the rectangle [x, y, w, h] once - also for a NULL text and for an
    empty cache - and draws exactly the runs of which something was
    kept; a run that was shortened to nothing is not drawn. *)
Theorem drw_text_draws d x y w hh text invert r :
  cache_wf CAP d ->
  drw_text CAP (Some d) x y w hh text invert = Some (Ret r) ->
  (rendering x y w hh = false ->
   res_fill r = None /\ Forall (fun run => run_draw run = None) (res_runs r)) /\
  (rendering x y w hh = true ->
   res_fill r = match scheme d with
                | Some _ => Some (x, y, w, hh)
                | None => None
                end /\
   Forall (fun run => run_draw run <> None <-> 0 < run_len run) (res_runs r)).
Proof.
  intros Hwf Htext.
  assert (Hfill : res_fill r
                  = if rendering x y w hh
                    then match scheme d with
                         | Some _ => Some (x, y, w, hh)
                         | None => None
                         end
                    else None).
  { unfold drw_text, budget in Htext.
    destruct (scheme d);
      [|injection Htext as <-; simpl; destruct (rendering x y w hh); reflexivity].
    destruct text as [text|];
      [|injection Htext as <-; simpl; destruct (rendering x y w hh); reflexivity].
    destruct (fontcount d =? 0);
      [injection Htext as <-; simpl; destruct (rendering x y w hh); reflexivity|].
    destruct (text_loop _ _ _ _ _ _) as [[[[[x0 d0] err0] rs0]|msg d0|]|];
      try discriminate.
    injection Htext as <-. simpl. destruct (rendering x y w hh); reflexivity. }
  assert (Hruns : Forall (fun run => run_draw run <> None <->
                            rendering x y w hh = true /\ 0 < run_len run)
                    (res_runs r)).
  { destruct text as [text|].
    - destruct (drw_text_runs d x y w hh text invert r Hwf Htext)
        as [(-> & _)|(_ & _ & d' & _ & Hok & Hloop)]; [constructor|].
      exact (text_loop_draws _ _ _ _ _ _ _ _ _ Hok Hloop).
    - unfold drw_text in Htext. destruct (scheme d); injection Htext as <-;
        constructor. }
  rewrite Hfill. split; intros Hr; rewrite Hr in *.
  - split; [reflexivity|]. eapply Forall_impl; [exact Hruns|].
    intros run Hdraw. destruct (run_draw run) as [p|] eqn:Hd; [|reflexivity].
    exfalso. destruct (proj1 Hdraw) as [Hn _]; [congruence|discriminate Hn].
  - split; [reflexivity|]. eapply Forall_impl; [exact Hruns|].
    intros run Hdraw. rewrite Hdraw. tauto.
Qed.

Lemma length_ellipsis i len : forall buf : list Z,
  length (ellipsis i len buf) = length buf.
Proof.
  induction i as [|i IH]; intros buf; simpl; [reflexivity|].
  destruct (Z.of_nat (S i) >? size_t (Z.of_nat len - 3))%Z; [|reflexivity].
  rewrite IH. apply length_insert.
Qed.

Lemma length_fill_buf (str : list Z) strlen len :
  len <= length str -> length (fill_buf str strlen len) = len.
Proof.
  intros Hlen. unfold fill_buf.
  destruct (len <? strlen); [rewrite length_ellipsis|]; rewrite length_take; lia.
Qed.

(** X15.  What [drw_text] copies into its buffer of 1024 bytes always
    fits: the kept length of a run is at most 1023, so that the
    terminating NUL at [buf[len]] is inside the buffer, and at most the
    length of the run, which lies inside the text, so that the copy
    reads only bytes of the run.  The bytes written are as many as the
    kept length. *)
Theorem drw_text_buffer d x y w hh text invert r run :
  cache_wf CAP d ->
  drw_text CAP (Some d) x y w hh (Some text) invert = Some (Ret r) ->
  In run (res_runs r) ->
  run_len run <= 1023 /\
  run_len run <= run_strlen run <= length (run_str run) /\
  length (run_buf run) = run_len run.
Proof.
  intros Hwf Htext Hin.
  destruct (drw_text_runs d x y w hh text invert r Hwf Htext)
    as [(Hnil & _)|(_ & _ & d' & _ & Hok & Hloop)].
  { rewrite Hnil in Hin. destruct Hin. }
  pose proof (text_loop_run_shape CAP _ _ _ _ _ _ _ _ _ Hok Hloop) as Hshape.
  rewrite List.Forall_forall in Hshape.
  destruct (Hshape run Hin) as ((Hpos & Hstr) & _ & Hlen & Hbuf).
  pose proof (MIN_le_r (run_strlen run) 1023) as Hmax.
  assert (Hmin : MIN (run_strlen run) 1023 <= run_strlen run).
  { unfold MIN. destruct (Nat.ltb_spec (run_strlen run) 1023); lia. }
  split; [lia|]. split; [lia|].
  destruct Hbuf as [(-> & ->)|(_ & ->)]; [reflexivity|].
  apply length_fill_buf. lia.
Qed.

(** X16.  The mark of a shortened run is all or nothing.  A run that is
    kept whole is copied as it is.  Of a run that is cut to three bytes
    or more, the last three kept bytes are overwritten by periods.  A
    run that is cut to one or two bytes is copied without any period:
    [len - 3] wraps around in size_t and the loop that writes the periods
    does not run. *)
Theorem ellipsis_all_or_nothing d x y w hh text invert r run :
  cache_wf CAP d ->
  drw_text CAP (Some d) x y w hh (Some text) invert = Some (Ret r) ->
  In run (res_runs r) -> 0 < run_len run ->
  (run_len run = run_strlen run ->
   run_buf run = take (run_len run) (run_str run)) /\
  (3 <= run_len run < run_strlen run ->
   run_buf run = take (run_len run - 3) (run_str run) ++ [46; 46; 46]%Z) /\
  (run_len run < 3 -> run_len run < run_strlen run ->
   run_buf run = take (run_len run) (run_str run)).
Proof.
  intros Hwf Htext Hin Hkept.
  destruct (drw_text_runs d x y w hh text invert r Hwf Htext)
    as [(Hnil & _)|(_ & _ & d' & _ & Hok & Hloop)].
  { rewrite Hnil in Hin. destruct Hin. }
  pose proof (text_loop_run_shape CAP _ _ _ _ _ _ _ _ _ Hok Hloop) as Hshape.
  rewrite List.Forall_forall in Hshape.
  destruct (Hshape run Hin) as ((Hpos & Hstr) & _ & Hlen & Hbuf).
  pose proof (MIN_le_r (run_strlen run) 1023) as Hmax.
  destruct Hbuf as [(H0 & _)|(_ & ->)]; [lia|].
  split; [|split].
  - intros Heq. apply fill_buf_whole. lia.
  - intros Hcut. unfold fill_buf.
    destruct (Nat.ltb_spec (run_len run) (run_strlen run)); [|lia].
    destruct (Nat.le_exists_sub 3 (run_len run) ltac:(lia)) as (m & Hm & _).
    rewrite Hm, ellipsis_long by lia.
    rewrite take_three_periods by lia.
    replace (m + 3 - 3) with m by lia. reflexivity.
  - intros Hshort Hcut. unfold fill_buf.
    destruct (Nat.ltb_spec (run_len run) (run_strlen run)); [|lia].
    apply ellipsis_short; lia.
Qed.

(** The shortening loop, by what it returns. *)
Lemma shorten_spec font h0 w str : forall len ew len' ew',
  shorten font h0 w str len ew = (len', ew') ->
  (len' = len /\ ew' = ew /\ (0 < len -> over_budget ew w h0 = false)) \/
  (len' < len /\ over_budget ew w h0 = true /\
   ew' = drw_font_getexts font str (S len') /\
   (0 < len' -> over_budget ew' w h0 = false) /\
   forall n, S len' < n <= len ->
     over_budget (drw_font_getexts font str n) w h0 = true).
Proof.
  induction len as [|len IH]; intros ew len' ew'; unfold shorten;
    fold (shorten font h0 w str).
  - intros [= <- <-]. left. split; [reflexivity|]. split; [reflexivity|lia].
  - destruct (over_budget ew w h0) eqn:Hover.
    + intros Hrest. right.
      destruct (IH _ _ _ Hrest) as [(-> & -> & Hfit)|(Hlt & Hov & -> & Hfit & Hall)].
      * split; [lia|]. split; [reflexivity|]. split; [reflexivity|].
        split; [assumption|]. intros n Hn. lia.
      * split; [lia|]. split; [reflexivity|]. split; [reflexivity|].
        split; [assumption|]. intros n Hn.
        destruct (Nat.eq_dec n (S len)) as [->|Hne]; [assumption|].
        apply Hall. lia.
    + intros [= <- <-]. left. auto.
Qed.

(** X17.  The shortening loop measures one byte ahead of what it keeps.
    A run that fits as first measured is kept up to the size of the
    buffer, and x moves on by the width of the whole run.  Otherwise
    the kept length is the greatest one, below the starting length,
    such that the prefix one byte longer fits (or 0 when there is none),
    and the width that stays in [ew], by which x moves on, is that of
    the prefix one byte longer than the kept one. *)
Theorem fit_shortened d cur render x y w hh str strlen x' w' run f f0 :
  fit d cur render x y w hh str strlen = Ret (x', w', Some run) ->
  fonts d !! cur = Some (Some f) -> fonts d !! 0 = Some (Some f0) ->
  let width n := drw_font_getexts f str n in
  let start := MIN strlen 1023 in
  run_full run = width strlen /\
  (over_budget (width strlen) w (h f0) = false ->
   run_len run = start /\ run_ew run = width strlen /\
   x' = sint (x + width strlen)) /\
  (over_budget (width strlen) w (h f0) = true ->
   run_len run < start /\
   run_ew run = width (S (run_len run)) /\
   (0 < run_len run ->
    over_budget (width (S (run_len run))) w (h f0) = false /\
    x' = sint (x + width (S (run_len run)))) /\
   (run_len run = 0 -> x' = x) /\
   forall n, S (run_len run) < n <= start -> over_budget (width n) w (h f0) = true).
Proof.
  intros Hfit Hf Hf0. cbv zeta.
  pose proof (fit_run _ _ _ _ _ _ _ _ _ _ _ _ Hfit) as (Hpos & _ & _ & _ & Hadv & _).
  destruct (fit_spec _ _ _ _ _ _ _ _ _ _ _ _ Hfit)
    as [(_ & Hnone & _)|(_ & g & g0 & run' & Hg & Hg0 & [= <-] & _ & _ & Hlen
                        & Hfull & Hshort & _)]; [discriminate|].
  rewrite Hf in Hg. injection Hg as <-. rewrite Hf0 in Hg0. injection Hg0 as <-.
  split; [assumption|].
  assert (Hstart : 0 < MIN strlen 1023) by (apply MIN_pos; lia).
  rewrite Hfull in Hshort.
  destruct (shorten_spec _ _ _ _ _ _ _ _ Hshort)
    as [(Hl & He & Hfits)|(Hl & Hover & He & Hfits & Hall)].
  - split.
    + intros _. split; [assumption|]. split; [assumption|].
      destruct (Nat.eqb_spec (run_len run) 0); [lia|].
      destruct Hadv as [-> _]. rewrite He. reflexivity.
    + intros Hover. rewrite (Hfits Hstart) in Hover. discriminate.
  - split.
    + intros Hfit'. rewrite Hfit' in Hover. discriminate.
    + intros _. split; [assumption|]. split; [assumption|]. split; [|split].
      * intros Hkept. split; [rewrite <- He; auto|].
        destruct (Nat.eqb_spec (run_len run) 0); [lia|].
        destruct Hadv as [-> _]. rewrite He. reflexivity.
      * intros H0. rewrite H0 in Hadv. simpl in Hadv. tauto.
      * assumption.
Qed.

End TextLaws.


(** * Texts that the cache covers *)

Section CoverLaws.
Context `{XftLib}.
Variable CAP : nat.

Local Arguments utf8decode : simpl never.
Local Arguments scan : simpl never.
Local Arguments text_loop : simpl never.
Local Arguments fill_buf : simpl never.
Local Arguments shorten : simpl never.
Local Arguments step : simpl never.

Lemma covered_tail d text t : covered d text -> tail_of text t -> covered d t.
Proof.
  intros Hcov Ht t' Ht'. apply Hcov. eapply tail_of_trans; eassumption.
Qed.

(** While the cache has every glyph of the text, the loop never comes
    to the search for a fallback font. *)
Lemma text_loop_covered render y hh fuel : forall st,
  state_ok CAP st -> covered (st_drw st) (st_text st) -> variant st < fuel ->
  exists x rs,
    text_loop CAP render y hh fuel st = Some (Ret (x, st_drw st, st_err st, rs)).
Proof.
  induction fuel as [|fuel IH]; intros st Hok Hcov Hfuel; [lia|].
  destruct (step_forward CAP render y hh st Hok)
    as (k & nf & cp & x1 & w1 & r & Hk & Htail & Hstr & Hnf & Hstop & Hfit & Hstep).
  pose proof (step_spec CAP render y hh st Hok) as Hspec.
  unfold text_loop; fold (text_loop CAP render y hh).
  destruct (nonnul (skipn k (st_text st))) eqn:Hnn; cbn [negb] in Hstep.
  - destruct (Hstop eq_refl) as (Hcp & Hhit).
    destruct nf as [i|].
    + rewrite Hstep in Hspec |- *. destruct Hspec as (Hok' & _ & Hvar).
      destruct (IH _ Hok') as (x & rs & Hrest).
      * cbn [mk_state st_drw st_text]. eapply covered_tail; eassumption.
      * lia.
      * rewrite Hrest. cbn [mk_state st_drw st_err]. eauto.
    + exfalso. apply (Hcov _ Htail Hnn). rewrite <- Hcp. assumption.
  - rewrite Hstep. eauto.
Qed.

(** X18.  When every character of the text has its glyph in a font of
    the cache, [drw_text] returns without touching the cache: the
    matcher is not asked, no font is opened or added, nothing is printed
    and [die] is out of reach, whether or not the primary font carries a
    template. *)
Theorem covered_text_keeps_cache d x y w hh text invert :
  cache_wf CAP d -> scheme d <> None -> fontcount d <> 0 ->
  covered d text ->
  exists r,
    drw_text CAP (Some d) x y w hh (Some text) invert = Some (Ret r) /\
    res_drw r = Some d /\ res_err r = [].
Proof.
  intros Hwf Hscm Hcount Hcov.
  destruct (initial_state_ok CAP d text x (budget x y w hh) Hwf Hcount)
    as [Hok Hfuel].
  destruct (text_loop_covered (rendering x y w hh) y hh (text_fuel text) _ Hok Hcov
              Hfuel) as (x' & rs & Hloop).
  unfold drw_text. destruct (scheme d); [|congruence].
  destruct (Nat.eqb_spec (fontcount d) 0); [contradiction|].
  cbn [st_drw st_err] in Hloop. rewrite Hloop.
  eexists. split; [reflexivity|]. split; reflexivity.
Qed.

(** X19.  For the empty string - a text whose first byte is the NUL -
    [drw_text] returns the x it was given, not 0: once a scheme is set
    and the cache holds a font, it closes no run, reads no font and
    leaves the cache alone; when it renders, the background rectangle
    is still filled. *)
Theorem drw_text_empty_string d s x y w hh text invert :
  scheme d = Some s -> fontcount d <> 0 -> nonnul text = false ->
  drw_text CAP (Some d) x y w hh (Some text) invert
  = Some (Ret {| res_x := x; res_drw := Some d;
                 res_fill := if rendering x y w hh then Some (x, y, w, hh)
                             else None;
                 res_runs := []; res_err := [] |}).
Proof.
  intros Hscm Hcount Hnn. unfold drw_text. rewrite Hscm.
  destruct (Nat.eqb_spec (fontcount d) 0); [contradiction|].
  unfold text_fuel. rewrite Nat.add_comm. cbn [Nat.add].
  unfold text_loop; fold (text_loop CAP (rendering x y w hh) y hh).
  unfold step. cbn [st_drw st_text st_curfont st_charexists st_codepoint st_x
                      st_w st_err].
  rewrite scan_nul by assumption. cbn [bind].
  rewrite fit_empty. cbn [bind]. rewrite Hnn. cbn [negb add_run].
  unfold budget. destruct (rendering x y w hh); reflexivity.
Qed.

Lemma found_primary d f0 cp :
  fontcount d <> 0 -> fonts d !! 0 = Some (Some f0) ->
  XftCharExists (xfont f0) cp = true -> found d cp = Some 0.
Proof.
  intros Hcount Hf0 Hex. unfold found.
  destruct (fontcount d) as [|n]; [contradiction|].
  simpl. rewrite Hf0, Hex. reflexivity.
Qed.

(** X20.  A text of which the primary font has every glyph makes one
    run: the run of the primary font, over the whole string up to its
    NUL.  The cache is not touched. *)
Theorem primary_font_takes_all d f0 x y w hh text invert :
  cache_wf CAP d -> scheme d <> None -> fontcount d <> 0 ->
  fonts d !! 0 = Some (Some f0) ->
  nonnul text = true ->
  (forall t, tail_of text t -> nonnul t = true ->
     XftCharExists (xfont f0) (head_codepoint t) = true) ->
  exists r run,
    drw_text CAP (Some d) x y w hh (Some text) invert = Some (Ret r) /\
    res_runs r = [run] /\
    run_font run = 0 /\ run_str run = text /\
    run_strlen run = length (c_string text) /\
    res_drw r = Some d /\ res_err r = [].
Proof.
  intros Hwf Hscm Hcount Hf0 Hnn Hall.
  destruct (initial_state_ok CAP d text x (budget x y w hh) Hwf Hcount)
    as [Hok Hfuel].
  set (st := {| st_drw := d; st_text := text; st_curfont := 0;
                st_charexists := false; st_codepoint := 0%Z;
                st_x := x; st_w := budget x y w hh; st_err := [] |}) in *.
  destruct (step_forward CAP (rendering x y w hh) y hh st Hok)
    as (k & nf & cp & x1 & w1 & r & Hk & Htail & Hstr & Hnf & Hstop & Hfit & Hstep).
  cbn [st st_drw st_text st_curfont st_err] in Hk, Htail, Hstr, Hnf, Hstop, Hfit, Hstep.
  assert (Hend : nonnul (skipn k text) = false).
  { destruct (nonnul (skipn k text)) eqn:Hrest; [|reflexivity]. exfalso.
    destruct (Hstop eq_refl) as (Hcp & Hhit).
    pose proof (found_primary d f0 cp Hcount Hf0) as Hfound.
    rewrite Hcp in Hfound. specialize (Hfound (Hall _ Htail Hrest)).
    rewrite <- Hcp in Hfound.
    destruct nf as [j|].
    - destruct (Hnf j eq_refl) as [_ Hne]. destruct Hhit as (ce0 & Hhit).
      unfold hit in Hhit. destruct ce0; congruence.
    - congruence. }
  rewrite Hend in Hstep. cbn [negb] in Hstep.
  rewrite (c_string_nul _ Hend), app_nil_r in Hstr.
  apply fit_run in Hfit. destruct r as [run|].
  - destruct Hfit as (_ & Hfont & Hs & Hl & _).
    exists {| res_x := x1; res_drw := Some d;
              res_fill := if rendering x y w hh
                          then Some (x, y, budget x y w hh, hh) else None;
              res_runs := [run]; res_err := [] |}, run.
    split.
    + unfold drw_text. destruct (scheme d); [|congruence].
      destruct (Nat.eqb_spec (fontcount d) 0); [contradiction|].
      fold st. unfold text_fuel. rewrite Nat.add_comm. cbn [Nat.add].
      unfold text_loop; fold (text_loop CAP (rendering x y w hh) y hh).
      rewrite Hstep. reflexivity.
    + split; [reflexivity|]. split; [assumption|]. split; [assumption|].
      split; [|split; reflexivity].
      rewrite Hl, Hstr, length_take. lia.
  - destruct Hfit as (-> & _). rewrite drop_0 in Hend. congruence.
Qed.

End CoverLaws.


(** * How the process is ended *)

Section DieLaws.
Context `{XftLib}.
Variable CAP : nat.

Local Arguments utf8decode : simpl never.
Local Arguments scan : simpl never.
Local Arguments text_loop : simpl never.
Local Arguments fill_buf : simpl never.
Local Arguments shorten : simpl never.
Local Arguments step : simpl never.

(** How the search for a fallback font ends the process. *)
Lemma fallback_die d cur cp msg d' :
  fallback CAP d cur cp = Die msg d' ->
  msg = no_template_msg /\ d' = d /\ fontcount d < CAP /\
  exists f0, fonts d !! 0 = Some (Some f0) /\ pattern f0 = None.
Proof.
  unfold fallback, font_at.
  destruct (Nat.leb_spec CAP (fontcount d)) as [Hfull|Hroom]; [discriminate|].
  destruct (fonts d !! 0) as [[f0|]|]; try discriminate. cbn [bind].
  destruct (pattern f0) as [template|] eqn:Hpat.
  - destruct (XftFontMatch template cp) as [m|]; [|discriminate].
    unfold drw_font_xcreate.
    destruct (XftFontOpenPattern m) as [xf|]; cbn [bind].
    + cbn [xfont font_of]. destruct (XftCharExists xf cp); [|discriminate].
      unfold cache_push. destruct (fontcount d <? length (fonts d)); discriminate.
    + discriminate.
  - intros [= <- <-]. split; [reflexivity|]. split; [reflexivity|].
    split; [assumption|]. eauto.
Qed.

(** A search that adds a font has a template to start from. *)
Lemma fallback_grows d cur cp d' cur' msgs :
  fallback CAP d cur cp = Ret (d', cur', msgs) ->
  d' = d \/ exists f0 t, fonts d !! 0 = Some (Some f0) /\ pattern f0 = Some t.
Proof.
  unfold fallback, font_at.
  destruct (Nat.leb_spec CAP (fontcount d)) as [Hfull|Hroom];
    [intros [= <- _ _]; left; reflexivity|].
  destruct (fonts d !! 0) as [[f0|]|]; try discriminate. cbn [bind].
  destruct (pattern f0) as [template|] eqn:Hpat; [|discriminate].
  intros _. right. eauto.
Qed.

(** The loop ends the process only at a character that no font of the
    cache has, with the cache it started from. *)
Lemma text_loop_die render y hh fuel : forall st msg d',
  state_ok CAP st ->
  text_loop CAP render y hh fuel st = Some (Die msg d') ->
  msg = no_template_msg /\ d' = st_drw st /\ fontcount (st_drw st) < CAP /\
  (exists f0, fonts (st_drw st) !! 0 = Some (Some f0) /\ pattern f0 = None) /\
  ~ covered (st_drw st) (st_text st).
Proof.
  induction fuel as [|fuel IH]; intros st msg d' Hok Hloop; [discriminate|].
  destruct (step_forward CAP render y hh st Hok)
    as (k & nf & cp & x1 & w1 & r & Hk & Htail & Hstr & Hnf & Hstop & Hfit & Hstep).
  pose proof (step_spec CAP render y hh st Hok) as Hspec.
  unfold text_loop in Hloop; fold (text_loop CAP render y hh) in Hloop.
  destruct (nonnul (skipn k (st_text st))) eqn:Hnn; cbn [negb] in Hstep;
    [|rewrite Hstep in Hloop; discriminate].
  destruct (Hstop eq_refl) as (Hcp & Hhit).
  assert (Hrest : forall st' r',
            step CAP render y hh st = Ret (Continue st' r') ->
            st_text st' = skipn k (st_text st) ->
            (st_drw st' = st_drw st \/
             exists f0 t, fonts (st_drw st) !! 0 = Some (Some f0) /\
                          pattern f0 = Some t) ->
            msg = no_template_msg /\ d' = st_drw st /\
            fontcount (st_drw st) < CAP /\
            (exists f0, fonts (st_drw st) !! 0 = Some (Some f0) /\ pattern f0 = None) /\
            ~ covered (st_drw st) (st_text st)).
  { intros st' r' Hst' Htext Hsame.
    rewrite Hst' in Hspec, Hloop. destruct Hspec as (Hok' & Hext & _).
    destruct (text_loop CAP render y hh fuel st')
      as [[[[[x0 d0] err0] rs0]|msg0 d0|]|] eqn:Hloop'; try discriminate.
    injection Hloop as -> ->.
    destruct (IH st' msg d' Hok' Hloop') as (Hmsg & Hd & Hroom & (f0 & Hf0 & Hpat) & Hcov).
    assert (Hpos : 0 < fontcount (st_drw st)) by (destruct Hok as (_ & Hp & _); exact Hp).
    rewrite (primary_font_kept _ _ Hpos Hext) in Hf0.
    destruct Hsame as [Hsame|(g0 & t & Hg0 & Ht)]; [|congruence].
    rewrite Hsame in *. split; [assumption|]. split; [assumption|].
    split; [assumption|]. split; [eauto|].
    intros Hall. apply Hcov. rewrite Htext. eapply covered_tail; eassumption. }
  destruct nf as [i|].
  - apply (Hrest _ _ Hstep); [reflexivity|left; reflexivity].
  - destruct (fallback CAP (st_drw st) (st_curfont st) cp)
      as [[[d1 cur1] msgs]|msg1 d1|] eqn:Hfb.
    + cbn [bind] in Hstep. apply (Hrest _ _ Hstep); [reflexivity|].
      cbn [mk_state st_drw]. eapply fallback_grows. eassumption.
    + cbn [bind] in Hstep. rewrite Hstep in Hloop. injection Hloop as <- <-.
      destruct (fallback_die _ _ _ _ _ Hfb) as (Hmsg & Hd & Hroom & Hprim).
      split; [assumption|]. split; [assumption|]. split; [assumption|].
      split; [assumption|].
      intros Hcov. apply (Hcov _ Htail Hnn). rewrite <- Hcp. assumption.
    + cbn [bind] in Hstep. rewrite Hstep in Hloop. discriminate.
Qed.

(** X23.  [drw_text] ends the process in one situation only, and with
    one message: the cache has room left, its primary font carries no
    template, and the text has a character that no font of the cache
    has.  The cache is then as it was before the call.  In that
    situation the call does end the process as soon as such a character
    is the first of the text. *)
Theorem drw_text_dies d x y w hh text invert :
  cache_wf CAP d ->
  (forall msg d',
     drw_text CAP (Some d) x y w hh (Some text) invert = Some (Die msg d') ->
     msg = no_template_msg /\ d' = d /\
     scheme d <> None /\ 0 < fontcount d < CAP /\
     (exists f0, fonts d !! 0 = Some (Some f0) /\ pattern f0 = None) /\
     ~ covered d text) /\
  (forall f0,
     scheme d <> None -> 0 < fontcount d < CAP ->
     fonts d !! 0 = Some (Some f0) -> pattern f0 = None ->
     nonnul text = true -> found d (head_codepoint text) = None ->
     drw_text CAP (Some d) x y w hh (Some text) invert
     = Some (Die no_template_msg d)).
Proof.
  intros Hwf. split.
  - intros msg d' Hdie. unfold drw_text in Hdie.
    destruct (scheme d) eqn:Hscm; [|discriminate].
    destruct (Nat.eqb_spec (fontcount d) 0) as [|Hcount]; [discriminate|].
    destruct (initial_state_ok CAP d text x (budget x y w hh) Hwf Hcount)
      as [Hok _].
    destruct (text_loop _ _ _ _ _ _) as [[[[[x0 d0] err0] rs0]|msg0 d0|]|] eqn:Hloop;
      try discriminate.
    injection Hdie as -> ->.
    destruct (text_loop_die _ _ _ _ _ _ _ Hok Hloop)
      as (Hmsg & Hd & Hroom & Hprim & Hcov).
    cbn [st_drw st_text] in *.
    split; [assumption|]. split; [assumption|]. split; [discriminate|].
    split; [lia|]. split; assumption.
  - intros f0 Hscm Hcount Hf0 Hpat Hnn Hnone. unfold drw_text.
    destruct (scheme d); [|congruence].
    destruct (Nat.eqb_spec (fontcount d) 0); [lia|].
    unfold text_fuel. rewrite Nat.add_comm. cbn [Nat.add].
    unfold text_loop; fold (text_loop CAP (rendering x y w hh) y hh).
    change {| st_drw := d; st_text := text; st_curfont := 0;
              st_charexists := false; st_codepoint := 0%Z; st_x := x;
              st_w := budget x y w hh; st_err := [] |}
      with (mk_state d text 0 false 0 x (budget x y w hh) []).
    rewrite (step_falls_back CAP) by (assumption || lia).
    unfold fallback, font_at.
    destruct (Nat.leb_spec CAP (fontcount d)); [lia|].
    rewrite Hf0. cbn [bind]. rewrite Hpat. reflexivity.
Qed.

(** X24.  [drw_load_fonts] ends the process for one of two reasons
    only.  Either a name is still to be loaded when the cache is full;
    the message is then "Font cache exhausted." and the cache holds
    DRW_FONT_CACHE_SIZE fonts.  Or the batch holds a NULL name, which is
    reached with room left in the cache; the message is then "No font
    specified.".  In either case the fonts that were loaded before are
    in the cache, in order, behind those it held at the start. *)
Theorem drw_load_fonts_dies names : forall d msg d',
  cache_wf CAP d ->
  drw_load_fonts CAP d names = Die msg d' ->
  cache_wf CAP d' /\ cache_extends d d' /\
  ((msg = "Font cache exhausted."%string /\ fontcount d' = CAP /\ names <> []) \/
   (msg = "No font specified."%string /\ fontcount d' < CAP /\ In None names)).
Proof.
  induction names as [|name names IH]; intros d msg d' Hwf Hdie; [discriminate|].
  cbn [drw_load_fonts] in Hdie.
  destruct (Nat.leb_spec CAP (fontcount d)) as [Hfull|Hroom].
  - injection Hdie as <- <-. split; [assumption|].
    split; [apply cache_extends_refl|]. left. split; [reflexivity|].
    destruct Hwf as (_ & Hmax & _). split; [lia|discriminate].
  - destruct name as [n|].
    + unfold drw_font_xcreate in Hdie.
      assert (Hnext : exists d1, cache_wf CAP d1 /\ cache_extends d d1 /\
                                 exists msgs,
                                   ('(d'', msgs') <- drw_load_fonts CAP d1 names ;;
                                    Ret (d'', msgs ++ msgs')) = Die msg d').
      { destruct (XftFontOpenName n) as [xf|].
        - destruct (FcNameParse n) as [pat|].
          + cbn [bind] in Hdie.
            destruct (cache_push_ok CAP d (font_of xf (Some pat)) Hwf Hroom
                        (font_of_wf _ _)) as (d1 & Hpush & Hwf1 & Hext & _).
            rewrite Hpush in Hdie. cbn [bind] in Hdie. eauto 6.
          + cbn [bind] in Hdie. exists d. split; [assumption|].
            split; [apply cache_extends_refl|]. eauto.
        - cbn [bind] in Hdie. exists d. split; [assumption|].
          split; [apply cache_extends_refl|]. eauto. }
      destruct Hnext as (d1 & Hwf1 & Hext1 & msgs & Hrest).
      destruct (drw_load_fonts CAP d1 names) as [[d2 msgs2]|msg2 d2|] eqn:Hload;
        try discriminate.
      cbn [bind] in Hrest. injection Hrest as -> ->.
      destruct (IH d1 msg d' Hwf1 Hload) as (Hwf' & Hext' & Hwhy).
      split; [assumption|]. split; [eapply cache_extends_trans; eassumption|].
      destruct Hwhy as [(Hm & Hc & _)|(Hm & Hc & Hin)].
      * left. split; [assumption|]. split; [assumption|discriminate].
      * right. split; [assumption|]. split; [assumption|]. right. assumption.
    + cbn [drw_font_xcreate bind] in Hdie. injection Hdie as <- <-.
      split; [assumption|]. split; [apply cache_extends_refl|].
      right. split; [reflexivity|]. split; [assumption|]. left. reflexivity.
Qed.

End DieLaws.


(** * What drw_text adds to the cache *)

Section AddedLaws.
Context `{XftLib}.
Variable CAP : nat.

Local Arguments utf8decode : simpl never.
Local Arguments scan : simpl never.
Local Arguments text_loop : simpl never.
Local Arguments fill_buf : simpl never.
Local Arguments shorten : simpl never.
Local Arguments step : simpl never.

(** What the search for a fallback font leaves behind when it
    returns. *)
Lemma fallback_ret d cur cp d' cur' msgs :
  fallback CAP d cur cp = Ret (d', cur', msgs) ->
  (d' = d /\ (msgs = [] \/ msgs = [no_pattern_msg])) \/
  (msgs = [] /\ cur' = fontcount d /\
   exists xf, cache_push d (font_of xf None) = Ret d' /\
              XftCharExists xf cp = true).
Proof.
  unfold fallback, font_at.
  destruct (CAP <=? fontcount d); [intros [= <- _ <-]; auto|].
  destruct (fonts d !! 0) as [[f0|]|]; try discriminate. cbn [bind].
  destruct (pattern f0) as [template|]; [|discriminate].
  destruct (XftFontMatch template cp) as [m|]; [|intros [= <- _ <-]; auto].
  unfold drw_font_xcreate.
  destruct (XftFontOpenPattern m) as [xf|]; cbn [bind].
  - cbn [xfont font_of]. destruct (XftCharExists xf cp) eqn:Hex.
    + destruct (cache_push d (font_of xf None)) as [d1| |] eqn:Hpush;
        try discriminate.
      cbn [bind]. intros [= <- <- <-]. right. eauto.
    + intros [= <- _ <-]. auto.
  - intros [= <- _ <-]. left. split; [reflexivity|]. right. reflexivity.
Qed.

Lemma fetched_for_tail text t d i :
  tail_of text t -> fetched_for t d i -> fetched_for text d i.
Proof.
  intros Ht (f & t' & Hf & Hpat & Ht' & Hnn & Hex).
  exists f, t'. split; [assumption|]. split; [assumption|].
  split; [eapply tail_of_trans; eassumption|]. split; assumption.
Qed.

Lemma fetched_for_extends text d d' i :
  i < fontcount d -> cache_extends d d' ->
  fetched_for text d i -> fetched_for text d' i.
Proof.
  intros Hi (_ & _ & _ & Hsame) (f & t & Hf & Hrest).
  exists f, t. rewrite (Hsame i Hi). split; assumption.
Qed.

(** The fonts that the loop adds and the lines it prints. *)
Lemma text_loop_added render y hh fuel : forall st x d' err rs,
  state_ok CAP st ->
  text_loop CAP render y hh fuel st = Some (Ret (x, d', err, rs)) ->
  cache_extends (st_drw st) d' /\
  (forall i, fontcount (st_drw st) <= i < fontcount d' ->
     fetched_for (st_text st) d' i) /\
  exists n, err = st_err st ++ replicate n no_pattern_msg.
Proof.
  induction fuel as [|fuel IH]; intros st x d' err rs Hok Hloop; [discriminate|].
  destruct (step_forward CAP render y hh st Hok)
    as (k & nf & cp & x1 & w1 & r & Hk & Htail & Hstr & Hnf & Hstop & Hfit & Hstep).
  pose proof (step_spec CAP render y hh st Hok) as Hspec.
  unfold text_loop in Hloop; fold (text_loop CAP render y hh) in Hloop.
  destruct (nonnul (skipn k (st_text st))) eqn:Hnn; cbn [negb] in Hstep.
  2:{ rewrite Hstep in Hloop. injection Hloop as <- <- <- <-.
      split; [apply cache_extends_refl|].
      split; [intros i Hi; lia|]. exists 0. simpl. rewrite app_nil_r. reflexivity. }
  destruct (Hstop eq_refl) as (Hcp & _).
  assert (Hgo : forall st',
            step CAP render y hh st = Ret (Continue st' r) ->
            st_text st' = skipn k (st_text st) ->
            (forall i, fontcount (st_drw st) <= i < fontcount (st_drw st') ->
               fetched_for (st_text st) (st_drw st') i) ->
            (exists n, st_err st' = st_err st ++ replicate n no_pattern_msg) ->
            cache_extends (st_drw st) d' /\
            (forall i, fontcount (st_drw st) <= i < fontcount d' ->
               fetched_for (st_text st) d' i) /\
            exists n, err = st_err st ++ replicate n no_pattern_msg).
  { intros st' Hst' Htext Hnew (n1 & Herr1).
    rewrite Hst' in Hspec, Hloop. destruct Hspec as (Hok' & Hext & _).
    destruct (text_loop CAP render y hh fuel st')
      as [[[[[x0 d0] err0] rs0]|msg0 d0|]|] eqn:Hloop'; try discriminate.
    injection Hloop as <- <- <- <-.
    destruct (IH st' x0 d0 err0 rs0 Hok' Hloop') as (Hext' & Hlater & n2 & Herr2).
    split; [eapply cache_extends_trans; eassumption|].
    split.
    - intros i Hi.
      destruct (Nat.lt_ge_cases i (fontcount (st_drw st'))) as [Hlt|Hge].
      + eapply fetched_for_extends; [exact Hlt|exact Hext'|]. apply Hnew. lia.
      + apply (fetched_for_tail _ (st_text st')); [rewrite Htext; assumption|].
        apply Hlater. lia.
    - exists (n1 + n2). rewrite Herr2, Herr1, <- app_assoc, replicate_add.
      reflexivity. }
  destruct nf as [i|].
  - apply (Hgo _ Hstep); [reflexivity|intros j Hj; cbn [mk_state st_drw] in Hj; lia|].
    exists 0. cbn [mk_state st_err replicate]. rewrite app_nil_r. reflexivity.
  - destruct (fallback CAP (st_drw st) (st_curfont st) cp)
      as [[[d1 cur1] msgs]|msg1 d1|] eqn:Hfb; cbn [bind] in Hstep;
      [|rewrite Hstep in Hloop; discriminate..].
    apply (Hgo _ Hstep); [reflexivity| |]; cbn [mk_state st_drw st_err].
    + destruct (fallback_ret _ _ _ _ _ _ Hfb)
        as [(-> & _)|(_ & _ & xf & Hpush & Hex)]; [intros j Hj; lia|].
      intros j Hj.
      destruct (cache_push_fonts _ _ _ Hpush) as (Hcount & _ & Hfonts & Hlen).
      assert (j = fontcount (st_drw st)) as -> by lia.
      exists (font_of xf None), (skipn k (st_text st)).
      rewrite Hfonts, list_lookup_insert_eq by assumption.
      split; [reflexivity|]. split; [reflexivity|]. split; [assumption|].
      split; [assumption|]. rewrite <- Hcp. assumption.
    + destruct (fallback_ret _ _ _ _ _ _ Hfb)
        as [(_ & [-> | ->])|(-> & _)].
      * exists 0. reflexivity.
      * exists 1. reflexivity.
      * exists 0. reflexivity.
Qed.

(** X25.  What [drw_text] adds to the cache is what it had to fetch:
    every font in a slot that the call has filled has the glyph of a
    character of the text and carries no template, and the slots that
    were in use are as they were.  The only line the call can print is
    "error, cannot load font pattern.". *)
Theorem drw_text_adds_fetched_fonts d x y w hh text invert r d' :
  cache_wf CAP d ->
  drw_text CAP (Some d) x y w hh (Some text) invert = Some (Ret r) ->
  res_drw r = Some d' ->
  cache_extends d d' /\
  (forall i, fontcount d <= i < fontcount d' -> fetched_for text d' i) /\
  exists n, res_err r = replicate n no_pattern_msg.
Proof.
  intros Hwf Htext Hres.
  destruct (drw_text_runs CAP d x y w hh text invert r Hwf Htext)
    as [(_ & _ & Hidle)|(_ & _ & d1 & Hres1 & Hok & Hloop)].
  - assert (Hsame : res_drw r = Some d /\ res_err r = []).
    { unfold drw_text in Htext. destruct Hidle as [Hs|Hc].
      - rewrite Hs in Htext. injection Htext as <-. auto.
      - destruct (scheme d); [|injection Htext as <-; auto].
        rewrite Hc in Htext. injection Htext as <-. auto. }
    destruct Hsame as [Hd Herr]. rewrite Hd in Hres. injection Hres as <-.
    split; [apply cache_extends_refl|]. split; [intros i Hi; lia|].
    exists 0. assumption.
  - rewrite Hres1 in Hres. injection Hres as ->.
    exact (text_loop_added _ _ _ _ _ _ _ _ _ Hok Hloop).
Qed.

End AddedLaws.


(** * The cache settles *)

Section SettleLaws.
Context `{XftLib}.
Variable CAP : nat.

Local Arguments utf8decode : simpl never.
Local Arguments scan : simpl never.
Local Arguments text_loop : simpl never.
Local Arguments fill_buf : simpl never.
Local Arguments shorten : simpl never.
Local Arguments step : simpl never.

(** A glyph that the cache has stays in the cache while it grows. *)
Lemma found_extends d d' cp :
  cache_extends d d' -> found d cp <> None -> found d' cp <> None.
Proof.
  intros (Hle & _ & _ & Hsame) Hfound. unfold found in *.
  assert (Hgen : forall n i m,
            (forall j, i <= j < i + n -> fonts d' !! j = fonts d !! j) ->
            n <= m ->
            find_font d cp n i <> None -> find_font d' cp m i <> None).
  { induction n as [|n IH]; intros i m Hs Hnm Hf; [contradiction|].
    destruct m as [|m]; [lia|]. simpl in *.
    rewrite Hs by lia.
    destruct (fonts d !! i) as [[f|]|]; try contradiction.
    destruct (XftCharExists (xfont f) cp); [discriminate|].
    apply (IH (S i) m); [intros j Hj; apply Hs; lia|lia|assumption]. }
  apply (Hgen (fontcount d) 0 (fontcount d')); [|assumption..].
  intros j Hj. apply Hsame. lia.
Qed.

(** Whatever the search for a fallback font did for a codepoint, it has
    nothing more to do for it in a cache grown from the one it left. *)
Lemma fallback_settles d cur cp d1 cur1 msgs d' :
  cache_wf CAP d -> 0 < fontcount d ->
  fallback CAP d cur cp = Ret (d1, cur1, msgs) ->
  cache_extends d d1 -> cache_extends d1 d' ->
  settled_at CAP d' cp.
Proof.
  intros Hwf Hpos Hfb Hext1 Hext.
  assert (Hext0 : cache_extends d d') by (eapply cache_extends_trans; eassumption).
  assert (Hfull : CAP <= fontcount d' -> settled_at CAP d' cp).
  { intros Hle. right. intros cur2. exists cur2, []. unfold fallback.
    destruct (Nat.leb_spec CAP (fontcount d')); [reflexivity|lia]. }
  destruct (Nat.le_gt_cases CAP (fontcount d')) as [Hle|Hroom'];
    [auto|clear Hfull].
  assert (Hroom : fontcount d < CAP) by (destruct Hext0 as [? _]; lia).
  assert (Hzero : fonts d' !! 0 = fonts d !! 0)
    by (destruct Hext0 as (_ & _ & _ & Hs); apply Hs; assumption).
  unfold fallback, font_at in Hfb.
  destruct (Nat.leb_spec CAP (fontcount d)); [lia|].
  destruct (fonts d !! 0) as [[f0|]|] eqn:Hf0; try discriminate.
  cbn [bind] in Hfb.
  destruct (pattern f0) as [template|] eqn:Hpat; [|discriminate].
  assert (Hsame : forall r,
            (forall cur2, exists cur' msgs',
               match XftFontMatch template cp with
               | None => Ret (d', cur2, [])
               | Some m =>
                   '(created, msgs) <- drw_font_xcreate d' None (Some m) ;;
                   match created with
                   | Some f =>
                       if XftCharExists (xfont f) cp
                       then d2 <- cache_push d' f ;; Ret (d2, fontcount d', msgs)
                       else Ret (d', O, msgs)
                   | None => Ret (d', O, msgs)
                   end
               end = Ret (d', cur', msgs')) ->
            r = settled_at CAP d' cp -> r).
  { intros r Hall ->. right. intros cur2. unfold fallback, font_at.
    destruct (Nat.leb_spec CAP (fontcount d')); [lia|].
    rewrite Hzero. cbn [bind]. rewrite Hpat. apply Hall. }
  destruct (XftFontMatch template cp) as [m|].
  - unfold drw_font_xcreate in *.
    destruct (XftFontOpenPattern m) as [xf|]; cbn [bind] in *.
    + cbn [xfont font_of] in *. destruct (XftCharExists xf cp) eqn:Hex.
      * destruct (cache_push d (font_of xf None)) as [d2| |] eqn:Hpush;
          try discriminate.
        cbn [bind] in Hfb. injection Hfb as <- _ _.
        left. apply (found_extends d2 d' cp Hext).
        apply (found_after_push CAP d (font_of xf None) d2 cp); try assumption.
        apply font_of_wf.
      * apply (Hsame _ ltac:(intros cur2; eauto) eq_refl).
    + apply (Hsame _ ltac:(intros cur2; eauto) eq_refl).
  - apply (Hsame _ ltac:(intros cur2; eauto) eq_refl).
Qed.

(** When the loop returns, the cache it leaves has nothing more to fetch
    for the text: every character of it has its glyph in the cache or is
    one for which the search finds nothing new.  The character at the
    head is left out when the loop was entered with its glyph taken for
    granted. *)
Lemma text_loop_leaves_settled render y hh fuel : forall st x d' err rs,
  state_ok CAP st ->
  text_loop CAP render y hh fuel st = Some (Ret (x, d', err, rs)) ->
  cache_wf CAP d' /\ cache_extends (st_drw st) d' /\
  forall t, tail_of (st_text st) t -> nonnul t = true ->
    settled_at CAP d' (head_codepoint t) \/
    (st_charexists st = true /\ t = st_text st).
Proof.
  induction fuel as [|fuel IH]; intros st x d' err rs Hok Hloop; [discriminate|].
  destruct (step_forward_passed CAP render y hh st Hok)
    as (k & nf & cp & x1 & w1 & r & Hk & Htail & Hstr & Hnf & Hstop & Hpassed
        & Hfit & Hstep).
  pose proof (step_spec CAP render y hh st Hok) as Hspec.
  unfold text_loop in Hloop; fold (text_loop CAP render y hh) in Hloop.
  destruct (nonnul (skipn k (st_text st))) eqn:Hnn; cbn [negb] in Hstep.
  2:{ rewrite Hstep in Hloop. injection Hloop as <- <- <- <-.
      split; [apply Hok|]. split; [apply cache_extends_refl|].
      intros t Ht Hnt. destruct (Hpassed t Ht) as [Hin|[Hcov|Hhead]].
      - apply (tail_of_end _ _ Hnn) in Hin. congruence.
      - left. left. assumption.
      - right. assumption. }
  destruct (Hstop eq_refl) as (Hcp & _).
  assert (Hgo : forall st',
            step CAP render y hh st = Ret (Continue st' r) ->
            st_text st' = skipn k (st_text st) ->
            (forall d2, cache_extends (st_drw st') d2 ->
               st_charexists st' = true -> settled_at CAP d2 cp) ->
            cache_wf CAP d' /\ cache_extends (st_drw st) d' /\
            forall t, tail_of (st_text st) t -> nonnul t = true ->
              settled_at CAP d' (head_codepoint t) \/
              (st_charexists st = true /\ t = st_text st)).
  { intros st' Hst' Htext Hforced.
    rewrite Hst' in Hspec, Hloop. destruct Hspec as (Hok' & Hext & _).
    destruct (text_loop CAP render y hh fuel st')
      as [[[[[x0 d0] err0] rs0]|msg0 d0|]|] eqn:Hloop'; try discriminate.
    injection Hloop as <- <- <- <-.
    destruct (IH st' x0 d0 err0 rs0 Hok' Hloop') as (Hwf' & Hext' & Hlater).
    split; [assumption|].
    split; [eapply cache_extends_trans; eassumption|].
    intros t Ht Hnt. destruct (Hpassed t Ht) as [Hin|[Hcov|Hhead]].
    - rewrite <- Htext in Hin.
      destruct (Hlater t Hin Hnt) as [Hs|(Hce & ->)]; [left; assumption|].
      left. rewrite Htext, <- Hcp. apply Hforced; assumption.
    - left. left. apply (found_extends (st_drw st) d0);
        [eapply cache_extends_trans; eassumption|assumption].
    - right. assumption. }
  destruct nf as [i|].
  - apply (Hgo _ Hstep); [reflexivity|]. cbn [mk_state st_charexists].
    intros d2 _ Hce. discriminate Hce.
  - destruct (fallback CAP (st_drw st) (st_curfont st) cp)
      as [[[d1 cur1] msgs]|msg1 d1|] eqn:Hfb; cbn [bind] in Hstep;
      [|rewrite Hstep in Hloop; discriminate..].
    apply (Hgo _ Hstep); [reflexivity|]. cbn [mk_state st_drw].
    intros d2 Hext2 _.
    rewrite Hstep in Hspec. destruct Hspec as (_ & Hext1 & _).
    cbn [mk_state st_drw] in Hext1.
    destruct Hok as (Hwf & Hpos & _).
    eapply fallback_settles; eassumption.
Qed.

(** On a cache that has nothing more to fetch for the text, the loop
    returns and the cache is as it was. *)
Lemma text_loop_settled render y hh fuel : forall st,
  state_ok CAP st ->
  (forall t, tail_of (st_text st) t -> nonnul t = true ->
     settled_at CAP (st_drw st) (head_codepoint t)) ->
  variant st < fuel ->
  exists x err rs,
    text_loop CAP render y hh fuel st = Some (Ret (x, st_drw st, err, rs)).
Proof.
  induction fuel as [|fuel IH]; intros st Hok Hset Hfuel; [lia|].
  destruct (step_forward CAP render y hh st Hok)
    as (k & nf & cp & x1 & w1 & r & Hk & Htail & Hstr & Hnf & Hstop & Hfit & Hstep).
  pose proof (step_spec CAP render y hh st Hok) as Hspec.
  unfold text_loop; fold (text_loop CAP render y hh).
  destruct (nonnul (skipn k (st_text st))) eqn:Hnn; cbn [negb] in Hstep;
    [|rewrite Hstep; eauto].
  destruct (Hstop eq_refl) as (Hcp & Hhit).
  assert (Hgo : forall st',
            step CAP render y hh st = Ret (Continue st' r) ->
            st_text st' = skipn k (st_text st) -> st_drw st' = st_drw st ->
            exists x err rs,
              match step CAP render y hh st with
              | Ret (Done x d err r) => Some (Ret (x, d, err, add_run r []))
              | Ret (Continue st' r) =>
                  match text_loop CAP render y hh fuel st' with
                  | Some (Ret (x, d, err, rs)) =>
                      Some (Ret (x, d, err, add_run r rs))
                  | other => other
                  end
              | Die msg d => Some (Die msg d)
              | Fault => Some Fault
              end = Some (Ret (x, st_drw st, err, rs))).
  { intros st' Hst' Htext Hdrw.
    rewrite Hst' in Hspec |- *. destruct Hspec as (Hok' & _ & Hvar).
    destruct (IH st' Hok') as (x & err & rs & Hrest).
    - rewrite Htext, Hdrw. intros t Ht Hnt. apply Hset; [|assumption].
      eapply tail_of_trans; eassumption.
    - lia.
    - rewrite Hrest, Hdrw. eauto. }
  destruct nf as [i|].
  - apply (Hgo _ Hstep); reflexivity.
  - destruct (Hset _ Htail Hnn) as [Hfound|Hnoop];
      [rewrite <- Hcp in Hfound; contradiction|].
    destruct (Hnoop (st_curfont st)) as (cur' & msgs & Hfb).
    rewrite <- Hcp in Hfb. rewrite Hfb in Hstep. cbn [bind] in Hstep.
    apply (Hgo _ Hstep); reflexivity.
Qed.

(** X28.  The cache settles.  On the surface that a call of [drw_text]
    has left, a call with the same text - at any place, with any box,
    measuring or rendering - returns and leaves the cache as it is: it
    adds no font and cannot end the process. *)
Theorem drw_text_settles d x y w hh text invert r d' :
  cache_wf CAP d ->
  drw_text CAP (Some d) x y w hh (Some text) invert = Some (Ret r) ->
  res_drw r = Some d' ->
  forall x2 y2 w2 hh2 invert2,
  exists r2,
    drw_text CAP (Some d') x2 y2 w2 hh2 (Some text) invert2 = Some (Ret r2) /\
    res_drw r2 = Some d'.
Proof.
  intros Hwf Htext Hres x2 y2 w2 hh2 invert2.
  destruct (drw_text_runs CAP d x y w hh text invert r Hwf Htext)
    as [(_ & _ & Hidle)|(Hscm0 & _ & d1 & Hres1 & Hok & Hloop)].
  - assert (Hsame : res_drw r = Some d).
    { unfold drw_text in Htext. destruct Hidle as [Hs|Hc].
      - rewrite Hs in Htext. injection Htext as <-. reflexivity.
      - destruct (scheme d); [|injection Htext as <-; reflexivity].
        rewrite Hc in Htext. injection Htext as <-. reflexivity. }
    rewrite Hsame in Hres. injection Hres as <-.
    unfold drw_text. destruct Hidle as [Hs|Hc].
    + rewrite Hs. eexists. split; reflexivity.
    + destruct (scheme d); [|eexists; split; reflexivity].
      rewrite Hc. eexists. split; reflexivity.
  - rewrite Hres1 in Hres. injection Hres as ->.
    destruct (text_loop_leaves_settled _ _ _ _ _ _ _ _ _ Hok Hloop)
      as (Hwf' & Hext & Hset).
    cbn [st_drw st_text st_charexists] in Hext, Hset.
    assert (Hpos : fontcount d' <> 0).
    { destruct Hok as (_ & Hpos & _). destruct Hext as [Hle _].
      cbn [st_drw] in Hpos. lia. }
    assert (Hscm : scheme d' <> None).
    { destruct Hext as (_ & -> & _). assumption. }
    destruct (initial_state_ok CAP d' text x2 (budget x2 y2 w2 hh2) Hwf' Hpos)
      as [Hok2 Hfuel].
    destruct (text_loop_settled (rendering x2 y2 w2 hh2) y2 hh2 (text_fuel text)
                _ Hok2) as (x' & err & rs & Hloop2).
    + cbn [st_drw st_text]. intros t Ht Hnt.
      destruct (Hset t Ht Hnt) as [Hs|(Hce & _)]; [assumption|discriminate].
    + assumption.
    + unfold drw_text. destruct (scheme d'); [|congruence].
      destruct (Nat.eqb_spec (fontcount d') 0); [contradiction|].
      cbn [st_drw] in Hloop2. rewrite Hloop2.
      eexists. split; reflexivity.
Qed.

End SettleLaws.


(** * Where a run is drawn *)

Section DrawLaws.
Context `{XftLib}.
Variable CAP : nat.

Local Arguments utf8decode : simpl never.
Local Arguments fill_buf : simpl never.
Local Arguments shorten : simpl never.

Local Open Scope Z_scope.

(** X27.  Where a run is drawn.  The text starts half the height of the
    box to the right of the cursor.  When the line of the font is not
    higher than the box - and the numbers are far from the ends of int -
    the line is centred in the box: the baseline is put so that the top
    of the line is not above the top of the box and its bottom not below
    the bottom of the box. *)
Theorem fit_draw_position d cur x y w hh str strlen x' w' run f tx ty :
  fit d cur true x y w hh str strlen = Ret (x', w', Some run) ->
  fonts d !! cur = Some (Some f) ->
  run_draw run = Some (tx, ty) ->
  0 <= x < 2 ^ 29 -> 0 <= y < 2 ^ 29 -> 0 <= hh < 2 ^ 29 ->
  0 <= ascent f -> 0 <= descent f -> ascent f + descent f <= hh ->
  tx = x + hh / 2 /\
  ty = y + hh / 2 - (ascent f + descent f) / 2 + ascent f /\
  y <= ty - ascent f /\ ty + descent f <= y + hh.
Proof.
  intros Hfit Hf Hdraw Hx Hy Hh Ha Hd Hth. unfold fit, font_at in Hfit.
  destruct (strlen =? 0)%nat; [discriminate|].
  rewrite Hf in Hfit. cbn [bind] in Hfit.
  destruct (fonts d !! 0%nat) as [[f0|]|]; try discriminate. cbn [bind] in Hfit.
  destruct (shorten _ _ _ _ _ _) as [len ew].
  destruct (len =? 0)%nat.
  - injection Hfit as _ _ <-. discriminate Hdraw.
  - injection Hfit as _ _ <-. cbn [run_draw] in Hdraw. injection Hdraw as <- <-.
    assert (Hhalf : 0 <= hh / 2 <= hh)
      by (split; [apply Z.div_pos; lia|apply Z.div_le_upper_bound; lia]).
    assert (Hth2 : 0 <= (ascent f + descent f) / 2 <= hh / 2)
      by (split; [apply Z.div_pos; lia|apply Z.div_le_mono; lia]).
    rewrite (sint_small (ascent f + descent f)) by lia.
    rewrite Z.quot_div_nonneg by lia.
    rewrite (sint_small (x + hh / 2)) by lia.
    rewrite (sint_small (y + hh / 2 - (ascent f + descent f) / 2 + ascent f)) by lia.
    split; [reflexivity|]. split; [reflexivity|].
    pose proof (Z.div_mod hh 2 ltac:(lia)) as E1.
    pose proof (Z.mod_pos_bound hh 2 ltac:(lia)) as B1.
    pose proof (Z.div_mod (ascent f + descent f) 2 ltac:(lia)) as E2.
    pose proof (Z.mod_pos_bound (ascent f + descent f) 2 ltac:(lia)) as B2.
    split; [lia|].
    assert (Hceil : (ascent f + descent f) - (ascent f + descent f) / 2
                    <= hh - hh / 2).
    { assert (ascent f + descent f + 1 <= hh + 1) by lia.
      assert (Hm : (ascent f + descent f + 1) / 2 <= (hh + 1) / 2)
        by (apply Z.div_le_mono; lia).
      assert (U1 : (ascent f + descent f + 1) / 2
                   = ascent f + descent f - (ascent f + descent f) / 2).
      { symmetry. apply Z.div_unique with
          (if (ascent f + descent f) mod 2 =? 0 then 1 else 0);
          destruct (Z.eqb_spec ((ascent f + descent f) mod 2) 0); lia. }
      assert (U2 : (hh + 1) / 2 = hh - hh / 2).
      { symmetry. apply Z.div_unique with (if hh mod 2 =? 0 then 1 else 0);
          destruct (Z.eqb_spec (hh mod 2) 0); lia. }
      lia. }
    lia.
Qed.

End DrawLaws.


(** * drw_rect and drw_free *)

Section ReleaseLaws.
Context `{XftLib}.
Variable CAP : nat.

(** X21.  [drw_rect] makes no call at all without a surface, without a
    font in the cache or without a scheme.  Otherwise, on a cache in
    order, it sets the foreground - the background colour of the scheme
    when [invert] is set, the foreground colour when not - and draws at
    most one square, with its corner at [x + 1, y + 1]: filled when
    [filled] is set, else outlined when [empty] is set, else none.  The
    side of the square comes from the primary font alone, a quarter of
    its height plus 2; the arguments [w] and [h] have no part in it. *)
Theorem drw_rect_square d x y w hh filled empty invert :
  cache_wf CAP d ->
  (fontcount d = 0 \/ scheme d = None ->
   drw_rect (Some d) x y w hh filled empty invert = Ret []) /\
  drw_rect None x y w hh filled empty invert = Ret [] /\
  (forall scm f0,
     fontcount d <> 0 -> scheme d = Some scm -> fonts d !! 0 = Some (Some f0) ->
     exists dx,
       (0 <= ascent f0 + descent f0 < 2 ^ 31 - 2 ->
        4 * dx <= ascent f0 + descent f0 + 2 < 4 * dx + 4)%Z /\
       drw_rect (Some d) x y w hh filled empty invert
       = Ret (XSetForeground (if invert then bg scm else fg scm)
              :: (if filled
                  then [XFillRectangle (sint (x + 1)) (sint (y + 1))
                          (uint (dx + 1)) (uint (dx + 1))]
                  else if empty
                  then [XDrawRectangle (sint (x + 1)) (sint (y + 1))
                          (uint dx) (uint dx)]
                  else [])) /\
       forall w' hh',
         drw_rect (Some d) x y w' hh' filled empty invert
         = drw_rect (Some d) x y w hh filled empty invert) /\
  (exists calls, drw_rect (Some d) x y w hh filled empty invert = Ret calls).
Proof.
  intros Hwf. split; [|split; [reflexivity|split]].
  - intros [Hz|Hs]; unfold drw_rect.
    + rewrite Hz. reflexivity.
    + rewrite Hs. destruct (fontcount d =? 0); reflexivity.
  - intros scm f0 Hcount Hscm Hf0.
    exists (Z.quot (sint (ascent f0 + descent f0 + 2)) 4).
    split; [|split; [|reflexivity]].
    + intros Hh.
      assert (Hs : sint (ascent f0 + descent f0 + 2) = (ascent f0 + descent f0 + 2)%Z).
      { unfold sint. rewrite Z.mod_small by lia.
        destruct (Z.ltb_spec (ascent f0 + descent f0 + 2) (2 ^ 31)); lia. }
      rewrite Hs.
      pose proof (Z.quot_rem' (ascent f0 + descent f0 + 2) 4) as Hqr.
      pose proof (Z.rem_bound_pos (ascent f0 + descent f0 + 2) 4 ltac:(lia) ltac:(lia)).
      lia.
    + unfold drw_rect, font_at.
      destruct (Nat.eqb_spec (fontcount d) 0); [contradiction|].
      rewrite Hscm, Hf0. reflexivity.
  - unfold drw_rect. destruct (Nat.eqb_spec (fontcount d) 0); [eauto|].
    destruct (scheme d); [|eauto].
    destruct (font_at_ok CAP d 0 Hwf ltac:(lia)) as (f0 & -> & _).
    cbn [bind]. eauto.
Qed.

Lemma free_fonts_spec d : forall n i,
  i + n <= length (fonts d) ->
  free_fonts d n i
  = Ret (concat (map drw_font_free (take n (drop i (fonts d))))).
Proof.
  induction n as [|n IH]; intros i Hlen; [reflexivity|].
  cbn [free_fonts].
  destruct (fonts d !! i) as [font|] eqn:Hi.
  - rewrite IH by lia. cbn [bind].
    rewrite (drop_S _ _ _ Hi). reflexivity.
  - apply lookup_ge_None in Hi. lia.
Qed.

Lemma closed_app a b : closed (a ++ b) = closed a ++ closed b.
Proof. unfold closed. apply omap_app. Qed.

Lemma destroyed_app a b : destroyed (a ++ b) = destroyed a ++ destroyed b.
Proof. unfold destroyed. apply omap_app. Qed.

Lemma closed_fonts (l : list (option Fnt)) :
  closed (concat (map drw_font_free l)) = map xfont (omap id l) /\
  destroyed (concat (map drw_font_free l)) = omap pattern (omap id l).
Proof.
  induction l as [|[f|] l [IH1 IH2]]; [split; reflexivity| |].
  - cbn [map concat]. rewrite closed_app, destroyed_app, IH1, IH2.
    unfold drw_font_free. rewrite closed_app, destroyed_app.
    cbn [omap list_omap id]. fold (omap id l). fold (omap pattern (omap id l)).
    destruct (pattern f) as [p|]; split; reflexivity.
  - cbn [map concat drw_font_free app omap list_omap id].
    fold (omap id l). split; assumption.
Qed.

(** X22.  On a cache in order [drw_free] returns, and it gives back
    exactly what the cache holds: every font in a slot in use is closed
    once, in the order of the slots, and the template of every font
    that carries one is destroyed once; the slots behind [fontcount] are
    not looked at.  Then the pixmap and the graphics context are freed.
    A NULL surface is not caught: the call faults. *)
Theorem drw_free_releases d :
  cache_wf CAP d ->
  drw_free None = Fault /\
  exists calls,
    drw_free (Some d) = Ret (calls ++ [XFreePixmap; XFreeGC]) /\
    closed calls = map xfont (cached_fonts d) /\
    destroyed calls = omap pattern (cached_fonts d) /\
    length (cached_fonts d) = fontcount d /\
    Forall (fun c => match c with
                     | XftFontClose _ | FcPatternDestroy _ => True
                     | _ => False
                     end) calls.
Proof.
  intros (Hlen & Hmax & Hslots). split; [reflexivity|].
  exists (concat (map drw_font_free (take (fontcount d) (fonts d)))).
  unfold drw_free. rewrite free_fonts_spec by lia. rewrite drop_0. cbn [bind].
  split; [reflexivity|].
  destruct (closed_fonts (take (fontcount d) (fonts d))) as [Hc Hd].
  split; [exact Hc|]. split; [exact Hd|]. split.
  - unfold cached_fonts.
    assert (Hall : forall n, n <= fontcount d ->
              length (omap id (take n (fonts d))) = n).
    { induction n as [|n IH]; intros Hn; [reflexivity|].
      destruct (Hslots n ltac:(lia)) as (f & Hf & _).
      rewrite (take_S_r _ _ _ Hf), omap_app, length_app, IH by lia.
      simpl. lia. }
    apply Hall. lia.
  - apply Forall_concat. apply Forall_map. apply Forall_true.
    intros [f|]; simpl; [|constructor].
    destruct (pattern f); repeat constructor.
Qed.

End ReleaseLaws.

(** * The claims at work in the small world *)

(** Slot by slot: the caches of the small world are well formed. *)
Ltac demo_wf :=
  split; [reflexivity|];
  split; [simpl; lia|];
  intros [|[|[|i]]] Hi; simpl in Hi; try lia;
  (eexists; split; [reflexivity|vm_compute; split; [discriminate|reflexivity]]).

Ltac demo_template := intros f [= <-]; discriminate.

(** A surface from its creation to a fit: two of three fonts load, the
    snowman brings a third font into the cache, and the euro sign, for
    which the matcher names a font without the glyph, goes to cache[0]. *)
Example surface_lifecycle :
  exists d r,
    @drw_load_fonts Demo.xft 3 (drw_create 3)
      [Some "mono"; Some "nope"; Some "greek"]%string
    = Ret (d, [cannot_load "nope"]) /\
    drw_setscheme d (Some Demo.scm) = Demo.room3 /\
    @drw_text Demo.xft 3 (Some Demo.room3) 0 0 0 0
      (Some (Demo.snowman ++ Demo.euro ++ Demo.yen)) false = Some (Ret r) /\
    res_x r = 80%Z /\
    map run_font (res_runs r) = [2; 0; 0] /\
    option_map fontcount (res_drw r) = Some 3.
Proof.
  do 2 eexists. split; [vm_compute; reflexivity|].
  split; [reflexivity|]. split; [vm_compute; reflexivity|].
  split; [reflexivity|]. split; reflexivity.
Qed.

Lemma utf8decode_needs_more_input_witness :
  (snd (utf8decode [0xE2; 0x82]%Z 2) < 3) /\
  fst (utf8decode [0xE2; 0x82]%Z 2) = UTF_INVALID.
Proof.
  apply (utf8decode_needs_more_input [0xE2; 0x82]%Z 2).
  - vm_compute. lia.
  - vm_compute. lia.
Defined.

Lemma utf8decode_invalid_scalar_witness :
  utf8decode [0xED; 0xA0; 0x80]%Z 4 = (UTF_INVALID, 3).
Proof.
  apply (utf8decode_invalid_scalar [0xED; 0xA0; 0x80]%Z 4).
  - vm_compute. lia.
  - vm_compute. lia.
  - intros [|[|[|i]]] Hi; vm_compute in Hi; try lia; reflexivity.
  - right. reflexivity.
Defined.



Lemma drw_text_nothing_to_lay_out_witness :
  exists r,
    @drw_text Demo.xft 2 None 3 4 50 20 (Some Demo.hello) true = Some (Ret r) /\
    res_x r = 0%Z /\ res_runs r = [] /\ res_err r = [] /\ res_drw r = None.
Proof.
  apply (@drw_text_nothing_to_lay_out Demo.xft 2 None 3 4 50 20
           (Some Demo.hello) true).
  left. reflexivity.
Defined.

Lemma cache_never_overflows_witness :
  @fallback Demo.xft 2 Demo.full2 1 0x2603 = Ret (Demo.full2, 1, []).
Proof.
  destruct (@cache_never_overflows Demo.xft 2 Demo.full2) as (_ & _ & Hskip).
  - demo_wf.
  - apply Hskip. simpl. lia.
Defined.

Lemma drw_load_fonts_batch_witness :
  ends_in (fun d' => cache_wf 3 d' /\ cache_extends Demo.room3 d') fst
    (@drw_load_fonts Demo.xft 3 Demo.room3
       [Some "nope"; Some "mirror"]%string) /\
  @drw_load_fonts Demo.xft 3 Demo.room3 [Some "nope"; Some "mirror"]%string
  = bind (@drw_load_fonts Demo.xft 3 Demo.room3 [Some "mirror"%string])
      (fun '(d', msgs') => Ret (d', [cannot_load "nope"] ++ msgs')) /\
  @drw_load_fonts Demo.xft 2 Demo.full2 [Some "mirror"%string]
  = Die "Font cache exhausted." Demo.full2.
Proof.
  destruct (@drw_load_fonts_batch Demo.xft 3) as (Hkeep & Hskip & _).
  destruct (@drw_load_fonts_batch Demo.xft 2) as (_ & _ & Hfull).
  split; [|split].
  - apply Hkeep. demo_wf.
  - apply (Hskip Demo.room3 (Some "nope"%string) [Some "mirror"%string]
             [cannot_load "nope"]).
    + simpl. lia.
    + reflexivity.
  - apply Hfull. simpl. lia.
Defined.

Lemma measure_only_sum_witness :
  exists r,
    @drw_text Demo.xft 1 (Some Demo.mono1) 0 0 0 0 (Some Demo.hello) false
    = Some (Ret r) /\
    res_x r = 50%Z.
Proof.
  destruct (@measure_only_sum Demo.xft 1 Demo.mono1 Demo.hello false)
    as (r & Hr & Hsum).
  - split; [demo_wf|intros _; demo_template].
  - exists r. split; [exact Hr|].
    vm_compute in Hr. injection Hr as <-.
    destruct Hsum as [Hx _]; [vm_compute; discriminate|].
    exact Hx.
Defined.


Lemma full_cache_glyph_goes_to_primary_witness :
  @fallback Demo.xft 1 Demo.mono1 0 (head_codepoint Demo.snowman)
  = Ret (Demo.mono1, 0, []) /\
  @takes_head Demo.xft 1 false 0 0
    (mk_state Demo.mono1 Demo.snowman 0 true 0x2603 0 (2 ^ 32 - 1) []) 0.
Proof.
  destruct (@full_cache_glyph_goes_to_primary Demo.xft 1 false 0 0 Demo.mono1
              Demo.snowman 0 true 0x2603 0 (2 ^ 32 - 1) [])
    as (Hskip & _ & Hone).
  - demo_wf.
  - simpl. lia.
  - reflexivity.
  - reflexivity.
  - simpl. lia.
  - split; [exact Hskip|]. apply Hone. reflexivity.
Defined.

Lemma fallback_acquisition_witness :
  exists d',
    @fallback Demo.xft 3 Demo.room3 1 (head_codepoint Demo.snowman)
    = Ret (d', 2, []) /\
    @takes_head Demo.xft 3 false 0 0
      (mk_state d' Demo.snowman 2 true 0x2603 20 (2 ^ 32 - 21) []) 2.
Proof.
  pose proof (@fallback_acquisition Demo.xft 3 false 0 0 Demo.room3
                Demo.snowman 1 0x2603 20 (2 ^ 32 - 21) [] Demo.mono 4) as Hw.
  destruct Hw as (d' & Hfb & _ & _ & _ & Htakes).
  - demo_wf.
  - simpl. lia.
  - reflexivity.
  - reflexivity.
  - simpl. lia.
  - reflexivity.
  - reflexivity.
  - exists d'. split; [exact Hfb|exact Htakes].
Defined.

(** C2, as it stands, fails.  The cache of capacity 2 is full with the
    ASCII face in slot 0 and the Greek face in slot 1; the text is a beta
    followed by a snowman, which neither face has.  The first iteration
    of [drw_text] switches to the Greek face; the second takes the beta,
    comes upon the snowman with the Greek face as the current font, and
    skips the search, which leaves the loop in the state [st] with the
    current font as it was.  Yet the run that takes the snowman is a run
    of slot 0. *)
Lemma full_cache_glyph_not_current_font :
  let start :=
    mk_state Demo.full2 (Demo.beta ++ Demo.snowman) 0 false 0 0 (2 ^ 32 - 1) [] in
  let greek :=
    mk_state Demo.full2 (Demo.beta ++ Demo.snowman) 1 false 0x3B2 0
      (2 ^ 32 - 1) [] in
  let st :=
    mk_state Demo.full2 Demo.snowman 1 true 0x2603 20 (2 ^ 32 - 21) [] in
  @step Demo.xft 2 false 0 0 start = Ret (Continue greek None) /\
  (exists r, @step Demo.xft 2 false 0 0 greek = Ret (Continue st (Some r))) /\
  2 <= fontcount Demo.full2 /\
  @found Demo.xft Demo.full2 (head_codepoint Demo.snowman) = None /\
  @fallback Demo.xft 2 Demo.full2 1 (head_codepoint Demo.snowman)
  = Ret (Demo.full2, 1, []) /\
  ~ @takes_head Demo.xft 2 false 0 0 st (st_curfont st) /\
  exists r,
    @drw_text Demo.xft 2 (Some Demo.full2) 0 0 0 0
      (Some (Demo.beta ++ Demo.snowman)) false = Some (Ret r) /\
    map run_font (res_runs r) = [1; 0] /\
    map run_strlen (res_runs r) = [2; 3].
Proof.
  intros start greek st.
  split; [reflexivity|]. split; [eexists; reflexivity|].
  split; [simpl; lia|]. split; [reflexivity|]. split; [reflexivity|]. split.
  - intros [_ Hfirst].
    destruct (Hfirst 4 50%Z Demo.full2 []
                [{| run_font := 0; run_str := Demo.snowman; run_strlen := 3;
                    run_full := 30%Z; run_len := 3; run_ew := 30%Z;
                    run_buf := Demo.snowman; run_draw := None |}])
      as (r & rs' & Hrs & Hfont & _); [vm_compute; reflexivity|].
    injection Hrs as <- _. discriminate Hfont.
  - eexists. split; [vm_compute; reflexivity|]. split; reflexivity.
Qed.

(** C5, as it stands, fails.  The cache holds one face whose advances
    run to the left: the extents of an "a" have xOff = -10 (the field is
    a signed short), which the code stores as the unsigned 4294967286.
    In measure-only mode that is more than the budget of all ones less
    the line height 20, so the run is shortened to nothing and the
    returned x is 0 - not the sum of the measured widths. *)
Lemma measure_only_truncates :
  exists r run,
    @drw_text Demo.xft 1 (Some Demo.mirror1) 0 0 0 0 (Some [0x61]%Z) false
    = Some (Ret r) /\
    res_runs r = [run] /\
    run_strlen run = 1 /\ run_full run = 4294967286%Z /\
    run_len run = 0 /\
    res_x r = 0%Z /\
    sint (total_width (res_runs r)) = (- 10)%Z.
Proof.
  do 2 eexists. split; [vm_compute; reflexivity|].
  split; [reflexivity|]. repeat (split; [reflexivity|]). reflexivity.
Qed.


(** * The further properties at work in the small world *)

Lemma utf8decode_well_formed_witness :
  utf8decode [0xE2; 0x82; 0xAC]%Z 4 = (0x20AC%Z, 3).
Proof.
  exact (proj1 (proj2 (proj2 (utf8decode_well_formed [] 4))) 0x20AC%Z
           ltac:(lia) ltac:(lia) ltac:(lia)).
Defined.

Lemma utf8decode_scalar_value_witness :
  (0 <= 0x20AC <= 0x10FFFF)%Z /\ ~ (0xD800 <= 0x20AC <= 0xDFFF)%Z /\
  (0x20AC%Z <> UTF_INVALID ->
   1 <= 3 <= UTF_SIZ /\ (utfmin 3 <= 0x20AC <= utfmax 3)%Z).
Proof. exact (utf8decode_scalar_value [0xE2; 0x82; 0xAC]%Z 4). Defined.

Lemma utf8decode_count_witness :
  snd (utf8decode [0xE2; 0x82]%Z 2) <= 2 /\
  snd (utf8decode [0xE2; 0x82]%Z 2) <= UTF_SIZ /\
  (snd (utf8decode [0xE2; 0x82]%Z 2) = 0 <->
   2 = 0 \/
   (1 <= utf8_announced [0xE2; 0x82]%Z <= UTF_SIZ /\
    2 < utf8_announced [0xE2; 0x82]%Z /\
    forall i, 1 <= i < 2 -> is_continuation (nth i [0xE2; 0x82]%Z 0%Z))).
Proof. exact (utf8decode_count [0xE2; 0x82]%Z 2). Defined.

Lemma utf8decode_resync_witness :
  utf8decode [0xE2; 0x41; 0x42]%Z 4 = (UTF_INVALID, 1).
Proof.
  apply (utf8decode_resync [0xE2; 0x41; 0x42]%Z 4 1).
  - vm_compute. lia.
  - vm_compute. lia.
  - lia.
  - intros i Hi. lia.
  - vm_compute. discriminate.
Defined.

Lemma utf8decode_stops_at_nul_witness :
  utf8decode ([0xE2; 0x82] ++ 0 :: [0xAC])%Z 4 = utf8decode ([0xE2; 0x82] ++ [0])%Z 4 /\
  ([0xE2; 0x82]%Z <> [] ->
   snd (utf8decode ([0xE2; 0x82] ++ 0 :: [0xAC])%Z 4) <= 2).
Proof. exact (utf8decode_stops_at_nul [0xE2; 0x82]%Z [0xAC]%Z 4). Defined.

Lemma utf8validate_shortest_witness :
  fst (utf8validate 0xD800 3) = UTF_INVALID /\ snd (utf8validate 0xD800 3) = 3.
Proof.
  destruct (utf8validate_shortest 0xD800 3) as (_ & Hrepl & _).
  - vm_compute. lia.
  - split; [|reflexivity]. apply Hrepl. lia.
Defined.

Lemma drw_load_fonts_in_order_witness :
  exists d',
    @drw_load_fonts Demo.xft 3 (drw_create 3)
      (map Some ["mono"; "nope"; "greek"]%string)
    = Ret (d', [cannot_load "nope"]) /\
    fontcount d' = 2 /\
    fonts d' = [Some Demo.mono; Some Demo.greek; None].
Proof.
  destruct (@drw_load_fonts_in_order Demo.xft 3 ["mono"; "nope"; "greek"]%string
              (drw_create 3)) as (d' & Hload & Hcount & _ & Hfonts).
  - demo_wf.
  - simpl. lia.
  - exists d'. split; [exact Hload|]. split; [exact Hcount|exact Hfonts].
Defined.

Lemma api_surface_safe_witness :
  @api_surface Demo.xft 3 Demo.room3 /\
  surface_ok 3 Demo.room3 /\
  (exists r d',
     @drw_text Demo.xft 3 (Some Demo.room3) 0 0 200 20
       (Some (Demo.hello ++ Demo.snowman)) false
     = Some (Ret r) /\
     res_drw r = Some d' /\
     fontcount d' = 3 /\
     @api_surface Demo.xft 3 d' /\ surface_ok 3 d') /\
  (forall names, @drw_load_fonts Demo.xft 3 Demo.room3 names <> Fault).
Proof.
  assert (Hload : @api_surface Demo.xft 3
                    {| fontcount := 2;
                       fonts := [Some Demo.mono; Some Demo.greek; None];
                       scheme := None |}).
  { apply (api_load 3 (drw_create 3) [Some "mono"; Some "greek"]%string _ []
             (api_create 3)).
    vm_compute. reflexivity. }
  pose proof (api_setscheme 3 _ (Some Demo.scm) Hload) as Hapi.
  change (@api_surface Demo.xft 3 Demo.room3) in Hapi.
  destruct (@api_surface_safe Demo.xft 3 Demo.room3 Hapi)
    as (Hok & Htext & Hnofault).
  split; [exact Hapi|]. split; [exact Hok|]. split; [|exact Hnofault].
  destruct (Htext 0%Z 0%Z 200%Z 20%Z
              (Some (Demo.hello ++ Demo.snowman)) false)
    as (r & d' & Hr & Hd & Hapi').
  exists r, d'. split; [exact Hr|]. split; [exact Hd|].
  split; [|split; [exact Hapi'|]];
    [|exact (proj1 (@api_surface_safe Demo.xft 3 d' Hapi'))].
  vm_compute in Hr. injection Hr as <-. injection Hd as <-. reflexivity.
Defined.

Lemma runs_partition_text_witness :
  exists r,
    @drw_text Demo.xft 2 (Some Demo.full2) 0 0 0 0
      (Some (Demo.beta ++ Demo.snowman ++ [0; 0x41]%Z)) false = Some (Ret r) /\
    concat (map run_text (res_runs r)) = Demo.beta ++ Demo.snowman.
Proof.
  eexists. split; [vm_compute; reflexivity|].
  refine (proj1 (@runs_partition_text Demo.xft 2 Demo.full2 0 0 0 0
                   (Demo.beta ++ Demo.snowman ++ [0; 0x41]%Z) false _ _ _ _ _)).
  - demo_wf.
  - discriminate.
  - discriminate.
  - vm_compute. reflexivity.
Defined.

Lemma drw_text_cursor_witness :
  exists r,
    @drw_text Demo.xft 1 (Some Demo.mono1) 3 0 65 0 (Some Demo.hello) false
    = Some (Ret r) /\
    res_x r = 43%Z.
Proof.
  eexists. split; [vm_compute; reflexivity|].
  refine (@drw_text_cursor Demo.xft 1 Demo.mono1 3 0 65 0 Demo.hello false _ _ _ _ _ _).
  - demo_wf.
  - discriminate.
  - discriminate.
  - lia.
  - vm_compute. reflexivity.
Defined.

Lemma drw_text_draws_witness :
  exists r,
    @drw_text Demo.xft 1 (Some Demo.mono1) 7 0 5 0 (Some Demo.hello) false
    = Some (Ret r) /\
    res_fill r = Some (7, 0, 5, 0)%Z /\
    Forall (fun run => run_draw run <> None <-> 0 < run_len run) (res_runs r).
Proof.
  eexists. split; [vm_compute; reflexivity|].
  refine (proj2 (@drw_text_draws Demo.xft 1 Demo.mono1 7 0 5 0 (Some Demo.hello) false
                   _ _ _) _).
  - demo_wf.
  - vm_compute. reflexivity.
  - reflexivity.
Defined.

Lemma drw_text_buffer_witness :
  exists r run,
    @drw_text Demo.xft 1 (Some Demo.mono1) 0 0 65 0 (Some Demo.hello) false
    = Some (Ret r) /\
    In run (res_runs r) /\
    run_len run <= 1023 /\
    run_len run <= run_strlen run <= length (run_str run) /\
    length (run_buf run) = run_len run.
Proof.
  do 2 eexists. split; [vm_compute; reflexivity|].
  split; [left; reflexivity|].
  eapply (@drw_text_buffer Demo.xft 1 Demo.mono1 0 0 65 0 Demo.hello false).
  - demo_wf.
  - vm_compute. reflexivity.
  - left. reflexivity.
Defined.

Lemma ellipsis_all_or_nothing_witness :
  exists r run,
    @drw_text Demo.xft 1 (Some Demo.mono1) 0 0 65 0 (Some Demo.hello) false
    = Some (Ret r) /\
    In run (res_runs r) /\ run_len run = 3 /\ run_strlen run = 5 /\
    run_buf run = [46; 46; 46]%Z.
Proof.
  do 2 eexists. split; [vm_compute; reflexivity|].
  split; [left; reflexivity|]. split; [reflexivity|]. split; [reflexivity|].
  eapply (@ellipsis_all_or_nothing Demo.xft 1 Demo.mono1 0 0 65 0 Demo.hello false).
  - demo_wf.
  - vm_compute. reflexivity.
  - left. reflexivity.
  - simpl. lia.
  - simpl. lia.
Defined.

Lemma fit_shortened_witness :
  exists x' w' run,
    @fit Demo.xft Demo.mono1 0 true 0 0 65 0 Demo.hello 5 = Ret (x', w', Some run) /\
    run_len run = 3 /\
    run_ew run = @drw_font_getexts Demo.xft Demo.mono Demo.hello 4 /\
    x' = sint (0 + @drw_font_getexts Demo.xft Demo.mono Demo.hello 4).
Proof.
  do 3 eexists. split; [vm_compute; reflexivity|].
  destruct (@fit_shortened Demo.xft Demo.mono1 0 true 0 0 65 0 Demo.hello 5
              40%Z 25%Z
              {| run_font := 0; run_str := Demo.hello; run_strlen := 5;
                 run_full := 50%Z; run_len := 3; run_ew := 40%Z;
                 run_buf := [46; 46; 46]%Z; run_draw := Some (0, 5)%Z |}
              Demo.mono Demo.mono) as (_ & _ & Hcut).
  - vm_compute. reflexivity.
  - reflexivity.
  - reflexivity.
  - destruct Hcut as (_ & Hew & Hkept & _); [vm_compute; reflexivity|].
    split; [reflexivity|]. split; [exact Hew|].
    apply Hkept. simpl. lia.
Defined.

(** The tails of "hello", one by one. *)
Lemma demo_hello_tails (P : list Z -> Prop) :
  P Demo.hello -> P (skipn 1 Demo.hello) -> P (skipn 2 Demo.hello) ->
  P (skipn 3 Demo.hello) -> P (skipn 4 Demo.hello) ->
  forall t, tail_of Demo.hello t -> nonnul t = true -> P t.
Proof.
  intros H0 H1 H2 H3 H4 t Ht Hnn.
  destruct (tail_of_drop _ _ Ht) as (k & ->).
  destruct k as [|[|[|[|[|k]]]]]; try assumption.
  exfalso. destruct k; discriminate Hnn.
Qed.

Lemma covered_text_keeps_cache_witness :
  exists r,
    @drw_text Demo.xft 1 (Some Demo.mono1) 0 0 0 0 (Some Demo.hello) false
    = Some (Ret r) /\
    res_drw r = Some Demo.mono1 /\ res_err r = [].
Proof.
  apply (@covered_text_keeps_cache Demo.xft 1 Demo.mono1 0 0 0 0 Demo.hello false).
  - demo_wf.
  - discriminate.
  - discriminate.
  - refine (demo_hello_tails
              (fun t => @found Demo.xft Demo.mono1 (head_codepoint t) <> None)
              _ _ _ _ _); vm_compute; discriminate.
Defined.

Lemma drw_text_empty_string_witness :
  @drw_text Demo.xft 1 (Some Demo.mono1) 7 0 0 0 (Some []) false
  = Some (Ret {| res_x := 7%Z; res_drw := Some Demo.mono1;
                 res_fill := Some (7, 0, 0, 0)%Z;
                 res_runs := []; res_err := [] |}).
Proof.
  apply (@drw_text_empty_string Demo.xft 1 Demo.mono1 Demo.scm 7 0 0 0 [] false).
  - reflexivity.
  - discriminate.
  - reflexivity.
Defined.

Lemma primary_font_takes_all_witness :
  exists r run,
    @drw_text Demo.xft 1 (Some Demo.mono1) 0 0 0 0 (Some Demo.hello) false
    = Some (Ret r) /\
    res_runs r = [run] /\
    run_font run = 0 /\ run_str run = Demo.hello /\ run_strlen run = 5 /\
    res_drw r = Some Demo.mono1 /\ res_err r = [].
Proof.
  apply (@primary_font_takes_all Demo.xft 1 Demo.mono1 Demo.mono 0 0 0 0 Demo.hello
           false).
  - demo_wf.
  - discriminate.
  - discriminate.
  - reflexivity.
  - reflexivity.
  - refine (demo_hello_tails
              (fun t => @XftCharExists Demo.xft (xfont Demo.mono) (head_codepoint t)
                        = true) _ _ _ _ _); vm_compute; reflexivity.
Defined.

Lemma drw_rect_square_witness :
  drw_rect (Some Demo.mono1) 10 10 0 0 true false false
  = Ret [XSetForeground 1; XFillRectangle 11 11 6 6].
Proof.
  destruct (drw_rect_square 1 Demo.mono1 10 10 0 0 true false false)
    as (_ & _ & Hdraw & _).
  - demo_wf.
  - destruct (Hdraw Demo.scm Demo.mono) as (dx & _ & Hcall & _).
    + discriminate.
    + reflexivity.
    + reflexivity.
    + reflexivity.
Defined.

Lemma drw_free_releases_witness :
  drw_free None = Fault /\
  exists calls,
    drw_free (Some Demo.full2) = Ret (calls ++ [XFreePixmap; XFreeGC]) /\
    closed calls = [Demo.face 0; Demo.face 1] /\
    destroyed calls = [4; 5].
Proof.
  destruct (drw_free_releases 2 Demo.full2) as (Hnull & calls & Hfree & Hc & Hd & _).
  - demo_wf.
  - split; [exact Hnull|]. exists calls. split; [exact Hfree|].
    split; [exact Hc|exact Hd].
Defined.

Lemma drw_text_dies_witness :
  @drw_text Demo.xft 2 (Some Demo.bare2) 0 0 0 0 (Some Demo.snowman) false
  = Some (Die no_template_msg Demo.bare2).
Proof.
  destruct (@drw_text_dies Demo.xft 2 Demo.bare2 0 0 0 0 Demo.snowman false)
    as (_ & Hdies).
  - demo_wf.
  - apply (Hdies (@font_of (Demo.face 0) None)).
    + discriminate.
    + simpl. lia.
    + reflexivity.
    + reflexivity.
    + reflexivity.
    + reflexivity.
Defined.

Lemma drw_load_fonts_dies_witness :
  @drw_load_fonts Demo.xft 2 Demo.full2 [Some "mirror"%string]
  = Die "Font cache exhausted." Demo.full2 /\
  fontcount Demo.full2 = 2.
Proof.
  split; [reflexivity|].
  destruct (@drw_load_fonts_dies Demo.xft 2 [Some "mirror"%string] Demo.full2
              "Font cache exhausted." Demo.full2)
    as (_ & _ & [(_ & Hc & _)|(Hm & _)]).
  - demo_wf.
  - reflexivity.
  - exact Hc.
  - discriminate Hm.
Defined.

Lemma drw_text_adds_fetched_fonts_witness :
  exists r d',
    @drw_text Demo.xft 3 (Some Demo.room3) 0 0 0 0 (Some Demo.snowman) false
    = Some (Ret r) /\
    res_drw r = Some d' /\
    fontcount d' = 3 /\
    @fetched_for Demo.xft Demo.snowman d' 2 /\
    res_err r = [].
Proof.
  do 2 eexists. split; [vm_compute; reflexivity|].
  split; [reflexivity|]. split; [reflexivity|]. split; [|reflexivity].
  refine (proj1 (proj2 (@drw_text_adds_fetched_fonts Demo.xft 3 Demo.room3 0 0 0 0
                          Demo.snowman false _ _ _ _ _)) 2 _).
  - demo_wf.
  - vm_compute. reflexivity.
  - reflexivity.
  - simpl. lia.
Defined.

Lemma utf8decode_stray_byte_witness :
  utf8decode [0x82; 0xAC]%Z 4 = (UTF_INVALID, 1).
Proof.
  apply (utf8decode_stray_byte 0x82 [0xAC]%Z 4).
  - left. vm_compute. split; [discriminate|reflexivity].
  - lia.
Defined.

Lemma fit_draw_position_witness :
  exists x' w' run,
    @fit Demo.xft Demo.mono1 0 true 4 6 200 30 Demo.hello 5
    = Ret (x', w', Some run) /\
    run_draw run = Some (19, 26)%Z /\
    (6 <= 26 - 15)%Z /\ (26 + 5 <= 6 + 30)%Z.
Proof.
  do 3 eexists. split; [vm_compute; reflexivity|]. split; [reflexivity|].
  refine (proj2 (proj2 (@fit_draw_position Demo.xft Demo.mono1 0 4 6 200 30
                          Demo.hello 5 _ _ _ Demo.mono 19 26 _ _ _ _ _ _ _ _ _))).
  - vm_compute. reflexivity.
  - reflexivity.
  - reflexivity.
  - lia.
  - lia.
  - lia.
  - simpl. lia.
  - simpl. lia.
  - simpl. lia.
Defined.

Lemma drw_text_settles_witness :
  exists r d',
    @drw_text Demo.xft 3 (Some Demo.room3) 0 0 0 0
      (Some (Demo.euro ++ Demo.snowman)) false
    = Some (Ret r) /\
    res_drw r = Some d' /\
    fontcount d' = 3 /\
    exists r2,
      @drw_text Demo.xft 3 (Some d') 5 5 100 20
        (Some (Demo.euro ++ Demo.snowman)) true
      = Some (Ret r2) /\
      res_drw r2 = Some d'.
Proof.
  do 2 eexists. split; [vm_compute; reflexivity|].
  split; [reflexivity|]. split; [reflexivity|].
  refine (@drw_text_settles Demo.xft 3 Demo.room3 0 0 0 0
            (Demo.euro ++ Demo.snowman) false _ _ _ _ _ 5 5 100 20 true).
  - demo_wf.
  - vm_compute. reflexivity.
  - reflexivity.
Defined.
